(** * TSP-CS: the city-selection travelling salesman problem of PaGMO

    A shallow embedding of [src/problem/tsp_cs.cpp].  The C++ class [tsp_cs]
    becomes a record, its methods become functions into an [outcome] type
    that keeps apart a normal return, a thrown exception, undefined
    behaviour (an out-of-bounds [operator[]], an invalid conversion), a
    failed [pagmo_assert] and a loop that was cut off by its fuel.

    The code computes on [double].  Every function below is written once,
    over an interface [DoubleOps] of the operations the code applies to
    doubles; [binary64] instantiates it with the IEEE 754 binary64 numbers
    of the kernel (so that concrete runs are bit-exact), [rational]
    instantiates it with exact rational arithmetic. *)

From Stdlib Require Import String Ascii ZArith NArith QArith Lqa List Bool Lia Permutation.
From Stdlib Require Import Floats.
Import ListNotations.

(** ** Outcomes of a C++ call *)

Inductive exn : Type :=
| value_error (what : string)
| out_of_range.

Inductive outcome (A : Type) : Type :=
| Ok (a : A)
| Throw (e : exn)
| Undefined
| Abort
| OutOfFuel.

Arguments Ok {A} a.
Arguments Throw {A} e.
Arguments Undefined {A}.
Arguments Abort {A}.
Arguments OutOfFuel {A}.

Definition bind {A B : Type} (m : outcome A) (k : A -> outcome B) : outcome B :=
  match m with
  | Ok a => k a
  | Throw e => Throw e
  | Undefined => Undefined
  | Abort => Abort
  | OutOfFuel => OutOfFuel
  end.

Notation "x <- m ;; k" := (bind m (fun x => k))
  (at level 61, m at next level, right associativity).

Definition of_option {A : Type} (o : option A) : outcome A :=
  match o with
  | Some a => Ok a
  | None => Undefined
  end.

(** [for (i = ...; ...; ++i) body] over the indices [xs], with the loop's
    variables threaded through as [s]. *)
Fixpoint for_each {A S : Type} (xs : list A) (body : A -> S -> outcome S) (s : S)
  : outcome S :=
  match xs with
  | [] => Ok s
  | x :: xs' => s' <- body x s ;; for_each xs' body s'
  end.

(** ** [size_t] and [std::vector] *)

Module SizeT.
  (** [size_t] is a 64-bit unsigned integer: arithmetic wraps around. *)
Definition modulus : N := 2 ^ 64.
Definition wrap (x : N) : N := x mod modulus.
Definition add (a b : N) : N := wrap (a + b).
Definition sub (a b : N) : N := wrap (a + modulus - wrap b).
Definition mul (a b : N) : N := wrap (a * b).
End SizeT.

(** The indices [lo, lo+1, ..., hi-1] of [for (size_t i = lo; i < hi; ++i)]. *)
Definition range (lo hi : N) : list N :=
  map N.of_nat (seq (N.to_nat lo) (N.to_nat hi - N.to_nat lo)).

Definition vec_size {A : Type} (v : list A) : N := N.of_nat (length v).

(** [v[i]]: undefined behaviour out of range. *)
Definition vec_get {A : Type} (v : list A) (i : N) : outcome A :=
  of_option (nth_error v (N.to_nat i)).

(** [v.at(i)]: throws [std::out_of_range] out of range. *)
Definition vec_at {A : Type} (v : list A) (i : N) : outcome A :=
  match nth_error v (N.to_nat i) with
  | Some a => Ok a
  | None => Throw out_of_range
  end.

Fixpoint list_set {A : Type} (v : list A) (i : nat) (a : A) : list A :=
  match v, i with
  | [], _ => []
  | _ :: v', O => a :: v'
  | b :: v', S i' => b :: list_set v' i' a
  end.

(** [v[i] = a]: undefined behaviour out of range. *)
Definition vec_set {A : Type} (v : list A) (i : N) (a : A) : outcome (list A) :=
  if (i <? vec_size v)%N then Ok (list_set v (N.to_nat i) a) else Undefined.

(** ** The arithmetic of [double] *)

Class DoubleOps (D : Type) : Type := {
  (** conversion of an integer ([int], [size_t], [bool]) to [double] *)
  d_of_Z : Z -> D;
  d_add : D -> D -> D;
  d_sub : D -> D -> D;
  d_mul : D -> D -> D;
  d_div : D -> D -> D;
  d_opp : D -> D;
  (** [==], [<] and [<=] *)
  d_eqb : D -> D -> bool;
  d_ltb : D -> D -> bool;
  d_leb : D -> D -> bool;
  (** conversion of a [double] to [size_t] (truncation towards zero);
      [None] when the truncated value is not a [size_t]: undefined behaviour *)
  d_to_size : D -> option N
}.

Section Derived.
Context {D : Type} {ops : DoubleOps D}.

Definition d_zero : D := d_of_Z 0.
Definition d_one : D := d_of_Z 1.
Definition d_of_size (n : N) : D := d_of_Z (Z.of_N n).
Definition d_of_bool (b : bool) : D := d_of_Z (Z.b2z b).
  (** [a != b] *)
Definition d_neb (a b : D) : bool := negb (d_eqb a b).
  (** [a > b] *)
Definition d_gtb (a b : D) : bool := d_ltb b a.
  (** [!a]: the negation of the conversion of [a] to [bool], which is [a != 0] *)
Definition d_not (a : D) : bool := negb (d_neb a d_zero).
End Derived.

(** *** IEEE 754 binary64 *)

Module Binary64.
Definition of_Z (z : Z) : float :=
    SF2Prim (binary_normalize prec emax z 0 false).

Definition to_size (x : float) : option N :=
    match Prim2SF x with
    | S754_zero _ => Some 0%N
    | S754_finite s m e =>
        let t := Z.shiftl (Z.pos m) e in
        if (t =? 0)%Z then Some 0%N
        else if s then None
        else if (t <? 2 ^ 64)%Z then Some (Z.to_N t)
        else None
    | _ => None
    end.
End Binary64.

#[export] Instance binary64 : DoubleOps float := {|
  d_of_Z := Binary64.of_Z;
  d_add := PrimFloat.add;
  d_sub := PrimFloat.sub;
  d_mul := PrimFloat.mul;
  d_div := PrimFloat.div;
  d_opp := PrimFloat.opp;
  d_eqb := PrimFloat.eqb;
  d_ltb := PrimFloat.ltb;
  d_leb := PrimFloat.leb;
  d_to_size := Binary64.to_size
|}.

(** *** Exact rational arithmetic *)

Module Rational.
Definition to_size (q : Q) : option N :=
    let t := Z.quot (Qnum q) (Z.pos (Qden q)) in
    if (t <? 0)%Z then None
    else if (t <? 2 ^ 64)%Z then Some (Z.to_N t)
    else None.
End Rational.

#[export] Instance rational : DoubleOps Q := {|
  d_of_Z := inject_Z;
  d_add := Qplus;
  d_sub := Qminus;
  d_mul := Qmult;
  d_div := Qdiv;
  d_opp := Qopp;
  d_eqb := Qeq_bool;
  d_ltb := fun a b => negb (Qle_bool b a);
  d_leb := Qle_bool;
  d_to_size := Rational.to_size
|}.

(** ** The problem instance *)

Inductive encoding_type : Type := FULL | RANDOMKEYS | CITIES.

Section TspCs.
Context {D : Type} {ops : DoubleOps D}.

  (** The members of [tsp_cs]; [m_n_cities] and [m_encoding] are those of
      its base class [base_tsp], read through [get_n_cities()] and
      [get_encoding()]. *)
Record tsp_cs : Type := {
    m_n_cities : N;
    m_encoding : encoding_type;
    m_weights : list (list D);
    m_values : list D;
    m_max_path_length : D;
    m_min_value : D
  }.

  (** [tsp_cs::tsp_cs()] *)
Definition default_tsp_cs : tsp_cs := {|
    m_n_cities := 3;
    m_encoding := RANDOMKEYS;
    m_weights := [ [d_zero; d_one; d_one];
                   [d_one; d_zero; d_one];
                   [d_one; d_one; d_zero] ];
    m_values := [d_one; d_one; d_one];
    m_max_path_length := d_one;
    m_min_value := d_one
  |}.

  (** [tsp_cs::check_weights]: the three tests on the cell [(i, j)]. *)
Definition check_cell (i j : N) (v : D) : outcome unit :=
    if (i =? j)%N && d_neb v d_zero then
      Throw (value_error "main diagonal elements must all be zeros.")
    else if negb (i =? j)%N && d_not v then
      Throw (value_error "adjacency matrix contains zero values.")
    else if negb (i =? j)%N && d_eqb (d_of_bool (d_not v)) v then
      Throw (value_error "adjacency matrix contains NaN values.")
    else Ok tt.

Definition check_row (matrix : list (list D)) (n_cols i : N) : outcome unit :=
    row <- vec_at matrix i ;;
    let n_rows := vec_size row in
    if negb (n_rows =? n_cols)%N then
      Throw (value_error "adjacency matrix is not square")
    else
      for_each (range 0 n_rows)
        (fun j _ => row' <- vec_at matrix i ;; v <- vec_at row' j ;; check_cell i j v)
        tt.

  (** [tsp_cs::check_weights] *)
Definition check_weights (matrix : list (list D)) : outcome unit :=
    let n_cols := vec_size matrix in
    for_each (range 0 n_cols) (fun i _ => check_row matrix n_cols i) tt.

  (** [std::min(a, b)] on two iterators of one vector, each given by its
      offset from [begin()]: [b] if [b < a], else [a]. *)
Definition std_min_iterator (a b : N) : N := if (b <? a)%N then b else a.

  (** [tsp_cs::tsp_cs(weights, values, max_path_length, encoding)]: the
      member initializers and the body of the constructor.  The
      initializer of the base class, [base_tsp(weights.size(),
      compute_dimensions(...)[0], compute_dimensions(...)[1], encoding)],
      runs before them; [base_tsp] is not part of these sources, and
      [construct_tsp_cs] below takes it as a parameter. *)
Definition make_tsp_cs (weights : list (list D)) (values : list D)
      (max_path_length : D) (encoding : encoding_type) : outcome tsp_cs :=
    _ <- check_weights weights ;;
    if negb (vec_size weights =? vec_size values)%N then
      Throw (value_error "Size of weight matrix and values vector must be equal")
    else
      (* *std::min(m_values.begin(), m_values.end()) *)
      min_value <- vec_get values (std_min_iterator 0 (vec_size values)) ;;
      Ok {| m_n_cities := vec_size weights;
            m_encoding := encoding;
            m_weights := weights;
            m_values := values;
            m_max_path_length := max_path_length;
            m_min_value := min_value |}.

  (** *** [tsp_cs::find_city_subsequence] *)

  (** The four output parameters. *)
Record subsequence : Type := {
    retval_p : D;
    retval_l : D;
    retval_it_l : N;
    retval_it_r : N
  }.

  (** The local variables of the double loop, with the output parameters. *)
Record fcs_state : Type := {
    it_l : N;
    it_r : N;
    cond_r : bool;
    cond_l : bool;
    cum_p : D;
    saved_length : D;
    retval : subsequence
  }.

Definition set_cond_r (b : bool) (st : fcs_state) : fcs_state :=
    {| it_l := it_l st; it_r := it_r st; cond_r := b; cond_l := cond_l st;
       cum_p := cum_p st; saved_length := saved_length st; retval := retval st |}.

Definition set_cond_l (b : bool) (st : fcs_state) : fcs_state :=
    {| it_l := it_l st; it_r := it_r st; cond_r := cond_r st; cond_l := b;
       cum_p := cum_p st; saved_length := saved_length st; retval := retval st |}.

  (** [retval_p = cum_p; retval_l = saved_length;
       retval_it_l = it_l % n_cities; retval_it_r = it_r % n_cities;] *)
Definition update_retvals (n_cities : N) (st : fcs_state) : fcs_state :=
    {| it_l := it_l st; it_r := it_r st; cond_r := cond_r st; cond_l := cond_l st;
       cum_p := cum_p st; saved_length := saved_length st;
       retval := {| retval_p := cum_p st;
                    retval_l := saved_length st;
                    retval_it_l := (it_l st mod n_cities)%N;
                    retval_it_r := (it_r st mod n_cities)%N |} |}.

  (** [if (cum_p > retval_p) {...} else if (cum_p == retval_p)
       { if (saved_length > retval_l) {...} }] *)
Definition improve (n_cities : N) (st : fcs_state) : fcs_state :=
    if d_gtb (cum_p st) (retval_p (retval st)) then update_retvals n_cities st
    else if d_eqb (cum_p st) (retval_p (retval st)) then
      if d_gtb (saved_length st) (retval_l (retval st)) then update_retvals n_cities st
      else st
    else st.

  (** [m_weights[tour[p]][tour[q]]] *)
Definition weight_at (self : tsp_cs) (tour : list D) (p q : N) : outcome D :=
    a <- vec_get tour p ;;
    i <- of_option (d_to_size a) ;;
    row <- vec_get (m_weights self) i ;;
    b <- vec_get tour q ;;
    j <- of_option (d_to_size b) ;;
    vec_get row j.

  (** The body of [while (cond_r)]. *)
Definition inner_body (self : tsp_cs) (tour : list D) (st : fcs_state)
    : outcome fcs_state :=
    let n_cities := m_n_cities self in
    w <- weight_at self tour (it_r st mod n_cities)%N
                             (SizeT.add (it_r st) 1 mod n_cities)%N ;;
    v <- vec_get (m_values self) (SizeT.add (it_r st) 1 mod n_cities)%N ;;
    let st1 := {| it_l := it_l st; it_r := SizeT.add (it_r st) 1;
                  cond_r := cond_r st; cond_l := cond_l st;
                  cum_p := d_add (cum_p st) v;
                  saved_length := d_sub (saved_length st) w;
                  retval := retval st |} in
    if d_ltb (saved_length st1) d_zero
       || (it_l st1 mod n_cities =? it_r st1 mod n_cities)%N
    then Ok (set_cond_r false st1)
    else Ok (improve n_cities st1).

Fixpoint inner_loop (fuel : nat) (self : tsp_cs) (tour : list D) (st : fcs_state)
    : outcome fcs_state :=
    if cond_r st then
      match fuel with
      | O => OutOfFuel
      | S fuel' => st' <- inner_body self tour st ;; inner_loop fuel' self tour st'
      end
    else Ok st.

  (** The body of [while (cond_l)] after its inner loop. *)
Definition outer_rest (self : tsp_cs) (tour : list D) (st : fcs_state)
    : outcome fcs_state :=
    let n_cities := m_n_cities self in
    if (it_l st mod n_cities =? it_r st mod n_cities)%N then
      Ok (set_cond_l false st)
    else
      w <- weight_at self tour (it_l st mod n_cities)%N
                               (SizeT.add (it_l st) 1 mod n_cities)%N ;;
      v <- vec_get (m_values self) (it_l st) ;;
      let st1 := {| it_l := SizeT.add (it_l st) 1; it_r := it_r st;
                    cond_r := cond_r st; cond_l := cond_l st;
                    cum_p := d_sub (cum_p st) v;
                    saved_length := d_add (saved_length st) w;
                    retval := retval st |} in
      let st2 := if d_gtb (saved_length st1) d_zero
                 then improve n_cities (set_cond_r true st1)
                 else st1 in
      Ok (if (it_l st2 =? n_cities)%N then set_cond_l false st2 else st2).

Fixpoint outer_loop (fuel inner_fuel : nat) (self : tsp_cs) (tour : list D)
      (st : fcs_state) : outcome fcs_state :=
    if cond_l st then
      match fuel with
      | O => OutOfFuel
      | S fuel' =>
          st1 <- inner_loop inner_fuel self tour st ;;
          st2 <- outer_rest self tour st1 ;;
          outer_loop fuel' inner_fuel self tour st2
      end
    else Ok st.

  (** [fuel] bounds the iterations of the outer loop and those of each run
      of the inner loop. *)
Definition find_city_subsequence (fuel : nat) (self : tsp_cs) (tour : list D)
    : outcome subsequence :=
    if negb (vec_size tour =? m_n_cities self)%N then
      Throw (value_error "tour dimension must be equal to the city number")
    else
      t0 <- vec_get tour 0 ;;
      i0 <- of_option (d_to_size t0) ;;
      v0 <- vec_get (m_values self) i0 ;;
      let st0 := {| it_l := 0; it_r := 0; cond_r := true; cond_l := true;
                    cum_p := v0; saved_length := m_max_path_length self;
                    retval := {| retval_p := v0;
                                 retval_l := m_max_path_length self;
                                 retval_it_l := 0; retval_it_r := 0 |} |} in
      st <- outer_loop fuel fuel self tour st0 ;;
      Ok (retval st).

  (** *** [tsp_cs::objfun_impl] *)

Section Objfun.
    (** [base_tsp::full2cities] and [base_tsp::randomkeys2cities], the
        decoders of the base class. *)
Variable full2cities randomkeys2cities : tsp_cs -> list D -> outcome (list D).

Definition objfun_impl (fuel : nat) (self : tsp_cs) (f x : list D)
      : outcome (list D) :=
      f <- vec_set f 0 d_zero ;;
      let n_cities := m_n_cities self in
      tour <- match m_encoding self with
              | FULL => full2cities self x
              | RANDOMKEYS => randomkeys2cities self x
              | CITIES => Ok x
              end ;;
      r <- find_city_subsequence fuel self tour ;;
      vec_set f 0
        (d_opp (d_add (d_add (retval_p r)
                             (d_mul (d_sub d_one (m_min_value self))
                                    (d_of_size n_cities)))
                      (d_div (retval_l r) (m_max_path_length self)))).
End Objfun.

  (** *** [tsp_cs::compute_idx] *)

Definition compute_idx (i j n : N) : outcome N :=
    if negb (i =? j)%N && (i <? n)%N && (j <? n)%N then
      Ok (SizeT.sub (SizeT.add (SizeT.mul i (SizeT.sub n 1)) j)
                    (if (i <? j)%N then 1 else 0)%N)
    else Abort.

  (** *** [tsp_cs::compute_constraints_impl] *)

  (** [int]: signed 32-bit; an overflow is undefined behaviour. *)
Definition int_of (z : Z) : outcome Z :=
    if ((- 2 ^ 31 <=? z) && (z <? 2 ^ 31))%Z then Ok z else Undefined.

  (** Conversion of a [size_t] to [int] (modulo [2^32]). *)
Definition int_of_size (n : N) : Z :=
    ((Z.of_N n + 2 ^ 31) mod 2 ^ 32 - 2 ^ 31)%Z.

  (** Conversion of an [int] to [size_t] (modulo [2^64]). *)
Definition size_of_int (z : Z) : N := Z.to_N (z mod 2 ^ 64).

  (** FULL, part 1: the body of the loop on [j]. *)
Definition degree_inner (x : list D) (n i j : N) (c : list D) : outcome (list D) :=
    if (i =? j)%N then Ok c
    else
      rows <- compute_idx i j n ;;
      cols <- compute_idx j i n ;;
      ci <- vec_get c i ;;
      xr <- vec_get x rows ;;
      c <- vec_set c i (d_add ci xr) ;;
      cin <- vec_get c (SizeT.add i n) ;;
      xc <- vec_get x cols ;;
      vec_set c (SizeT.add i n) (d_add cin xc).

  (** FULL, part 1: the body of the loop on [i]. *)
Definition degree_outer (x : list D) (n i : N) (c : list D) : outcome (list D) :=
    c <- vec_set c i d_zero ;;
    c <- vec_set c (SizeT.add i n) d_zero ;;
    c <- for_each (range 0 n) (degree_inner x n i) c ;;
    ci <- vec_get c i ;;
    c <- vec_set c i (d_sub ci d_one) ;;
    cin <- vec_get c (SizeT.add i n) ;;
    vec_set c (SizeT.add i n) (d_sub cin d_one).

  (** FULL, part 2.1: the loop on [j] with its [break]; the result is the
      new value of [next_city]. *)
Fixpoint find_next_city (x : list D) (n current_city : N) (js : list N)
      (next_city : N) : outcome N :=
    match js with
    | [] => Ok next_city
    | j :: js' =>
        if (current_city =? j)%N then find_next_city x n current_city js' next_city
        else
          k <- compute_idx current_city j n ;;
          xk <- vec_get x k ;;
          if d_eqb xk d_one then Ok j
          else find_next_city x n current_city js' next_city
    end.

  (** FULL, part 2.1: the body of the loop on [i], on [(u, next_city, current_city)]. *)
Definition rank_step (x : list D) (n i : N) (s : list Z * N * N)
    : outcome (list Z * N * N) :=
    let '(u, next_city, current_city) := s in
    u <- vec_set u current_city (int_of_size (SizeT.add i 1)) ;;
    next_city <- find_next_city x n current_city (range 0 n) next_city ;;
    Ok (u, next_city, next_city).

  (** FULL, part 2.2: the body of the loop on [j], on [(c, count)]. *)
Definition subtour_inner (x : list D) (u : list Z) (n i j : N) (s : list D * Z)
    : outcome (list D * Z) :=
    let '(c, count) := s in
    if (i =? j)%N then Ok s
    else
      ui <- vec_get u i ;;
      uj <- vec_get u j ;;
      du <- int_of (ui - uj) ;;
      k <- compute_idx i j n ;;
      xk <- vec_get x k ;;
      c <- vec_set c (SizeT.add (SizeT.mul 2 n) (size_of_int count))
             (d_sub (d_add (d_of_Z du) (d_mul (d_of_size (SizeT.add n 1)) xk))
                    (d_of_size n)) ;;
      count <- int_of (count + 1) ;;
      Ok (c, count).

  (** [std::is_permutation(first1, last1, first2)] on the ranges [x] and
      [r] (of the length of [x]), after the C++ standard: true if and only
      if some permutation of [r] equals [x] element by element under [==].
      [remove_first a r] takes the first element equal to [a] out of [r]. *)
Fixpoint remove_first (a : D) (r : list D) : option (list D) :=
    match r with
    | [] => None
    | b :: r' =>
        if d_eqb a b then Some r'
        else option_map (cons b) (remove_first a r')
    end.

Fixpoint std_is_permutation (x r : list D) : bool :=
    match x with
    | [] => match r with [] => true | _ :: _ => false end
    | a :: x' =>
        match remove_first a r with
        | Some r' => std_is_permutation x' r'
        | None => false
        end
    end.

Definition compute_constraints_impl (self : tsp_cs) (c x : list D)
    : outcome (list D) :=
    let n_cities := m_n_cities self in
    match m_encoding self with
    | FULL =>
        c <- for_each (range 0 n_cities) (degree_outer x n_cities) c ;;
        s <- for_each (range 0 n_cities) (rank_step x n_cities)
               (repeat 0%Z (N.to_nat n_cities), 0%N, 0%N) ;;
        let '(u, _, _) := s in
        s <- for_each (range 1 n_cities)
               (fun i s => for_each (range 1 n_cities) (subtour_inner x u n_cities i) s)
               (c, 0%Z) ;;
        Ok (fst s)
    | RANDOMKEYS => Ok c
    | CITIES =>
        let range_ := map d_of_size (range 0 n_cities) in
        if (vec_size x <=? n_cities)%N then
          vec_set c 0
            (d_of_bool (negb (std_is_permutation x (firstn (length x) range_))))
        else Undefined
    end.
End TspCs.

Arguments tsp_cs D : clear implicits.
Arguments subsequence D : clear implicits.
Arguments fcs_state D : clear implicits.

(** ** The specification's notions: windows of a tour *)

Section Windows.
Context {D : Type} {ops : DoubleOps D}.

(** The city at the (cyclic) position [p] of the tour. *)
Definition city_at (self : tsp_cs D) (tour : list D) (p : N) : outcome N :=
  t <- vec_get tour (p mod m_n_cities self)%N ;;
  of_option (d_to_size t).

(** After the specification: the value of the window of the positions
    [l, l+1, ..., l+k] is the sum of [values[city]] over its cities. *)
Fixpoint spec_window_value (self : tsp_cs D) (tour : list D) (l : N) (k : nat)
  : outcome D :=
  match k with
  | O => c <- city_at self tour l ;; vec_get (m_values self) c
  | S k' =>
      a <- spec_window_value self tour l k' ;;
      c <- city_at self tour (l + N.of_nat k) ;;
      v <- vec_get (m_values self) c ;;
      Ok (d_add a v)
  end.

(** After the specification: the length of that window is the sum of the
    weights of the edges between its consecutive cities. *)
Fixpoint spec_window_length (self : tsp_cs D) (tour : list D) (l : N) (k : nat)
  : outcome D :=
  match k with
  | O => Ok d_zero
  | S k' =>
      a <- spec_window_length self tour l k' ;;
      w <- weight_at self tour ((l + N.of_nat k') mod m_n_cities self)%N
                               ((l + N.of_nat k) mod m_n_cities self)%N ;;
      Ok (d_add a w)
  end.

(** A window is feasible when its length is at most [m_max_path_length]. *)
Definition spec_feasible (self : tsp_cs D) (tour : list D) (l : N) (k : nat) : Prop :=
  exists len, spec_window_length self tour l k = Ok len
              /\ d_leb len (m_max_path_length self) = true.

(** The windows of a tour on [n] cities: a start [l < n] and [k < n] further
    positions. *)
Definition windows (n : N) : list (N * nat) :=
  list_prod (range 0 n) (seq 0 (N.to_nat n)).
End Windows.

(** ** Laws of the arithmetic *)

(** What the comparisons of doubles satisfy. [==] is symmetric and
    transitive, but not reflexive: a NaN differs from itself. *)
Class CompareLaws (D : Type) {ops : DoubleOps D} : Prop := {
  d_eqb_sym : forall a b : D, d_eqb a b = d_eqb b a;
  d_eqb_trans : forall a b c : D,
    d_eqb a b = true -> d_eqb b c = true -> d_eqb a c = true;
  d_zero_eqb_zero : d_eqb (d_zero : D) d_zero = true;
  d_one_eqb_zero : d_eqb (d_one : D) d_zero = false
}.

(** What holds of a sum of two non-negative numbers, of doubles (where the
    sum is rounded and may overflow to the infinity; a number that [0 <=]
    accepts is not a NaN) as of exact numbers: it is non-negative and not
    below its first term. *)
Class SumLaws (D : Type) {ops : DoubleOps D} : Prop := {
  d_leb_zero_zero : d_leb (d_zero : D) d_zero = true;
  d_add_nonneg : forall a b : D,
    d_leb d_zero a = true -> d_leb d_zero b = true ->
    d_leb d_zero (d_add a b) = true;
  d_leb_add_nonneg : forall a b : D,
    d_leb d_zero a = true -> d_leb d_zero b = true ->
    d_leb a (d_add a b) = true
}.

Arguments CompareLaws D {ops}.
Arguments SumLaws D {ops}.


(** ** Predicates on instances, tours and chromosomes *)

Section Predicates.
Context {D : Type} {ops : DoubleOps D}.

(** What [check_weights] asks of the cell [(i, j)]: zero on the diagonal,
    not zero elsewhere. *)
Definition cell_ok (i j : N) (v : D) : bool :=
  if (i =? j)%N then d_eqb v d_zero else negb (d_eqb v d_zero).

(** The matrix is square, its diagonal is zero and nothing else is. *)
Definition weights_ok (matrix : list (list D)) : Prop :=
  Forall (fun row => vec_size row = vec_size matrix) matrix
  /\ forall i j row v,
       nth_error matrix i = Some row -> nth_error row j = Some v ->
       cell_ok (N.of_nat i) (N.of_nat j) v = true.

(** The sizes of the members agree with [m_n_cities], as after either
    constructor. *)
Definition well_formed (self : tsp_cs D) : Prop :=
  vec_size (m_weights self) = m_n_cities self
  /\ Forall (fun row => vec_size row = m_n_cities self) (m_weights self)
  /\ vec_size (m_values self) = m_n_cities self.

(** Every entry of the tour converts to a city index below [n]. *)
Definition tour_in_range (n : N) (tour : list D) : Prop :=
  Forall (fun t => exists c, d_to_size t = Some c /\ (c < n)%N) tour.

(** The chromosome [x] is a permutation of [0, n): some arrangement [p] of
    the numbers [0, ..., n-1] equals [x] entry by entry. *)
Definition is_permutation_of_range (x : list D) (n : N) : Prop :=
  exists p : list N,
    Permutation p (range 0 n)
    /\ Forall2 (fun a k => d_eqb a (d_of_size k) = true) x p.

(** A call of a [const] method, on the instance and the output vector it
    is given by reference: the instance is handed back as it is. *)
Definition call_objfun
    (full2cities randomkeys2cities : tsp_cs D -> list D -> outcome (list D))
    (fuel : nat) (x : list D) (s : tsp_cs D * list D)
  : outcome (tsp_cs D * list D) :=
  f <- objfun_impl full2cities randomkeys2cities fuel (fst s) (snd s) x ;;
  Ok (fst s, f).

Definition call_constraints (x : list D) (s : tsp_cs D * list D)
  : outcome (tsp_cs D * list D) :=
  c <- compute_constraints_impl (fst s) (snd s) x ;;
  Ok (fst s, c).
End Predicates.

(** ** Two calls on two output vectors *)




(** ** Outcomes *)

(** What a call of [check_weights] can end in. *)
Definition check_weights_outcome (o : outcome unit) : Prop :=
  o = Ok tt
  \/ o = Throw (value_error "adjacency matrix is not square")
  \/ o = Throw (value_error "main diagonal elements must all be zeros.")
  \/ o = Throw (value_error "adjacency matrix contains zero values.").

(** An outcome that is neither an exception nor a failed assertion. *)
Definition quiet {A : Type} (o : outcome A) : Prop :=
  match o with
  | Throw _ | Abort => False
  | _ => True
  end.
(** ** The search in exact arithmetic: what its invariant speaks of *)

Section SegSumDef.
Local Open Scope Q_scope.
Variable f : N -> Q.

(** [f a + f (a+1) + ... ], [k] terms. *)
Fixpoint sum_from (a : N) (k : nat) : Q :=
  match k with
  | O => 0
  | S k' => sum_from a k' + f (a + N.of_nat k')
  end.

(** The sum of [f] over the positions [a, a+1, ..., b-1]. *)
Definition seg_sum (a b : N) : Q := sum_from a (N.to_nat (b - a)).
End SegSumDef.

Section ExactDefinitions.
Local Open Scope Q_scope.
Variable self : tsp_cs Q.
Variable tour : list Q.

(** The weight of the edge that leaves the (cyclic) position [p] of the
    tour, as the search reads it. *)
Definition edge (p : N) : Q :=
  match weight_at self tour (p mod m_n_cities self)%N ((p + 1) mod m_n_cities self)%N with
  | Ok w => w
  | _ => 0
  end.

(** The value that the search adds for the position [p]: the value stored
    at the index [p % n_cities]. *)
Definition pos_value (p : N) : Q :=
  match vec_get (m_values self) (p mod m_n_cities self)%N with
  | Ok v => v
  | _ => 0
  end.

(** [m_values[tour[0]]], the value the search starts from. *)
Definition first_value : Q :=
  match (t0 <- vec_get tour 0 ;; i0 <- of_option (d_to_size t0) ;;
         vec_get (m_values self) i0) with
  | Ok v => v
  | _ => 0
  end.

(** The length of the window of the positions [l, ..., r]. *)
Definition path_length (l r : N) : Q := seg_sum edge l r.

(** The value that the search computes for the window of the positions
    [l, ..., r]. *)
Definition code_value (l r : N) : Q :=
  first_value - pos_value 0 + seg_sum pos_value l (r + 1).

(** Weights and values are non-negative. *)
Definition nonnegative : Prop :=
  Forall (Forall (fun w => 0 <= w)) (m_weights self)
  /\ Forall (fun v => 0 <= v) (m_values self).

(** The invariant of the double loop, on a state [st] of the search under
    the budget [m_max_path_length self]: what holds of the pointers, the
    running sums and the best value. *)
Record search_core (st : fcs_state Q) : Prop := {
  inv_lr : (it_l st <= it_r st)%N;
  inv_rl : (it_r st <= it_l st + m_n_cities self)%N;
  inv_ln : (it_l st <= m_n_cities self)%N;
  inv_saved : saved_length st == m_max_path_length self - path_length (it_l st) (it_r st);
  inv_cum : cum_p st == code_value (it_l st) (it_r st);
  (* no window that starts left of [it_l] and reaches [it_r] is strictly
     within the budget *)
  inv_left : forall l', (l' < it_l st)%N ->
    m_max_path_length self <= path_length l' (it_r st);
  (* the best value bounds every window strictly within the budget that
     ends left of [it_r] *)
  inv_past : forall l' r',
    (l' < m_n_cities self)%N -> (l' <= r')%N -> (r' < it_r st)%N ->
    (r' < l' + m_n_cities self)%N ->
    path_length l' r' < m_max_path_length self ->
    code_value l' r' <= retval_p (retval st);
  inv_open : cond_r st = true ->
    (it_r st < it_l st + m_n_cities self)%N
    /\ code_value (it_l st) (it_r st) <= retval_p (retval st);
  inv_closed : cond_r st = false ->
    (it_r st = (it_l st + m_n_cities self)%N ->
       code_value (it_l st) (it_r st - 1) <= retval_p (retval st))
    /\ ((it_r st < it_l st + m_n_cities self)%N ->
          m_max_path_length self <= path_length (it_l st) (it_r st));
  inv_first : code_value 0 0 <= retval_p (retval st);
  (* the best value is the value of a window that was compared *)
  inv_best : exists bl br,
    (bl <= m_n_cities self)%N /\ (bl <= br)%N /\ (br < bl + m_n_cities self)%N
    /\ retval_p (retval st) == code_value bl br
    /\ retval_l (retval st) == m_max_path_length self - path_length bl br
    /\ (path_length bl br <= m_max_path_length self \/ (bl = 0%N /\ br = 0%N))
}.

(** With what [cond_l] tells: the left pointer is below [n_cities] while
    the outer loop runs; when it has ended, the left pointer is [n_cities],
    or the window is empty or has wrapped around. *)
Definition search_inv (st : fcs_state Q) : Prop :=
  search_core st
  /\ (cond_l st = true -> (it_l st < m_n_cities self)%N)
  /\ (cond_l st = false ->
      it_l st = m_n_cities self
      \/ (cond_r st = false
          /\ (it_r st = it_l st \/ it_r st = (it_l st + m_n_cities self)%N))).
End ExactDefinitions.

(** Two states with the same pointers and flags and equal numbers. *)
Definition state_eqv (a b : fcs_state Q) : Prop :=
  it_l a = it_l b /\ it_r a = it_r b /\ cond_r a = cond_r b /\ cond_l a = cond_l b
  /\ cum_p a == cum_p b /\ saved_length a == saved_length b
  /\ retval_p (retval a) == retval_p (retval b)
  /\ retval_l (retval a) == retval_l (retval b)
  /\ retval_it_l (retval a) = retval_it_l (retval b)
  /\ retval_it_r (retval a) = retval_it_r (retval b).

(** ** The other methods of [tsp_cs] *)

(** *** [tsp_cs::compute_dimensions]

    The two dimensions are computed on [size_t] and stored in an
    [boost::array<int, 2>]. *)
Definition compute_dimensions (n_cities : N) (encoding : encoding_type) : Z * Z :=
  match encoding with
  | FULL =>
      (int_of_size (SizeT.add (SizeT.mul n_cities (SizeT.sub n_cities 1)) 2),
       int_of_size (SizeT.mul (SizeT.sub n_cities 1) (SizeT.sub n_cities 2)))
  | RANDOMKEYS => (0, 0)%Z
  | CITIES => (1, 0)%Z
  end.

(** *** [tsp_cs::tsp_cs(weights, values, max_path_length, encoding)], in full

    The constructor first runs the initializer of its base class, on the
    number of cities, the two dimensions and the encoding.  The class
    [base_tsp] is not part of these sources: its constructor is the
    parameter [base_tsp], which returns or fails.  The member initializers
    and the body, [make_tsp_cs], run only when it has returned. *)
Definition construct_tsp_cs {D : Type} {ops : DoubleOps D}
    (base_tsp : N -> Z -> Z -> encoding_type -> outcome unit)
    (weights : list (list D)) (values : list D)
    (max_path_length : D) (encoding : encoding_type) : outcome (tsp_cs D) :=
  _ <- base_tsp (vec_size weights)
         (fst (compute_dimensions (vec_size weights) encoding))
         (snd (compute_dimensions (vec_size weights) encoding))
         encoding ;;
  make_tsp_cs weights values max_path_length encoding.

Section Accessors.
Context {D : Type} {ops : DoubleOps D}.

(** *** [tsp_cs::distance]: [m_weights[i][j]] *)
Definition distance (self : tsp_cs D) (i j : N) : outcome D :=
  row <- vec_get (m_weights self) i ;;
  vec_get row j.

(** *** [tsp_cs::get_weights], [get_values], [get_max_path_length] *)
Definition get_weights (self : tsp_cs D) : list (list D) := m_weights self.
Definition get_values (self : tsp_cs D) : list D := m_values self.
Definition get_max_path_length (self : tsp_cs D) : D := m_max_path_length self.

(** *** [tsp_cs::clone]: a copy of the object *)
Definition clone (self : tsp_cs D) : tsp_cs D := {|
  m_n_cities := m_n_cities self;
  m_encoding := m_encoding self;
  m_weights := m_weights self;
  m_values := m_values self;
  m_max_path_length := m_max_path_length self;
  m_min_value := m_min_value self
|}.
End Accessors.

(** *** [tsp_cs::get_name] *)
Definition get_name : string := "City-selection Travelling Salesman Problem (TSP-CS)".

(** *** [tsp_cs::human_readable_extra] *)

Definition tab : string := String "009"%char EmptyString.
Definition nl : string := String "010"%char EmptyString.

Section HumanReadable.
Context {D : Type} {ops : DoubleOps D}.
Local Open Scope string_scope.

(** The stream inserters of the library, for a [size_t], a [double] and a
    vector of doubles. *)
Variable show_size : N -> string.
Variable show_double : D -> string.
Variable show_vector : list D -> string.

Definition show_encoding (e : encoding_type) : string :=
  match e with
  | FULL => "FULL"
  | RANDOMKEYS => "RANDOMKEYS"
  | CITIES => "CITIES"
  end.

(** What is written before the loop on the rows of the matrix. *)
Definition human_readable_header (self : tsp_cs D) : string :=
  let oss := nl ++ tab ++ "Number of cities: " ++ show_size (m_n_cities self) ++ nl in
  let oss := oss ++ tab ++ "Encoding: " in
  let oss := oss ++ show_encoding (m_encoding self) ++ nl in
  let oss := oss ++ tab ++ "Cities Values: " ++ show_vector (m_values self) ++ nl in
  let oss := oss ++ tab ++ "Max path length: " ++ show_double (m_max_path_length self) ++ nl in
  oss ++ tab ++ "Weight Matrix: " ++ nl.

(** One line of the matrix. *)
Definition weight_line (row : list D) : string :=
  tab ++ tab ++ show_vector row ++ nl.

(** The lines of the rows [rows], one after the other. *)
Definition weight_lines (rows : list (list D)) : string :=
  String.concat EmptyString (map weight_line rows).

(** The loop on the rows [idxs], with its [break]. *)
Fixpoint weight_rows (self : tsp_cs D) (idxs : list N) (oss : string) : outcome string :=
  match idxs with
  | [] => Ok oss
  | i :: idxs' =>
      row <- vec_at (m_weights self) i ;;
      let oss := oss ++ weight_line row in
      if (5 <? i)%N then Ok (oss ++ tab ++ tab ++ "..." ++ nl)
      else weight_rows self idxs' oss
  end.

Definition human_readable_extra (self : tsp_cs D) : outcome string :=
  weight_rows self (range 0 (m_n_cities self)) (human_readable_header self).
End HumanReadable.

(** ** The FULL constraints, entry by entry *)

Section FullEntries.
Context {D : Type} {ops : DoubleOps D}.

(** [i * (n - 1) + j - (j > i ? 1 : 0)], on numbers without bound. *)
Definition arc_index (i j n : N) : N :=
  (i * (n - 1) + j - (if (i <? j)%N then 1 else 0))%N.

(** [x[compute_idx(i, j, n)]], the variable of the arc from [i] to [j]. *)
Definition arc (x : list D) (n i j : N) : D :=
  nth (N.to_nat (arc_index i j n)) x d_zero.

(** The variables of the arcs that leave the city [i], added up in the
    order of the loop, from zero. *)
Definition out_degree (x : list D) (n i : N) : D :=
  fold_left (fun a j => if (i =? j)%N then a else d_add a (arc x n i j))
            (range 0 n) d_zero.

(** The variables of the arcs that enter the city [i]. *)
Definition in_degree (x : list D) (n i : N) : D :=
  fold_left (fun a j => if (i =? j)%N then a else d_add a (arc x n j i))
            (range 0 n) d_zero.

(** The loop that computes the vector [u], on [(u, next_city, current_city)]. *)
Definition ranks (x : list D) (n : N) : outcome (list Z * N * N) :=
  for_each (range 0 n) (rank_step x n) (repeat 0%Z (N.to_nat n), 0%N, 0%N).

(** The pairs [(i, j)] of the last two loops, in their order. *)
Definition arc_pairs (n : N) : list (N * N) :=
  filter (fun p => negb (fst p =? snd p)%N) (list_prod (range 1 n) (range 1 n)).

(** [u[i] - u[j] + (n_cities + 1) * x[compute_idx(i, j, n_cities)] - n_cities] *)
Definition subtour_entry (x : list D) (u : list Z) (n : N) (p : N * N) : D :=
  d_sub (d_add (d_of_Z (nth (N.to_nat (fst p)) u 0%Z - nth (N.to_nat (snd p)) u 0%Z))
               (d_mul (d_of_size (n + 1)) (arc x n (fst p) (snd p))))
        (d_of_size n).

(** The constraint vector of the chromosome [x], with the vector [u]. *)
Definition full_constraints (x : list D) (u : list Z) (n : N) : list D :=
  map (fun i => d_sub (out_degree x n i) d_one) (range 0 n)
  ++ map (fun i => d_sub (in_degree x n i) d_one) (range 0 n)
  ++ map (subtour_entry x u n) (arc_pairs n).

(** What the loop on [i] keeps of [(u, next_city, current_city)]. *)
Definition ranks_inv (n : N) (s : list Z * N * N) : Prop :=
  let '(u, next_city, current_city) := s in
  length u = N.to_nat n
  /\ (next_city < n)%N /\ (current_city < n)%N
  /\ Forall (fun z => 0 <= z <= Z.of_N n)%Z u.

(** [c[i] = a; c[k] = b] *)
Definition set2 (c : list D) (i k : N) (a b : D) : list D :=
  list_set (list_set c (N.to_nat i) a) (N.to_nat k) b.
End FullEntries.

(** ** Tours and their chromosomes *)

(** The position after [k] on a tour of [n] cities, which comes back to
    its start. *)
Definition next_pos (n k : nat) : nat := if (S k =? n)%nat then O else S k.

(** [t] is a tour of the [n] cities from the city 0. *)
Definition is_tour (n : N) (t : list N) : Prop :=
  NoDup t /\ length t = N.to_nat n /\ (forall i, In i t -> (i < n)%N)
  /\ nth 0 t 0%N = 0%N.

(** [x] is the chromosome of the tour [t]: the variable of an arc is 1
    when the arc goes from a city to the next city of the tour, and 0
    when it does not. *)
Definition encodes_tour (x : list Q) (n : N) (t : list N) : Prop :=
  forall (k : nat) (j : N),
    (k < length t)%nat -> (j < n)%N -> j <> nth k t 0%N ->
    (arc x n (nth k t 0%N) j
     == if (j =? nth (next_pos (length t) k) t 0%N)%N then 1 else 0)%Q.

(** The position before [k]. *)
Definition prev_pos (n k : nat) : nat :=
  match k with
  | O => (n - 1)%nat
  | S k' => k'
  end.


(** The tour [0, 1, ..., n - 1]. *)
Definition identity_tour (n : N) (tour : list Q) : Prop :=
  vec_size tour = n
  /\ forall (p : nat) (t : Q), nth_error tour p = Some t -> d_to_size t = Some (N.of_nat p).


(** ** Concrete instances *)

Section Instances.
Local Open Scope float_scope.

(** The weights of the default instance: every edge has weight 1. *)
Definition unit_weights : list (list float) :=
  [[0; 1; 1]; [1; 0; 1]; [1; 1; 0]].

(** Three cities with the weights of the default instance, as the
    constructor builds them under the CITIES encoding; it stores the first
    value in [m_min_value]. *)
Definition triangle (v0 v1 v2 budget : float) : tsp_cs float := {|
  m_n_cities := 3;
  m_encoding := CITIES;
  m_weights := unit_weights;
  m_values := [v0; v1; v2];
  m_max_path_length := budget;
  m_min_value := v0
|}.

(** The data of the default instance, under the CITIES encoding. *)
Definition default_cities : tsp_cs float := triangle 1 1 1 1.

(** Three cities, the values 1, 1 and 5, budget 2; the window of the
    cities 1 and 2 has length exactly 2. *)
Definition three_cities : tsp_cs float := {|
  m_n_cities := 3;
  m_encoding := CITIES;
  m_weights := [[0; 1; 1]; [1; 0; 2]; [3; 1; 0]];
  m_values := [1; 1; 5];
  m_max_path_length := 2;
  m_min_value := 1
|}.

(** The default instance under the FULL encoding. *)
Definition default_full : tsp_cs float := {|
  m_n_cities := 3;
  m_encoding := FULL;
  m_weights := unit_weights;
  m_values := [1; 1; 1];
  m_max_path_length := 1;
  m_min_value := 1
|}.

Definition nan_weights : list (list float) :=
  [[0; nan; 1]; [1; 0; 1]; [1; 1; 0]].

Definition negative_weights : list (list float) :=
  [[0; -1; 1]; [1; 0; 1]; [1; 1; 0]].

(** Three cities on these weights. *)
Definition negative_cities : tsp_cs float := {|
  m_n_cities := 3;
  m_encoding := CITIES;
  m_weights := negative_weights;
  m_values := [1; 1; 1];
  m_max_path_length := 1;
  m_min_value := 1
|}.
End Instances.

(** Two cities at distance 1, over the rationals. *)
Definition two_cities_budget (budget : Q) : tsp_cs Q := {|
  m_n_cities := 2;
  m_encoding := CITIES;
  m_weights := [[0; 1]; [1; 0]]%Q;
  m_values := [1; 2]%Q;
  m_max_path_length := budget;
  m_min_value := 1%Q
|}.

Definition two_cities_exact : tsp_cs Q := two_cities_budget 1.

(** The data of the default instance under the FULL encoding, over the
    rationals. *)
Definition default_full_exact : tsp_cs Q := {|
  m_n_cities := 3;
  m_encoding := FULL;
  m_weights := [[0; 1; 1]; [1; 0; 1]; [1; 1; 0]]%Q;
  m_values := [1; 1; 1]%Q;
  m_max_path_length := 1%Q;
  m_min_value := 1%Q
|}.

(** ** The laws hold of binary64 and of the rationals *)

Lemma SFeqb_sym (a b : spec_float) : SFeqb a b = SFeqb b a.
Proof.
  unfold SFeqb.
  destruct a as [sa|sa| |sa ma ea], b as [sb|sb| |sb mb eb]; simpl; try reflexivity;
    try (destruct sa; reflexivity); try (destruct sb; reflexivity);
    try (destruct sa, sb; reflexivity).
  rewrite (Z.compare_antisym ea eb).
  rewrite !Pos.compare_cont_spec. simpl.
  rewrite (Pos.compare_antisym ma mb).
  destruct sa, sb; try reflexivity;
    destruct (ea ?= eb)%Z; simpl; try reflexivity;
    destruct (ma ?= mb)%positive; reflexivity.
Qed.

Lemma SFeqb_true (a b : spec_float) :
  SFeqb a b = true ->
  (exists s s', a = S754_zero s /\ b = S754_zero s')
  \/ (a = b /\ a <> S754_nan).
Proof.
  unfold SFeqb.
  destruct a as [sa|sa| |sa ma ea], b as [sb|sb| |sb mb eb]; simpl; try discriminate;
    try (destruct sa; discriminate); try (destruct sb; discriminate).
  - intros _. left. eauto.
  - destruct sa, sb; try discriminate; intros _; right; split; congruence.
  - rewrite !Pos.compare_cont_spec. simpl.
    destruct sa, sb; try discriminate;
      destruct (Z.compare_spec ea eb); simpl; try discriminate;
      destruct (Pos.compare_spec ma mb); simpl; try discriminate;
      intros _; right; split; congruence.
Qed.

Lemma SFeqb_refl (a : spec_float) : a <> S754_nan -> SFeqb a a = true.
Proof.
  unfold SFeqb. destruct a as [s|s| |s m e]; simpl; try reflexivity.
  - destruct s; reflexivity.
  - congruence.
  - rewrite Z.compare_refl, Pos.compare_cont_spec, Pos.compare_refl.
    destruct s; reflexivity.
Qed.

Lemma SFeqb_trans (a b c : spec_float) :
  SFeqb a b = true -> SFeqb b c = true -> SFeqb a c = true.
Proof.
  intros Hab Hbc.
  destruct (SFeqb_true _ _ Hab) as [(s & s' & -> & ->)|[-> Hn]].
  - destruct (SFeqb_true _ _ Hbc) as [(t & t' & _ & ->)|[<- _]]; reflexivity.
  - exact Hbc.
Qed.

#[export] Instance binary64_compare : CompareLaws float.
Proof.
  split.
  - intros a b. simpl. rewrite !eqb_spec. apply SFeqb_sym.
  - intros a b c. simpl. rewrite !eqb_spec. apply SFeqb_trans.
  - reflexivity.
  - reflexivity.
Qed.

#[export] Instance rational_compare : CompareLaws Q.
Proof.
  split.
  - intros a b. simpl.
    destruct (Qeq_bool a b) eqn:E1, (Qeq_bool b a) eqn:E2; try reflexivity.
    + apply Qeq_bool_iff in E1. symmetry in E1. apply Qeq_bool_iff in E1. congruence.
    + apply Qeq_bool_iff in E2. symmetry in E2. apply Qeq_bool_iff in E2. congruence.
  - intros a b c. simpl. rewrite !Qeq_bool_iff. intros -> ->. reflexivity.
  - reflexivity.
  - reflexivity.
Qed.

#[export] Instance rational_sums : SumLaws Q.
Proof.
  split.
  - reflexivity.
  - intros a b Ha Hb. apply Qle_bool_iff in Ha, Hb. apply Qle_bool_iff.
    change (0 <= a)%Q in Ha. change (0 <= b)%Q in Hb. change (0 <= a + b)%Q. lra.
  - intros a b Ha Hb. apply Qle_bool_iff in Ha, Hb. apply Qle_bool_iff.
    change (0 <= a)%Q in Ha. change (0 <= b)%Q in Hb. change (a <= a + b)%Q. lra.
Qed.

(** ** Sums of non-negative binary64 numbers *)

Section RoundedSums.
Local Open Scope Z_scope.

Lemma digits2_pos_bounds (p : positive) :
  2 ^ (Zpos (digits2_pos p) - 1) <= Zpos p < 2 ^ Zpos (digits2_pos p).
Proof.
  induction p as [p IH|p IH|]; cbn [digits2_pos].
  - rewrite Pos2Z.inj_succ.
    replace (Z.succ (Zpos (digits2_pos p)) - 1) with (Z.succ (Zpos (digits2_pos p) - 1)) by lia.
    rewrite !Z.pow_succ_r by lia. lia.
  - rewrite Pos2Z.inj_succ.
    replace (Z.succ (Zpos (digits2_pos p)) - 1) with (Z.succ (Zpos (digits2_pos p) - 1)) by lia.
    rewrite !Z.pow_succ_r by lia. lia.
  - cbn. lia.
Qed.

Lemma shr_1_m (r : shr_record) : 0 <= shr_m r -> shr_m (shr_1 r) = shr_m r / 2.
Proof.
  destruct r as [m r s]. cbn [shr_m]. intros Hm.
  destruct m as [|[p|p|]|p]; cbn [shr_1 shr_m]; try lia; try reflexivity.
  - rewrite Pos2Z.inj_xI. apply Z.div_unique with (r := 1); lia.
  - rewrite Pos2Z.inj_xO. apply Z.div_unique with (r := 0); lia.
Qed.

Lemma iter_shr_1_m (p : positive) :
  forall r, 0 <= shr_m r -> shr_m (iter_pos shr_1 p r) = shr_m r / 2 ^ Zpos p.
Proof.
  induction p as [p IH|p IH|]; intros r Hr; cbn [iter_pos].
  - assert (H1 : 0 <= shr_m (shr_1 r)) by (rewrite shr_1_m by exact Hr; apply Z.div_pos; lia).
    assert (H2 : 0 <= shr_m (iter_pos shr_1 p (shr_1 r)))
      by (rewrite IH by exact H1; apply Z.div_pos; [exact H1|apply Z.pow_pos_nonneg; lia]).
    rewrite IH by exact H2. rewrite IH by exact H1. rewrite shr_1_m by exact Hr.
    rewrite !Z.div_div by (try apply Z.pow_pos_nonneg; lia).
    f_equal. replace (Zpos p~1) with (1 + Zpos p + Zpos p) by lia.
    rewrite !Z.pow_add_r by lia. rewrite Z.pow_1_r. lia.
  - assert (H2 : 0 <= shr_m (iter_pos shr_1 p r))
      by (rewrite IH by exact Hr; apply Z.div_pos; [exact Hr|apply Z.pow_pos_nonneg; lia]).
    rewrite IH by exact H2. rewrite IH by exact Hr.
    rewrite !Z.div_div by (try apply Z.pow_pos_nonneg; lia).
    f_equal. replace (Zpos p~0) with (Zpos p + Zpos p) by lia.
    rewrite Z.pow_add_r by lia. reflexivity.
  - rewrite shr_1_m by exact Hr. reflexivity.
Qed.

(** The mantissa and the exponent that [shr] leaves. *)
Lemma shr_m_e (m e n : Z) :
  0 <= m -> 0 <= n ->
  shr_m (fst (shr (shr_record_of_loc m loc_Exact) e n)) = m / 2 ^ n
  /\ snd (shr (shr_record_of_loc m loc_Exact) e n) = e + n.
Proof.
  intros Hm Hn. destruct n as [|p|p]; cbn [shr fst snd shr_record_of_loc]; try lia.
  - cbn [shr_m]. rewrite Z.pow_0_r, Z.div_1_r. lia.
  - rewrite iter_shr_1_m by exact Hm. cbn [shr_m]. split; reflexivity.
Qed.

Lemma round_nearest_even_ge (m : Z) (l : location) : m <= round_nearest_even m l.
Proof.
  destruct l as [|[| |]]; cbn [round_nearest_even]; try lia.
  destruct (Z.even m); lia.
Qed.

Lemma iter_xO (d m : positive) : Zpos (Pos.iter xO m d) = Zpos m * 2 ^ Zpos d.
Proof.
  induction d as [|d IH] using Pos.peano_ind.
  - cbn. lia.
  - rewrite Pos.iter_succ, Pos2Z.inj_xO, IH, Pos2Z.inj_succ, Z.pow_succ_r by lia. lia.
Qed.

Lemma shl_align_m (m : positive) (e e' : Z) :
  e' <= e -> Zpos (fst (shl_align m e e')) = Zpos m * 2 ^ (e - e').
Proof.
  intros He. unfold shl_align. destruct (e' - e) as [|d|d] eqn:Ed; cbn [fst]; try lia.
  - replace (e - e') with 0 by lia. lia.
  - rewrite iter_xO. f_equal. f_equal. lia.
Qed.

Lemma fexp_eq (e : Z) : fexp prec emax e = Z.max (e - 53) (-1074).
Proof. reflexivity. Qed.

Lemma bounded_inv (m : positive) (e : Z) :
  bounded prec emax m e = true ->
  e = Z.max (Zpos (digits2_pos m) + e - 53) (-1074) /\ e <= 971.
Proof.
  unfold bounded, canonical_mantissa. rewrite fexp_eq. intros H.
  apply andb_prop in H. destruct H as [H1 H2].
  apply Z.eqb_eq in H1. apply Z.leb_le in H2. change (emax - prec) with 971 in H2.
  split; [symmetry; exact H1|exact H2].
Qed.

Lemma shr_nonpos (r : shr_record) (e n : Z) : n <= 0 -> shr r e n = (r, e).
Proof. intros Hn. destruct n as [|p|p]; [reflexivity|lia|reflexivity]. Qed.

Lemma div_pow2_lower (M k j : Z) :
  0 <= k -> 0 <= j -> 2 ^ (j + k) <= M -> 2 ^ j <= M / 2 ^ k.
Proof.
  intros Hk Hj H. apply Z.div_le_lower_bound; [apply Z.pow_pos_nonneg; lia|].
  rewrite <- Z.pow_add_r by lia. rewrite Z.add_comm. exact H.
Qed.

(** Rounding a positive number [M 2^ez] that is at least the binary64
    number [mx 2^ex] gives an infinity or a number that is at least
    [mx 2^ex]. *)
Lemma binary_round_aux_ge (M : positive) (ez : Z) (mx : positive) (ex : Z) :
  bounded prec emax mx ex = true ->
  -1074 <= ez <= ex ->
  Zpos mx * 2 ^ (ex - ez) <= Zpos M ->
  binary_round_aux prec emax false (Zpos M) ez loc_Exact = S754_infinity false
  \/ exists m e, binary_round_aux prec emax false (Zpos M) ez loc_Exact
                 = S754_finite false m e
                 /\ (ex < e \/ (e = ex /\ (mx <= m)%positive)).
Proof.
  intros Hb Hez HM. destruct (bounded_inv mx ex Hb) as [Hex _].
  pose proof (digits2_pos_bounds mx) as Dx.
  pose proof (digits2_pos_bounds M) as DM.
  set (dx := Zpos (digits2_pos mx)) in *. set (dM := Zpos (digits2_pos M)) in *.
  assert (Hdx : 0 < dx) by (unfold dx; lia).
  assert (HdM : 0 < dM) by (unfold dM; lia).
  (* the number of digits of M *)
  assert (Hd : dx + ex - ez <= dM).
  { assert (H : 2 ^ (dx - 1 + (ex - ez)) < 2 ^ dM).
    { rewrite Z.pow_add_r by lia.
      apply Z.le_lt_trans with (Zpos M); [|apply DM].
      apply Z.le_trans with (Zpos mx * 2 ^ (ex - ez)); [|exact HM].
      apply Z.mul_le_mono_nonneg_r; [apply Z.pow_nonneg; lia|apply Dx]. }
    apply Z.pow_lt_mono_r_iff in H; lia. }
  set (E1 := Z.max (dM + ez - 53) (-1074)).
  assert (HE1 : ex <= E1) by (unfold E1; lia).
  unfold binary_round_aux.
  (* the first shift *)
  destruct (shr_fexp prec emax (Zpos M) ez loc_Exact) as [mrs' e'] eqn:S1.
  assert (H1 : shr_m mrs' = Zpos M / 2 ^ (E1 - ez) /\ e' = E1).
  { unfold shr_fexp in S1. cbn [Zdigits2] in S1. fold dM in S1.
    rewrite fexp_eq in S1. fold E1 in S1.
    destruct (shr_m_e (Zpos M) ez (E1 - ez)) as [A B]; try lia.
    rewrite S1 in A, B. cbn [fst snd] in A, B. split; [exact A|lia]. }
  destruct H1 as [Hm' ->].
  assert (Hpos : 1 <= shr_m mrs').
  { rewrite Hm'. destruct (Z.eq_dec E1 ez) as [->|Hne].
    - rewrite Z.sub_diag, Z.pow_0_r, Z.div_1_r. lia.
    - apply Z.le_trans with (2 ^ 52); [lia|].
      apply div_pow2_lower; try lia.
      replace (52 + (E1 - ez)) with (dM - 1) by (unfold E1 in *; lia). apply DM. }
  assert (Hge : E1 = ex -> Zpos mx <= shr_m mrs').
  { intros ->. rewrite Hm'.
    apply Z.div_le_lower_bound; [apply Z.pow_pos_nonneg; lia|]. lia. }
  pose proof (round_nearest_even_ge (shr_m mrs') (loc_of_shr_record mrs')) as Hr.
  destruct (round_nearest_even (shr_m mrs') (loc_of_shr_record mrs')) as [|q|q] eqn:Eq;
    try lia.
  (* the second shift *)
  pose proof (digits2_pos_bounds q) as Dq. set (dq := Zpos (digits2_pos q)) in *.
  destruct (shr_fexp prec emax (Zpos q) E1 loc_Exact) as [mrs'' e''] eqn:S2.
  unfold shr_fexp in S2. cbn [Zdigits2] in S2. fold dq in S2. rewrite fexp_eq in S2.
  destruct (Z_le_gt_dec (Z.max (dq + E1 - 53) (-1074) - E1) 0) as [Hn2|Hn2].
  - rewrite shr_nonpos in S2 by exact Hn2. injection S2 as <- <-.
    cbn [shr_record_of_loc shr_m].
    destruct (E1 <=? emax - prec); [|left; reflexivity].
    right. exists q, E1. split; [reflexivity|].
    destruct (Z.eq_dec E1 ex) as [He|He]; [|left; lia].
    right. split; [exact He|]. specialize (Hge He). lia.
  - destruct (shr_m_e (Zpos q) E1 (Z.max (dq + E1 - 53) (-1074) - E1)) as [A B]; try lia.
    rewrite S2 in A, B. cbn [fst snd] in A, B.
    assert (Hq : 2 ^ 52 <= shr_m mrs'').
    { rewrite A. apply div_pow2_lower; try lia.
      replace (52 + (Z.max (dq + E1 - 53) (-1074) - E1)) with (dq - 1)
        by (unfold E1 in *; lia).
      apply Dq. }
    destruct (shr_m mrs'') as [|q2|q2]; try lia.
    destruct (e'' <=? emax - prec); [|left; reflexivity].
    right. exists q2, e''. split; [reflexivity|]. left. lia.
Qed.

Lemma binary_round_ge (M : positive) (ez : Z) (mx : positive) (ex : Z) :
  bounded prec emax mx ex = true ->
  -1074 <= ez <= ex ->
  Zpos mx * 2 ^ (ex - ez) <= Zpos M ->
  binary_round prec emax false M ez = S754_infinity false
  \/ exists m e, binary_round prec emax false M ez = S754_finite false m e
                 /\ (ex < e \/ (e = ex /\ (mx <= m)%positive)).
Proof.
  intros Hb Hez HM. destruct (bounded_inv mx ex Hb) as [Hex _].
  pose proof (digits2_pos_bounds mx) as Dx.
  pose proof (digits2_pos_bounds M) as DM.
  set (dx := Zpos (digits2_pos mx)) in *. set (dM := Zpos (digits2_pos M)) in *.
  assert (Hd : dx + ex - ez <= dM).
  { assert (H : 2 ^ (dx - 1 + (ex - ez)) < 2 ^ dM).
    { rewrite Z.pow_add_r by (unfold dx; lia).
      apply Z.le_lt_trans with (Zpos M); [|apply DM].
      apply Z.le_trans with (Zpos mx * 2 ^ (ex - ez)); [|exact HM].
      apply Z.mul_le_mono_nonneg_r; [apply Z.pow_nonneg; lia|apply Dx]. }
    apply Z.pow_lt_mono_r_iff in H; unfold dx, dM in *; lia. }
  unfold binary_round. fold dM. rewrite fexp_eq. unfold shl_align.
  destruct (Z.max (dM + ez - 53) (-1074) - ez) as [|n|n] eqn:En; try lia;
    apply (binary_round_aux_ge M ez mx ex Hb Hez HM).
Qed.

Lemma SFleb_zero_inv (x : spec_float) :
  SFleb (S754_zero false) x = true ->
  (exists s, x = S754_zero s) \/ x = S754_infinity false
  \/ exists m e, x = S754_finite false m e.
Proof.
  destruct x as [s|[|]| |[|] m e]; cbn; try discriminate; intros _.
  - left. exists s. reflexivity.
  - right. left. reflexivity.
  - right. right. exists m, e. reflexivity.
Qed.

Lemma SFleb_finite_refl (m : positive) (e : Z) :
  SFleb (S754_finite false m e) (S754_finite false m e) = true.
Proof.
  unfold SFleb, SFcompare. rewrite Z.compare_refl, Pos.compare_cont_refl. reflexivity.
Qed.

(** Adding a non-negative binary64 number to a non-negative one gives a
    number that is non-negative and not below the first: the sum may be
    rounded, or overflow to the infinity, but never downwards past a term. *)
Lemma SFadd_nonneg (x y : spec_float) :
  valid_binary x = true -> valid_binary y = true ->
  SFleb (S754_zero false) x = true -> SFleb (S754_zero false) y = true ->
  SFleb x (SFadd prec emax x y) = true
  /\ SFleb (S754_zero false) (SFadd prec emax x y) = true.
Proof.
  intros Vx Vy Hx Hy.
  destruct (SFleb_zero_inv x Hx) as [[sx ->]|[->|(mx & ex & ->)]];
    destruct (SFleb_zero_inv y Hy) as [[sy ->]|[->|(my & ey & ->)]];
    try (split; reflexivity).
  - destruct sx, sy; split; reflexivity.
  - split; [apply SFleb_finite_refl|reflexivity].
  - cbn [valid_binary] in Vx, Vy.
    destruct (bounded_inv mx ex Vx) as [Hex _].
    destruct (bounded_inv my ey Vy) as [Hey _].
    unfold SFadd. cbn [cond_Zopp Z.add binary_normalize].
    destruct (binary_round_ge
                (fst (shl_align mx ex (Z.min ex ey)) + fst (shl_align my ey (Z.min ex ey)))
                (Z.min ex ey) mx ex Vx) as [->|(m & e & -> & Hme)].
    + lia.
    + rewrite Pos2Z.inj_add, shl_align_m by lia. lia.
    + split; reflexivity.
    + split; [|reflexivity]. unfold SFleb, SFcompare.
      destruct Hme as [Hlt|[-> Hle]].
      * apply Z.compare_lt_iff in Hlt. rewrite Hlt. reflexivity.
      * rewrite Z.compare_refl, Pos.compare_cont_spec. cbn [Pos.switch_Eq].
        apply Pos.compare_le_iff in Hle.
        destruct (mx ?= m)%positive; [reflexivity|reflexivity|contradiction].
Qed.
End RoundedSums.

Lemma float_add_nonneg (a b : float) :
  (0 <=? a)%float = true -> (0 <=? b)%float = true ->
  (a <=? a + b)%float = true /\ (0 <=? a + b)%float = true.
Proof.
  rewrite !leb_spec, add_spec. change (Prim2SF 0) with (S754_zero false).
  apply SFadd_nonneg; apply Prim2SF_valid.
Qed.

#[export] Instance binary64_sums : SumLaws float.
Proof.
  split.
  - reflexivity.
  - intros a b Ha Hb. apply (float_add_nonneg a b Ha Hb).
  - intros a b Ha Hb. apply (float_add_nonneg a b Ha Hb).
Qed.

(** ** Outcomes, loops and vectors *)

Lemma bind_ok {A B : Type} (m : outcome A) (k : A -> outcome B) (b : B) :
  bind m k = Ok b <-> exists a, m = Ok a /\ k a = Ok b.
Proof.
  split.
  - destruct m; simpl; try discriminate. intros H. exists a. split; [reflexivity|exact H].
  - intros (a & -> & H). exact H.
Qed.

Lemma for_each_unit {A : Type} (xs : list A) (body : A -> unit -> outcome unit) :
  for_each xs body tt = Ok tt <-> forall x, In x xs -> body x tt = Ok tt.
Proof.
  induction xs as [|x xs IH]; simpl.
  - split; [intros _ y []|reflexivity].
  - rewrite bind_ok. split.
    + intros ([] & Hx & Hxs) y [<-|Hy]; [exact Hx|]. apply IH; assumption.
    + intros H. exists tt. split; [apply H; left; reflexivity|].
      apply IH. intros y Hy. apply H. right. exact Hy.
Qed.

Lemma range_In (lo hi i : N) : In i (range lo hi) <-> (lo <= i < hi)%N.
Proof.
  unfold range. rewrite in_map_iff. split.
  - intros (k & <- & Hk). apply in_seq in Hk. lia.
  - intros H. exists (N.to_nat i). split; [apply N2Nat.id|]. apply in_seq. lia.
Qed.

Lemma vec_get_ok {A : Type} (v : list A) (i : N) :
  (i < vec_size v)%N -> exists a, vec_get v i = Ok a /\ nth_error v (N.to_nat i) = Some a.
Proof.
  intros H. unfold vec_get, vec_size in *.
  destruct (nth_error v (N.to_nat i)) as [a|] eqn:E.
  - exists a. split; reflexivity.
  - apply nth_error_None in E. lia.
Qed.

Lemma vec_get_inv {A : Type} (v : list A) (i : N) (a : A) :
  vec_get v i = Ok a <-> nth_error v (N.to_nat i) = Some a.
Proof.
  unfold vec_get. destruct (nth_error v (N.to_nat i)); simpl; split; congruence.
Qed.

Lemma vec_at_inv {A : Type} (v : list A) (i : N) (a : A) :
  vec_at v i = Ok a <-> nth_error v (N.to_nat i) = Some a.
Proof.
  unfold vec_at. destruct (nth_error v (N.to_nat i)); simpl; split; congruence.
Qed.

Lemma nth_error_lt {A : Type} (v : list A) (i : nat) (a : A) :
  nth_error v i = Some a -> (N.of_nat i < vec_size v)%N.
Proof.
  intros H. assert (i < length v)%nat by (apply nth_error_Some; congruence).
  unfold vec_size. lia.
Qed.

Section CheckWeights.
Context {D : Type} {ops : DoubleOps D}.

Lemma check_cell_ok (i j : N) (v : D) :
  check_cell i j v = Ok tt -> cell_ok i j v = true.
Proof.
  unfold check_cell, cell_ok, d_not, d_neb.
  destruct (i =? j)%N; simpl.
  - destruct (d_eqb v d_zero); simpl; [reflexivity|discriminate].
  - destruct (d_eqb v d_zero); simpl; [discriminate|reflexivity].
Qed.

Lemma cell_ok_check `{!CompareLaws D} (i j : N) (v : D) :
  cell_ok i j v = true -> check_cell i j v = Ok tt.
Proof.
  unfold check_cell, cell_ok, d_not, d_neb.
  destruct (i =? j)%N; simpl.
  - intros ->. reflexivity.
  - destruct (d_eqb v d_zero) eqn:E; simpl; [discriminate|].
    intros _. unfold d_of_bool. simpl. fold (@d_zero D ops).
    rewrite d_eqb_sym, E. reflexivity.
Qed.

Lemma check_row_ok (matrix : list (list D)) (i : nat) (row : list D) :
  nth_error matrix i = Some row ->
  check_row matrix (vec_size matrix) (N.of_nat i) = Ok tt ->
  vec_size row = vec_size matrix
  /\ forall j v, nth_error row j = Some v -> check_cell (N.of_nat i) (N.of_nat j) v = Ok tt.
Proof.
  intros Hrow. unfold check_row, vec_at. rewrite Nat2N.id, Hrow. simpl.
  destruct (N.eqb_spec (vec_size row) (vec_size matrix)) as [Hsz|]; simpl; [|discriminate].
  rewrite for_each_unit. intros H. split; [exact Hsz|].
  intros j v Hv.
  specialize (H (N.of_nat j)). rewrite range_In in H. cbv beta in H.
  rewrite Nat2N.id, Hv in H. simpl in H. apply H.
  split; [lia|]. apply nth_error_lt with v. exact Hv.
Qed.

Lemma check_weights_ok (matrix : list (list D)) :
  check_weights matrix = Ok tt -> weights_ok matrix.
Proof.
  unfold check_weights. rewrite for_each_unit. intros H.
  assert (Hi : forall i row, nth_error matrix i = Some row ->
                 check_row matrix (vec_size matrix) (N.of_nat i) = Ok tt).
  { intros i row Hrow. apply H. apply range_In. split; [lia|].
    apply nth_error_lt with row. exact Hrow. }
  split.
  - apply Forall_forall. intros row Hin.
    destruct (In_nth_error _ _ Hin) as [i Hrow].
    apply (check_row_ok matrix i row Hrow). apply (Hi i row Hrow).
  - intros i j row v Hrow Hv. apply check_cell_ok.
    apply (check_row_ok matrix i row Hrow (Hi i row Hrow)). exact Hv.
Qed.

Lemma weights_ok_check `{!CompareLaws D} (matrix : list (list D)) :
  weights_ok matrix -> check_weights matrix = Ok tt.
Proof.
  intros [Hsq Hcell]. unfold check_weights. apply for_each_unit.
  intros i Hi. apply range_In in Hi.
  destruct (vec_get_ok matrix i (proj2 Hi)) as (row & _ & Hrow).
  unfold check_row, vec_at. rewrite Hrow. simpl.
  rewrite Forall_forall in Hsq.
  rewrite (Hsq row (nth_error_In _ _ Hrow)), N.eqb_refl. simpl.
  apply for_each_unit. intros j Hj. apply range_In in Hj. cbv beta.
  assert (Hjr : (j < vec_size row)%N)
    by (rewrite (Hsq row (nth_error_In _ _ Hrow)); apply Hj).
  destruct (vec_get_ok row j Hjr) as (v & _ & Hv).
  rewrite Hv. simpl.
  apply cell_ok_check.
  rewrite <- (N2Nat.id i), <- (N2Nat.id j). apply (Hcell _ _ row v Hrow Hv).
Qed.
End CheckWeights.

(** ** [size_t] arithmetic without wrap-around *)

Lemma sizet_small (x : N) : (x < SizeT.modulus)%N -> SizeT.wrap x = x.
Proof. intros H. unfold SizeT.wrap. apply N.mod_small. exact H. Qed.

Lemma sizet_sub_small (a b : N) :
  (b <= a)%N -> (a < SizeT.modulus)%N -> SizeT.sub a b = (a - b)%N.
Proof.
  intros Hba Ha. unfold SizeT.sub.
  rewrite (sizet_small b) by lia.
  unfold SizeT.wrap.
  replace (a + SizeT.modulus - b)%N with ((a - b) + 1 * SizeT.modulus)%N by lia.
  rewrite N.Div0.mod_add. apply N.mod_small. lia.
Qed.

Lemma compute_idx_value (i j n : N) :
  i <> j -> (i < n)%N -> (j < n)%N -> (n * (n - 1) <= SizeT.modulus)%N ->
  compute_idx i j n = Ok (i * (n - 1) + j - (if (i <? j)%N then 1 else 0))%N
  /\ (i * (n - 1) + j - (if (i <? j)%N then 1 else 0) < n * (n - 1))%N.
Proof.
  intros Hij Hi Hj Hn.
  assert (Hm : exists m, n = (m + 1)%N) by (exists (n - 1)%N; lia).
  destruct Hm as [m ->].
  replace (m + 1 - 1)%N with m in * by lia.
  assert (HM : (2 < SizeT.modulus)%N) by reflexivity.
  assert (Hlt : (i < j \/ j < i)%N) by lia.
  assert (Hs : (i * m + j < SizeT.modulus)%N) by (destruct Hlt; nia).
  assert (Hb : (i * m + j - (if (i <? j)%N then 1 else 0) < (m + 1) * m)%N).
  { destruct (N.ltb_spec i j); destruct Hlt; try lia; nia. }
  split; [|exact Hb].
  unfold compute_idx.
  destruct (N.eqb_spec i j) as [|_]; [contradiction|].
  destruct (N.ltb_spec i (m + 1)); [|lia].
  destruct (N.ltb_spec j (m + 1)); [|lia].
  simpl. f_equal.
  rewrite (sizet_sub_small (m + 1) 1) by nia.
  replace (m + 1 - 1)%N with m by lia.
  unfold SizeT.mul, SizeT.add.
  rewrite (sizet_small (i * m)) by nia.
  rewrite (sizet_small _ Hs).
  apply sizet_sub_small; [destruct (N.ltb_spec i j); lia | exact Hs].
Qed.

Lemma mod_neq_between (n l r : N) :
  (1 <= n)%N -> (l <= r)%N -> (r <= l + n)%N -> (l mod n =? r mod n)%N = false ->
  (l < r < l + n)%N.
Proof.
  intros Hn1 Hlr Hrl Hneq. apply N.eqb_neq in Hneq.
  assert (r <> l) by (intros ->; apply Hneq; reflexivity).
  assert (r <> (l + n)%N).
  { intros ->. apply Hneq.
    replace (l + n)%N with (l + 1 * n)%N by lia.
    rewrite N.Div0.mod_add. reflexivity. }
  lia.
Qed.


Lemma ok_inj {A : Type} (x y : A) : Ok x = Ok y -> x = y.
Proof. intros H. congruence. Qed.

(** ** Runs of the code on binary64 *)

(** C1 (the code fails it): [find_city_subsequence] does not return the
    best window.  On three cities with the weights of the default
    instance, the values 1, 5 and 1, the budget 1 and the tour [1, 0, 2],
    an instance the constructor accepts, it returns the value 10, which is
    more than the value of every window of the tour (the three values sum
    to 7): after the first city it adds [m_values[(it_r + 1) % n_cities]],
    the value stored at the position, and not [m_values[tour[...]]], the
    value of the city at that position. *)
Theorem find_city_subsequence_not_a_window_value :
  make_tsp_cs unit_weights [1; 5; 1]%float 1%float CITIES = Ok (triangle 1 5 1 1)
  /\ find_city_subsequence 3 (triangle 1 5 1 1) [1; 0; 2]%float
     = Ok {| retval_p := 10%float; retval_l := 0%float;
             retval_it_l := 0; retval_it_r := 1 |}
  /\ Forall (fun w => exists v,
               spec_window_value (triangle 1 5 1 1) [1; 0; 2]%float (fst w) (snd w)
               = Ok v
               /\ d_ltb v 10%float = true)
            (windows 3).
Proof.
  split; [vm_compute; reflexivity|].
  split; [vm_compute; reflexivity|].
  unfold windows; simpl.
  repeat constructor; eexists; (split; [vm_compute; reflexivity|reflexivity]).
Qed.

(** The search also misses a window that fits the budget exactly: on
    [three_cities] with the tour [0, 1, 2] it returns the value 5, while the
    window of the cities 1 and 2 has length 2, the budget, and value 6.  The
    left pointer's branch tests [saved_length > 0] where the right
    pointer's tests [saved_length < 0]. *)
Lemma find_city_subsequence_misses_exact_fit :
  make_tsp_cs [[0; 1; 1]; [1; 0; 2]; [3; 1; 0]]%float [1; 1; 5]%float 2%float CITIES
  = Ok three_cities
  /\ find_city_subsequence 3 three_cities [0; 1; 2]%float
     = Ok {| retval_p := 5%float; retval_l := 2%float;
             retval_it_l := 2; retval_it_r := 2 |}
  /\ spec_window_value three_cities [0; 1; 2]%float 1 1 = Ok 6%float
  /\ spec_window_length three_cities [0; 1; 2]%float 1 1 = Ok 2%float
  /\ spec_feasible three_cities [0; 1; 2]%float 1 1.
Proof.
  repeat split; try (vm_compute; reflexivity).
  exists 2%float. split; vm_compute; reflexivity.
Qed.

(** C2 (the code fails it): the constructor stores the first value, not
    the minimum.  [std::min] is applied to the two iterators [begin()] and
    [end()], not to the elements between them, and returns [begin()]. *)
Theorem min_value_is_not_the_minimum :
  make_tsp_cs unit_weights [2; 1; 3]%float 1%float CITIES = Ok (triangle 2 1 3 1)
  /\ m_min_value (triangle 2 1 3 1) = 2%float
  /\ In 1%float (m_values (triangle 2 1 3 1))
  /\ d_ltb 1%float (m_min_value (triangle 2 1 3 1)) = true.
Proof.
  repeat split; try (vm_compute; reflexivity).
  simpl. right. left. reflexivity.
Qed.

(** C3 (the code fails it): [check_weights] accepts a matrix with a NaN
    off the diagonal.  Its last test compares [!x] with [x], which is
    false for every [x] that passed the test before it, where [x != x] was
    meant. *)
Theorem check_weights_accepts_nan :
  check_weights nan_weights = Ok tt
  /\ (row <- vec_at nan_weights 0 ;; vec_at row 1) = Ok nan
  /\ d_eqb nan nan = false.
Proof. repeat split; vm_compute; reflexivity. Qed.

(** C4, as stated, fails: [check_weights] accepts a matrix with a
    negative entry, and on that matrix the window of the cities 0 and 1 is
    shorter than the window of the city 0 alone. *)
Lemma check_weights_accepts_negative :
  ~ (forall matrix : list (list float),
       check_weights matrix = Ok tt ->
       Forall (Forall (fun v => d_leb d_zero v = true)) matrix)
  /\ check_weights (m_weights negative_cities) = Ok tt
  /\ spec_window_length negative_cities [0; 1; 2]%float 0 0 = Ok 0%float
  /\ spec_window_length negative_cities [0; 1; 2]%float 0 1 = Ok (-1)%float
  /\ d_leb 0%float (-1)%float = false.
Proof.
  split; [|repeat split; vm_compute; reflexivity].
  intros H. specialize (H negative_weights).
  assert (Hc : check_weights negative_weights = Ok tt) by (vm_compute; reflexivity).
  apply H in Hc. inversion Hc as [|? ? Hrow _]; subst.
  inversion Hrow as [|? ? _ Hrest]; subst.
  inversion Hrest as [|? ? Hneg _]; subst.
  vm_compute in Hneg. discriminate.
Qed.

(** C6, as stated, fails: with the values -1, 2 and -1 the search returns
    2 under the budget 1/2 and 1 under the budget 1.  Under the smaller
    budget the window of the first two cities does not fit, the left
    pointer catches up and the window of the second city alone, of value
    2, is compared.  Under the larger budget the window of the first two
    cities fits, the right pointer goes on to the third city and never
    comes back: when the left pointer reaches the second city the window
    holds the second and the third city, and the second city alone is
    never compared.  Only windows that cannot be extended are compared,
    which loses nothing as long as no value is negative. *)
Lemma best_value_decreases_with_budget :
  d_leb 0.5%float 1%float = true
  /\ make_tsp_cs unit_weights [-1; 2; -1]%float 0.5%float CITIES
     = Ok (triangle (-1) 2 (-1) 0.5)
  /\ make_tsp_cs unit_weights [-1; 2; -1]%float 1%float CITIES
     = Ok (triangle (-1) 2 (-1) 1)
  /\ find_city_subsequence 3 (triangle (-1) 2 (-1) 0.5) [0; 1; 2]%float
     = Ok {| retval_p := 2%float; retval_l := 0.5%float;
             retval_it_l := 1; retval_it_r := 1 |}
  /\ find_city_subsequence 3 (triangle (-1) 2 (-1) 1) [0; 1; 2]%float
     = Ok {| retval_p := 1%float; retval_l := 0%float;
             retval_it_l := 0; retval_it_r := 1 |}
  /\ d_ltb 1%float 2%float = true.
Proof. repeat split; vm_compute; reflexivity. Qed.

(** Rounding breaks the monotonicity in the budget as well, on values that
    are all positive: with the doubles nearest to 0.2 and 0.1, and 0.5, the
    best window under either budget holds the third and the first city;
    its value is reached by other additions and subtractions under the
    budget 1 than under the budget 1.5, and comes out one unit in the last
    place higher. *)
Lemma best_value_decreases_by_rounding :
  make_tsp_cs unit_weights [0x1.999999999999ap-3; 0x1.999999999999ap-4; 0.5]%float
    1%float CITIES
  = Ok (triangle 0x1.999999999999ap-3 0x1.999999999999ap-4 0.5 1)
  /\ make_tsp_cs unit_weights [0x1.999999999999ap-3; 0x1.999999999999ap-4; 0.5]%float
       1.5%float CITIES
     = Ok (triangle 0x1.999999999999ap-3 0x1.999999999999ap-4 0.5 1.5)
  /\ Forall (fun v => d_ltb d_zero v = true)
       [0x1.999999999999ap-3; 0x1.999999999999ap-4; 0.5]%float
  /\ find_city_subsequence 3
       (triangle 0x1.999999999999ap-3 0x1.999999999999ap-4 0.5 1) [0; 1; 2]%float
     = Ok {| retval_p := 0x1.6666666666668p-1%float; retval_l := 0%float;
             retval_it_l := 2; retval_it_r := 0 |}
  /\ find_city_subsequence 3
       (triangle 0x1.999999999999ap-3 0x1.999999999999ap-4 0.5 1.5) [0; 1; 2]%float
     = Ok {| retval_p := 0x1.6666666666667p-1%float; retval_l := 0.5%float;
             retval_it_l := 2; retval_it_r := 0 |}
  /\ d_ltb 0x1.6666666666667p-1%float 0x1.6666666666668p-1%float = true.
Proof.
  split; [vm_compute; reflexivity|]. split; [vm_compute; reflexivity|].
  split; [repeat constructor|].
  repeat split; vm_compute; reflexivity.
Qed.

(** ** [compute_idx] numbers the arcs *)

(** C10: for [n >= 2], [compute_idx(i, j, n)] is
    [i * (n - 1) + j - (1 if j > i else 0)] on the pairs [i <> j] below
    [n]; it is injective on them and its image is the interval
    [0, n * (n - 1)).  Hence the indices at which the FULL constraints read
    the chromosome, a vector of [n * (n - 1)] arc variables, are distinct
    and in range.  ([n * (n - 1)] fits a [size_t], as it does when such a
    chromosome exists.) *)
Theorem compute_idx_bijective (n : N) :
  (2 <= n)%N -> (n * (n - 1) <= SizeT.modulus)%N ->
  (forall i j, i <> j -> (i < n)%N -> (j < n)%N ->
     exists k, compute_idx i j n = Ok k
               /\ k = (i * (n - 1) + j - (if (i <? j)%N then 1 else 0))%N
               /\ (k < n * (n - 1))%N)
  /\ (forall i j i' j' k,
        compute_idx i j n = Ok k -> compute_idx i' j' n = Ok k -> i = i' /\ j = j')
  /\ (forall k, (k < n * (n - 1))%N -> exists i j, compute_idx i j n = Ok k)
  /\ (forall (D : Type) (x : list D), vec_size x = (n * (n - 1))%N ->
      forall i j, i <> j -> (i < n)%N -> (j < n)%N ->
        exists k v, compute_idx i j n = Ok k /\ vec_get x k = Ok v).
Proof.
  intros Hn2 Hn. split; [|split; [|split]].
  - intros i j Hij Hi Hj.
    destruct (compute_idx_value i j n Hij Hi Hj Hn) as [He Hb].
    eexists. split; [exact He|]. split; [reflexivity|exact Hb].
  - intros i j i' j' k H1 H2.
    assert (Hpre : forall a b r, compute_idx a b n = Ok r ->
                     a <> b /\ (a < n)%N /\ (b < n)%N).
    { intros a b r. unfold compute_idx.
      destruct (N.eqb_spec a b); simpl; [discriminate|].
      destruct (N.ltb_spec a n); simpl; [|discriminate].
      destruct (N.ltb_spec b n); simpl; [|discriminate].
      intros _. repeat split; assumption. }
    destruct (Hpre _ _ _ H1) as (Hij & Hi & Hj).
    destruct (Hpre _ _ _ H2) as (Hij' & Hi' & Hj').
    destruct (compute_idx_value i j n Hij Hi Hj Hn) as [He _].
    destruct (compute_idx_value i' j' n Hij' Hi' Hj' Hn) as [He' _].
    rewrite He in H1. rewrite He' in H2.
    injection H1 as H1. injection H2 as H2.
    assert (Hm : exists m, n = (m + 1)%N) by (exists (n - 1)%N; lia).
    destruct Hm as [m ->].
    replace (m + 1 - 1)%N with m in * by lia.
    assert (Hii : i = i').
    { destruct (N.ltb_spec i j); destruct (N.ltb_spec i' j'); nia. }
    subst i'.
    split; [reflexivity|].
    destruct (N.ltb_spec i j); destruct (N.ltb_spec i j'); nia.
  - intros k Hk.
    assert (Hm : exists m, n = (m + 1)%N) by (exists (n - 1)%N; lia).
    destruct Hm as [m ->].
    replace (m + 1 - 1)%N with m in * by lia.
    assert (Hm0 : m <> 0%N) by lia.
    pose proof (N.div_mod k m Hm0) as Hdm.
    pose proof (N.mod_lt k m Hm0) as Hml.
    set (i := (k / m)%N) in *. set (j' := (k mod m)%N) in *.
    assert (Hi : (i < m + 1)%N) by nia.
    exists i, (if (j' <? i)%N then j' else j' + 1)%N.
    assert (Hj : ((if (j' <? i)%N then j' else j' + 1) < m + 1)%N)
      by (destruct (N.ltb_spec j' i); lia).
    assert (Hij : i <> (if (j' <? i)%N then j' else j' + 1)%N)
      by (destruct (N.ltb_spec j' i); lia).
    assert (Hn' : ((m + 1) * (m + 1 - 1) <= SizeT.modulus)%N)
      by (replace (m + 1 - 1)%N with m by lia; exact Hn).
    destruct (compute_idx_value _ _ _ Hij Hi Hj Hn') as [He _].
    rewrite He. f_equal.
    replace (m + 1 - 1)%N with m by lia.
    rewrite (N.mul_comm i m).
    destruct (N.ltb_spec j' i) as [Hlt|Hge].
    + destruct (N.ltb_spec i j'); [lia|]. lia.
    + destruct (N.ltb_spec i (j' + 1)); [|lia]. lia.
  - intros D x Hx i j Hij Hi Hj.
    destruct (compute_idx_value i j n Hij Hi Hj Hn) as [He Hb].
    destruct (vec_get_ok x _ (eq_ind_r (fun m => (_ < m)%N) Hb Hx)) as (v & Hv & _).
    eexists. exists v. split; [exact He|exact Hv].
Qed.

(** ** Termination of the double loop *)

Section Termination.
Context {D : Type} {ops : DoubleOps D}.
Variable self : tsp_cs D.
Variable tour : list D.
Hypothesis Hwf : well_formed self.
Hypothesis Hn : (1 <= m_n_cities self)%N.
Hypothesis Hfit : (2 * m_n_cities self <= SizeT.modulus)%N.
Hypothesis Hlen : vec_size tour = m_n_cities self.
Hypothesis Htour : tour_in_range (m_n_cities self) tour.

Lemma weight_at_ok (p q : N) :
  (p < m_n_cities self)%N -> (q < m_n_cities self)%N ->
  exists w, weight_at self tour p q = Ok w.
Proof.
  intros Hp Hq. destruct Hwf as (Hw & Hrows & _).
  unfold weight_at. pose proof Htour as Ht.
  unfold tour_in_range in Ht. rewrite Forall_forall in Ht.
  destruct (vec_get_ok tour p) as (a & -> & Ha); [lia|]. simpl.
  destruct (Ht a (nth_error_In _ _ Ha)) as (i & -> & Hi). simpl.
  destruct (vec_get_ok (m_weights self) i) as (row & -> & Hrow); [lia|]. simpl.
  destruct (vec_get_ok tour q) as (b & -> & Hb); [lia|]. simpl.
  destruct (Ht b (nth_error_In _ _ Hb)) as (j & -> & Hj). simpl.
  rewrite Forall_forall in Hrows.
  destruct (vec_get_ok row j) as (w & -> & _).
  - rewrite (Hrows row (nth_error_In _ _ Hrow)). exact Hj.
  - exists w. reflexivity.
Qed.

Lemma improve_pointers (n : N) (st : fcs_state D) :
  it_l (improve n st) = it_l st /\ it_r (improve n st) = it_r st
  /\ cond_r (improve n st) = cond_r st /\ cond_l (improve n st) = cond_l st.
Proof.
  unfold improve, update_retvals.
  destruct (d_gtb _ _); [repeat split|].
  destruct (d_eqb _ _); [|repeat split].
  destruct (d_gtb _ _); repeat split.
Qed.

Lemma inner_body_ok (st : fcs_state D) :
  (it_r st < it_l st + m_n_cities self)%N -> (it_l st < m_n_cities self)%N ->
  (it_l st <= it_r st)%N ->
  exists st', inner_body self tour st = Ok st'
    /\ it_l st' = it_l st /\ it_r st' = (it_r st + 1)%N /\ cond_l st' = cond_l st
    /\ (cond_r st' = true -> (it_r st' < it_l st' + m_n_cities self)%N).
Proof.
  intros Hr Hl Hlr. unfold inner_body.
  assert (Hadd : SizeT.add (it_r st) 1 = (it_r st + 1)%N)
    by (unfold SizeT.add; apply sizet_small; lia).
  rewrite Hadd.
  destruct (weight_at_ok (it_r st mod m_n_cities self) ((it_r st + 1) mod m_n_cities self))
    as [w ->]; try (apply N.mod_lt; lia). simpl.
  destruct Hwf as (_ & _ & Hv).
  destruct (vec_get_ok (m_values self) ((it_r st + 1) mod m_n_cities self))
    as (v & -> & _); [rewrite Hv; apply N.mod_lt; lia|]. simpl.
  match goal with
  | |- context [if ?c then _ else _] => destruct c eqn:Hstop
  end.
  - eexists. split; [reflexivity|]. simpl. repeat split. discriminate.
  - eexists. split; [reflexivity|].
    match goal with
    | |- context [improve ?n ?s] => destruct (improve_pointers n s) as (-> & -> & -> & ->)
    end.
    simpl. repeat split. intros _.
    apply orb_false_iff in Hstop. destruct Hstop as [_ Hmod]. simpl in Hmod.
    apply mod_neq_between in Hmod; lia.
Qed.

Lemma inner_loop_ok (fuel : nat) : forall st : fcs_state D,
  (it_l st <= it_r st)%N -> (it_r st <= it_l st + m_n_cities self)%N ->
  (it_l st < m_n_cities self)%N ->
  (cond_r st = true -> (it_r st < it_l st + m_n_cities self)%N) ->
  (N.to_nat (it_l st + m_n_cities self - it_r st) <= fuel)%nat ->
  exists st', inner_loop fuel self tour st = Ok st'
    /\ cond_r st' = false /\ it_l st' = it_l st /\ cond_l st' = cond_l st
    /\ (it_r st <= it_r st' <= it_l st + m_n_cities self)%N.
Proof.
  induction fuel as [|fuel IH]; intros st Hlr Hrl Hl Hc Hfuel.
  - simpl. destruct (cond_r st) eqn:E.
    + specialize (Hc eq_refl). lia.
    + exists st. repeat split; try assumption; lia.
  - simpl. destruct (cond_r st) eqn:E.
    + specialize (Hc eq_refl).
      destruct (inner_body_ok st Hc Hl Hlr) as (st1 & -> & Hl1 & Hr1 & Hcl1 & Hc1).
      simpl.
      destruct (IH st1) as (st' & -> & Hcr & Hl' & Hcl' & Hr'); try lia.
      * exact Hc1.
      * exists st'. repeat split; try congruence; lia.
    + exists st. repeat split; try assumption; lia.
Qed.

Lemma outer_rest_ok (st : fcs_state D) :
  (it_l st <= it_r st)%N -> (it_r st <= it_l st + m_n_cities self)%N ->
  (it_l st < m_n_cities self)%N ->
  exists st', outer_rest self tour st = Ok st'
    /\ (cond_l st' = false
        \/ (it_l st' = (it_l st + 1)%N /\ (it_l st' < m_n_cities self)%N
            /\ (it_l st' <= it_r st')%N /\ (it_r st' < it_l st' + m_n_cities self)%N)).
Proof.
  intros Hlr Hrl Hl. unfold outer_rest.
  destruct (it_l st mod m_n_cities self =? it_r st mod m_n_cities self)%N eqn:Hmod.
  - eexists. split; [reflexivity|]. left. reflexivity.
  - apply mod_neq_between in Hmod; try lia.
    assert (Hadd : SizeT.add (it_l st) 1 = (it_l st + 1)%N)
      by (unfold SizeT.add; apply sizet_small; lia).
    rewrite Hadd.
    destruct (weight_at_ok (it_l st mod m_n_cities self) ((it_l st + 1) mod m_n_cities self))
      as [w ->]; try (apply N.mod_lt; lia). simpl.
    destruct Hwf as (_ & _ & Hv).
    destruct (vec_get_ok (m_values self) (it_l st)) as (v & -> & _); [lia|]. simpl.
    eexists. split; [reflexivity|].
    match goal with
    | |- context [if ?c then improve ?n ?s else ?t] =>
        assert (Hp : it_l (if c then improve n s else t) = (it_l st + 1)%N
                     /\ it_r (if c then improve n s else t) = it_r st);
        [destruct c; [destruct (improve_pointers n s) as (-> & -> & _)|]; split; reflexivity|]
    end.
    destruct Hp as [Hpl Hpr].
    match goal with
    | |- context [if (?a =? ?b)%N then _ else _] => destruct (N.eqb_spec a b) as [He|He]
    end.
    + left. reflexivity.
    + right. rewrite Hpl, Hpr. rewrite Hpl in He. lia.
Qed.

Lemma outer_loop_ok (fuel : nat) : forall st : fcs_state D,
  (cond_l st = true ->
     (it_l st < m_n_cities self)%N /\ (it_l st <= it_r st)%N
     /\ (it_r st < it_l st + m_n_cities self)%N
     /\ (N.to_nat (m_n_cities self - it_l st) <= fuel)%nat) ->
  exists st', outer_loop fuel (N.to_nat (m_n_cities self)) self tour st = Ok st'.
Proof.
  induction fuel as [|fuel IH]; intros st Hinv.
  - simpl. destruct (cond_l st) eqn:E.
    + destruct (Hinv eq_refl). lia.
    + exists st. reflexivity.
  - simpl. destruct (cond_l st) eqn:E; [|exists st; reflexivity].
    destruct (Hinv eq_refl) as (Hl & Hlr & Hrl & Hfuel).
    destruct (inner_loop_ok (N.to_nat (m_n_cities self)) st)
      as (st1 & -> & _ & Hl1 & _ & Hr1); try lia.
    simpl.
    destruct (outer_rest_ok st1) as (st2 & -> & Hst2); try lia.
    simpl. apply IH.
    intros Hc. destruct Hst2 as [Hf|Hst2]; [congruence|]. lia.
Qed.

(** C9: on an instance of [n >= 1] cities, [n] iterations of the outer
    loop and [n] iterations of each run of the inner loop are enough for
    [find_city_subsequence] to return, whatever the weights, the values and
    the budget are, when the tour has [n] entries, each the index of a
    city.  ([2 n] fits a [size_t], as it does for every vector that fits
    the memory.) *)
Theorem find_city_subsequence_terminates :
  exists r, find_city_subsequence (N.to_nat (m_n_cities self)) self tour = Ok r.
Proof.
  unfold find_city_subsequence. rewrite Hlen, N.eqb_refl. simpl.
  pose proof Htour as Ht. unfold tour_in_range in Ht. rewrite Forall_forall in Ht.
  destruct (vec_get_ok tour 0) as (t0 & -> & Ht0); [lia|]. simpl.
  destruct (Ht t0 (nth_error_In _ _ Ht0)) as (i0 & -> & Hi0). simpl.
  destruct Hwf as (_ & _ & Hv).
  destruct (vec_get_ok (m_values self) i0) as (v0 & -> & _); [lia|]. simpl.
  match goal with
  | |- context [outer_loop ?f ?g self tour ?s] =>
      destruct (outer_loop_ok f s) as [st ->]
  end.
  - intros _. simpl. repeat split; lia.
  - simpl. eexists. reflexivity.
Qed.
End Termination.

(** ** The permutation test of the CITIES encoding *)

Section IsPermutation.
Context {D : Type} {ops : DoubleOps D}.

Lemma remove_first_some (a : D) (r r' : list D) :
  remove_first a r = Some r' ->
  exists b, d_eqb a b = true /\ Permutation r (b :: r').
Proof.
  revert r'. induction r as [|b r IH]; simpl; intros r' H; [discriminate|].
  destruct (d_eqb a b) eqn:E.
  - injection H as <-. exists b. split; [exact E|apply Permutation_refl].
  - destruct (remove_first a r) as [r1|]; simpl in H; [|discriminate].
    injection H as <-. destruct (IH r1 eq_refl) as (b' & Hb' & Hp).
    exists b'. split; [exact Hb'|].
    apply Permutation_trans with (b :: b' :: r1).
    + apply perm_skip. exact Hp.
    + apply perm_swap.
Qed.

Lemma remove_first_none (a : D) (r : list D) :
  remove_first a r = None -> forall b, In b r -> d_eqb a b = false.
Proof.
  induction r as [|b r IH]; simpl; intros H c Hc; [contradiction|].
  destruct (d_eqb a b) eqn:E; [discriminate|].
  destruct (remove_first a r); simpl in H; [discriminate|].
  destruct Hc as [<-|Hc]; [exact E|]. apply IH; [reflexivity|exact Hc].
Qed.

Lemma std_is_permutation_sound (x : list D) : forall r,
  std_is_permutation x r = true ->
  exists p, Permutation p r /\ Forall2 (fun a b => d_eqb a b = true) x p.
Proof.
  induction x as [|a x IH]; simpl; intros r H.
  - destruct r; [|discriminate]. exists []. split; constructor.
  - destruct (remove_first a r) as [r'|] eqn:E; [|discriminate].
    destruct (remove_first_some a r r' E) as (b & Hab & Hp).
    destruct (IH r' H) as (p & Hpp & Hf).
    exists (b :: p). split.
    + apply Permutation_trans with (b :: r'); [|apply Permutation_sym; exact Hp].
      apply perm_skip. exact Hpp.
    + constructor; assumption.
Qed.

Lemma std_is_permutation_complete `{!CompareLaws D} (x : list D) : forall r p,
  Permutation p r -> Forall2 (fun a b => d_eqb a b = true) x p ->
  std_is_permutation x r = true.
Proof.
  induction x as [|a x IH]; intros r p Hp Hf.
  - inversion Hf; subst. apply Permutation_nil in Hp. subst. reflexivity.
  - inversion Hf as [|? b ? p' Hab Hf']; subst. simpl.
    destruct (remove_first a r) as [r'|] eqn:E.
    + destruct (remove_first_some a r r' E) as (b' & Hab' & Hr).
      (* [b' :: r'] and [b :: p'] are permutations of each other *)
      assert (Hbp : Permutation (b :: p') (b' :: r'))
        by (apply Permutation_trans with r; assumption).
      assert (Hin : In b' (b :: p'))
        by (apply Permutation_in with (b' :: r');
            [apply Permutation_sym; exact Hbp|left; reflexivity]).
      destruct Hin as [->|Hin].
      * apply (IH r' p'); [|exact Hf'].
        apply Permutation_cons_inv with b'. exact Hbp.
      * destruct (in_split _ _ Hin) as (p1 & p2 & ->).
        apply (IH r' (p1 ++ b :: p2)).
        -- apply Permutation_cons_inv with b'.
           apply Permutation_trans with (b :: p1 ++ b' :: p2); [|exact Hbp].
           apply Permutation_trans with (b' :: b :: p1 ++ p2).
           ++ apply perm_skip. apply Permutation_sym, Permutation_middle.
           ++ apply Permutation_trans with (b :: b' :: p1 ++ p2); [apply perm_swap|].
              apply perm_skip. apply Permutation_middle.
        -- apply Forall2_app_inv_r in Hf'.
           destruct Hf' as (x1 & x2 & Hf1 & Hf2 & ->).
           inversion Hf2 as [|c ? x2' ? Hcb' Hf2']; subst.
           apply Forall2_app; [exact Hf1|]. constructor; [|exact Hf2'].
           (* c == b' == a == b *)
           apply d_eqb_trans with a; [|exact Hab].
           apply d_eqb_trans with b'; [exact Hcb'|].
           rewrite d_eqb_sym. exact Hab'.
    + exfalso.
      assert (Hbr : In b r)
        by (apply Permutation_in with (b :: p'); [exact Hp|left; reflexivity]).
      rewrite (remove_first_none a r E b Hbr) in Hab. discriminate.
Qed.

Lemma std_is_permutation_range `{!CompareLaws D} (x : list D) (n : N) :
  std_is_permutation x (map d_of_size (range 0 n)) = true
  <-> is_permutation_of_range x n.
Proof.
  unfold is_permutation_of_range. split.
  - intros H. destruct (std_is_permutation_sound _ _ H) as (p & Hp & Hf).
    destruct (Permutation_map_inv _ _ Hp) as (q & -> & Hq).
    exists q. split; [apply Permutation_sym; exact Hq|].
    clear -Hf. revert x Hf. induction q as [|k q IH]; intros x Hf.
    + inversion Hf; subst. constructor.
    + inversion Hf; subst. constructor; [assumption|]. apply IH. assumption.
  - intros (p & Hp & Hf).
    apply (std_is_permutation_complete x _ (map d_of_size p)).
    + apply Permutation_map. exact Hp.
    + clear -Hf. induction Hf; constructor; assumption.
Qed.

Lemma range_length (lo hi : N) : length (range lo hi) = (N.to_nat hi - N.to_nat lo)%nat.
Proof. unfold range. rewrite length_map, length_seq. reflexivity. Qed.

(** C7: under the CITIES encoding the constraint vector has one entry,
    which is 0 when the chromosome (of the length [n] of the problem) is a
    permutation of [0, n) and 1 when it is not; it equals 0 if and only if
    the chromosome is such a permutation. *)
Theorem cities_constraint_iff_permutation `{!CompareLaws D}
    (self : tsp_cs D) (c0 : D) (x : list D) :
  m_encoding self = CITIES ->
  vec_size x = m_n_cities self ->
  exists v, compute_constraints_impl self [c0] x = Ok [v]
    /\ (is_permutation_of_range x (m_n_cities self) -> v = d_zero)
    /\ (~ is_permutation_of_range x (m_n_cities self) -> v = d_one)
    /\ (d_eqb v d_zero = true <-> is_permutation_of_range x (m_n_cities self)).
Proof.
  intros Henc Hlen. unfold compute_constraints_impl. rewrite Henc.
  rewrite Hlen, N.leb_refl.
  assert (Hfirst : firstn (length x) (map d_of_size (range 0 (m_n_cities self)))
                   = map d_of_size (range 0 (m_n_cities self))).
  { apply firstn_all2. rewrite length_map, range_length.
    unfold vec_size in Hlen. lia. }
  rewrite Hfirst.
  pose proof (std_is_permutation_range x (m_n_cities self)) as Hiff.
  destruct (std_is_permutation x (map d_of_size (range 0 (m_n_cities self)))) eqn:E.
  - exists d_zero. split; [reflexivity|]. split; [reflexivity|]. split.
    + intros Hn. exfalso. apply Hn. apply Hiff. reflexivity.
    + split; [intros _; apply Hiff; reflexivity|intros _; apply d_zero_eqb_zero].
  - exists d_one. split; [reflexivity|]. split.
    + intros Hp. apply Hiff in Hp. discriminate.
    + split; [reflexivity|]. rewrite d_one_eqb_zero. split; [discriminate|].
      intros Hp. apply Hiff in Hp. discriminate.
Qed.
End IsPermutation.

(** ** What [check_weights] guarantees, and the length of a window *)

Section MonotoneLength.
Context {D : Type} {ops : DoubleOps D}.

Lemma weight_at_entry (self : tsp_cs D) (tour : list D) (p q : N) (w : D) :
  weight_at self tour p q = Ok w ->
  exists row, In row (m_weights self) /\ In w row.
Proof.
  unfold weight_at. intros H.
  apply bind_ok in H. destruct H as (a & _ & H).
  apply bind_ok in H. destruct H as (i & _ & H).
  apply bind_ok in H. destruct H as (row & Hrow & H).
  apply bind_ok in H. destruct H as (b & _ & H).
  apply bind_ok in H. destruct H as (j & _ & H).
  exists row. split.
  - apply vec_get_inv in Hrow. apply nth_error_In in Hrow. exact Hrow.
  - apply vec_get_inv in H. apply nth_error_In in H. exact H.
Qed.

Lemma window_length_nonneg `{!SumLaws D} (self : tsp_cs D) (tour : list D) (l : N) :
  Forall (Forall (fun v => d_leb d_zero v = true)) (m_weights self) ->
  forall (k : nat) (a : D),
    spec_window_length self tour l k = Ok a -> d_leb d_zero a = true.
Proof.
  intros Hpos. induction k as [|k IH]; intros a Ha; cbn [spec_window_length] in Ha.
  - apply ok_inj in Ha. subst a. apply d_leb_zero_zero.
  - apply bind_ok in Ha. destruct Ha as (a0 & Ha0 & Ha).
    apply bind_ok in Ha. destruct Ha as (w & Hw & Ha).
    apply ok_inj in Ha. subst a.
    apply d_add_nonneg; [apply IH; exact Ha0|].
    destruct (weight_at_entry _ _ _ _ _ Hw) as (row & Hrow & Hin).
    rewrite Forall_forall in Hpos. specialize (Hpos row Hrow).
    rewrite Forall_forall in Hpos. apply Hpos. exact Hin.
Qed.

(** C4, amended: a matrix that [check_weights] accepts is square, with a
    zero diagonal and no zero elsewhere; the sign of its entries is not
    checked.  When the weights are moreover non-negative, the length of a
    window, summed edge by edge in doubles (or exactly), is non-negative
    and does not decrease as the window grows by one position. *)
Theorem accepted_weights_and_window_length `{!SumLaws D}
    (self : tsp_cs D) (tour : list D) :
  check_weights (m_weights self) = Ok tt ->
  weights_ok (m_weights self)
  /\ (Forall (Forall (fun v => d_leb d_zero v = true)) (m_weights self) ->
      forall (l : N) (k : nat) (a b : D),
        spec_window_length self tour l k = Ok a ->
        spec_window_length self tour l (S k) = Ok b ->
        d_leb d_zero a = true /\ d_leb a b = true).
Proof.
  intros Hcheck. split; [apply check_weights_ok; exact Hcheck|].
  intros Hpos l k a b Ha Hb.
  pose proof (window_length_nonneg self tour l Hpos k a Ha) as Ha0.
  split; [exact Ha0|].
  cbn [spec_window_length] in Hb. rewrite Ha in Hb. cbn [bind] in Hb.
  apply bind_ok in Hb. destruct Hb as (w & Hw & Hb).
  apply ok_inj in Hb. subst b.
  apply d_leb_add_nonneg; [exact Ha0|].
  destruct (weight_at_entry _ _ _ _ _ Hw) as (row & Hrow & Hin).
  rewrite Forall_forall in Hpos. specialize (Hpos row Hrow).
  rewrite Forall_forall in Hpos. apply Hpos. exact Hin.
Qed.
End MonotoneLength.

(** ** Output vectors *)

Section Buffers.
Context {D : Type}.

Lemma length_list_set (v : list D) (i : nat) (a : D) :
  length (list_set v i a) = length v.
Proof.
  revert i. induction v as [|b v IH]; intros [|i]; simpl; try reflexivity.
  rewrite IH. reflexivity.
Qed.

Lemma nth_error_list_set_eq (v : list D) (i : nat) (a : D) :
  (i < length v)%nat -> nth_error (list_set v i a) i = Some a.
Proof.
  revert i. induction v as [|b v IH]; intros [|i]; simpl; intros H; try lia.
  - reflexivity.
  - apply IH. lia.
Qed.

Lemma nth_error_list_set_neq (v : list D) (i j : nat) (a : D) :
  i <> j -> nth_error (list_set v i a) j = nth_error v j.
Proof.
  revert i j. induction v as [|b v IH]; intros [|i] [|j] H; simpl; try reflexivity.
  - contradiction.
  - apply IH. lia.
Qed.

Lemma vec_set_inv (c c' : list D) (k : N) (v : D) :
  vec_set c k v = Ok c' <->
  (k < vec_size c)%N /\ c' = list_set c (N.to_nat k) v.
Proof.
  unfold vec_set. destruct (N.ltb_spec k (vec_size c)); split.
  - intros H1. injection H1 as <-. split; [assumption|reflexivity].
  - intros [_ ->]. reflexivity.
  - discriminate.
  - intros [Hk _]. lia.
Qed.

Lemma list_set_twice (v : list D) (i : nat) (a b : D) :
  list_set (list_set v i a) i b = list_set v i b.
Proof.
  revert i. induction v as [|x v IH]; intros [|i]; simpl; try reflexivity.
  rewrite IH. reflexivity.
Qed.


End Buffers.

(** ** Calls that end alike *)





Section TwoVectors.
Context {D : Type}.
Variable v1 v2 : list D.
Hypothesis Hlen : length v1 = length v2.





End TwoVectors.


(** ** Evaluation: what the output vector held before does not matter *)

Section Evaluation.
Context {D : Type} {ops : DoubleOps D}.

Section Steps.
Variable v1 v2 : list D.
Hypothesis Hlen : length v1 = length v2.



End Steps.


Section Calls.
Variable full2cities randomkeys2cities : tsp_cs D -> list D -> outcome (list D).


End Calls.
End Evaluation.
(** ** Sums over segments of positions *)

Section SegSum.
Local Open Scope Q_scope.
Variable f : N -> Q.

Lemma seg_sum_empty (a b : N) : (b <= a)%N -> seg_sum f a b == 0.
Proof.
  intros H. unfold seg_sum. replace (N.to_nat (b - a)) with O by lia. reflexivity.
Qed.

Lemma seg_sum_right (a b : N) :
  (a <= b)%N -> seg_sum f a (b + 1) == seg_sum f a b + f b.
Proof.
  intros H. unfold seg_sum.
  replace (N.to_nat (b + 1 - a)) with (S (N.to_nat (b - a))) by lia.
  cbn [sum_from]. replace (a + N.of_nat (N.to_nat (b - a)))%N with b by lia. reflexivity.
Qed.

Lemma sum_from_left (a : N) (k : nat) :
  sum_from f a (S k) == f a + sum_from f (a + 1) k.
Proof.
  induction k as [|k IH].
  - cbn [sum_from]. replace (a + N.of_nat 0)%N with a by lia. lra.
  - change (sum_from f a (S (S k))) with (sum_from f a (S k) + f (a + N.of_nat (S k))).
    rewrite IH. cbn [sum_from].
    replace (a + 1 + N.of_nat k)%N with (a + N.of_nat (S k))%N by lia.
    lra.
Qed.

Lemma seg_sum_left (a b : N) :
  (a < b)%N -> seg_sum f a b == f a + seg_sum f (a + 1) b.
Proof.
  intros H. unfold seg_sum.
  replace (N.to_nat (b - a)) with (S (N.to_nat (b - (a + 1)))) by lia.
  apply sum_from_left.
Qed.

Hypothesis f_nonneg : forall p, 0 <= f p.

Lemma seg_sum_nonneg (a b : N) : 0 <= seg_sum f a b.
Proof.
  unfold seg_sum. induction (N.to_nat (b - a)) as [|k IH]; cbn [sum_from].
  - lra.
  - pose proof (f_nonneg (a + N.of_nat k)). lra.
Qed.

Lemma seg_sum_split (a b c : N) :
  (a <= b)%N -> (b <= c)%N -> seg_sum f a c == seg_sum f a b + seg_sum f b c.
Proof.
  intros Hab Hbc.
  assert (Hk : exists k, c = (b + N.of_nat k)%N) by (exists (N.to_nat (c - b)); lia).
  destruct Hk as [k ->]. clear Hbc.
  induction k as [|k IH].
  - replace (b + N.of_nat 0)%N with b by lia.
    rewrite (seg_sum_empty b b) by lia. lra.
  - replace (b + N.of_nat (S k))%N with (b + N.of_nat k + 1)%N by lia.
    rewrite !seg_sum_right by lia. rewrite IH. lra.
Qed.

Lemma seg_sum_mono (a a' b b' : N) :
  (a' <= a)%N -> (a <= b)%N -> (b <= b')%N -> seg_sum f a b <= seg_sum f a' b'.
Proof.
  intros H1 H2 H3.
  rewrite (seg_sum_split a' a b') by lia.
  rewrite (seg_sum_split a b b') by lia.
  pose proof (seg_sum_nonneg a' a). pose proof (seg_sum_nonneg b b'). lra.
Qed.

Variable n : N.
Hypothesis f_periodic : forall p, f (p + n)%N = f p.

Lemma seg_sum_shift (a b : N) : seg_sum f (a + n) (b + n) == seg_sum f a b.
Proof.
  unfold seg_sum. replace (b + n - (a + n))%N with (b - a)%N by lia.
  induction (N.to_nat (b - a)) as [|k IH]; cbn [sum_from]; [reflexivity|].
  rewrite IH. replace (a + n + N.of_nat k)%N with (a + N.of_nat k + n)%N by lia.
  rewrite f_periodic. reflexivity.
Qed.

(** A full period sums to the same from every start. *)
Lemma seg_sum_period (a : N) : seg_sum f a (a + n) == seg_sum f 0 n.
Proof.
  induction a as [|a IH] using N.peano_ind.
  - reflexivity.
  - destruct (N.eq_dec n 0) as [->|Hn].
    + rewrite !seg_sum_empty by lia. reflexivity.
    + replace (N.succ a + n)%N with (a + n + 1)%N by lia.
      rewrite seg_sum_right by lia.
      rewrite (seg_sum_left a (a + n)) in IH by lia.
      replace (N.succ a) with (a + 1)%N by lia.
      rewrite f_periodic. lra.
Qed.

(** A segment of at most [n] positions sums to at most a full period. *)
Lemma seg_sum_le_period (a b c : N) :
  (a <= b)%N -> (b <= a + n)%N -> seg_sum f a b <= seg_sum f c (c + n).
Proof.
  intros H1 H2. rewrite (seg_sum_period c), <- (seg_sum_period a).
  apply seg_sum_mono; lia.
Qed.
End SegSum.

Lemma seg_sum_ext (f g : N -> Q) :
  (forall p, f p = g p) -> forall a b, seg_sum f a b = seg_sum g a b.
Proof.
  intros H a b. unfold seg_sum.
  induction (N.to_nat (b - a)) as [|k IH]; cbn [sum_from]; [reflexivity|].
  rewrite IH, H. reflexivity.
Qed.
(** ** The invariant of the search, in exact arithmetic *)

Section ExactSearch.
Local Open Scope Q_scope.
Variable self : tsp_cs Q.
Variable tour : list Q.
Hypothesis Hwf : well_formed self.
Hypothesis Hn : (1 <= m_n_cities self)%N.
Hypothesis Hfit : (2 * m_n_cities self <= SizeT.modulus)%N.
Hypothesis Hlen : vec_size tour = m_n_cities self.
Hypothesis Htour : tour_in_range (m_n_cities self) tour.
Hypothesis Hpos : nonnegative self.

Lemma weight_at_edge (p : N) :
  weight_at self tour (p mod m_n_cities self)%N ((p + 1) mod m_n_cities self)%N
  = Ok (edge self tour p).
Proof.
  unfold edge.
  destruct (weight_at_ok self tour Hwf Hn Hfit Hlen Htour
              (p mod m_n_cities self) ((p + 1) mod m_n_cities self)) as [w ->];
    try (apply N.mod_lt; lia).
  reflexivity.
Qed.

Lemma value_at_pos (p : N) :
  vec_get (m_values self) (p mod m_n_cities self)%N = Ok (pos_value self p).
Proof.
  unfold pos_value. destruct Hwf as (_ & _ & Hv).
  destruct (vec_get_ok (m_values self) (p mod m_n_cities self)) as (v & -> & _).
  - rewrite Hv. apply N.mod_lt. lia.
  - reflexivity.
Qed.

Lemma edge_nonneg (p : N) : 0 <= edge self tour p.
Proof.
  unfold edge.
  destruct (weight_at self tour _ _) as [w| | | |] eqn:E; try lra.
  destruct (weight_at_entry self tour _ _ w E) as (row & Hrow & Hw).
  destruct Hpos as [Hweights _].
  rewrite Forall_forall in Hweights. specialize (Hweights row Hrow).
  rewrite Forall_forall in Hweights. apply Hweights. exact Hw.
Qed.

Lemma pos_value_nonneg (p : N) : 0 <= pos_value self p.
Proof.
  unfold pos_value.
  destruct (vec_get (m_values self) _) as [v| | | |] eqn:E; try lra.
  apply vec_get_inv in E. apply nth_error_In in E.
  destruct Hpos as [_ Hvalues]. rewrite Forall_forall in Hvalues.
  apply Hvalues. exact E.
Qed.

Lemma mod_shift (p : N) : ((p + m_n_cities self) mod m_n_cities self = p mod m_n_cities self)%N.
Proof.
  replace (p + m_n_cities self)%N with (p + 1 * m_n_cities self)%N by lia.
  apply N.Div0.mod_add.
Qed.

Lemma edge_periodic (p : N) : edge self tour (p + m_n_cities self) = edge self tour p.
Proof.
  unfold edge.
  replace (p + m_n_cities self + 1)%N with (p + 1 + m_n_cities self)%N by lia.
  rewrite !mod_shift. reflexivity.
Qed.

Lemma pos_value_periodic (p : N) : pos_value self (p + m_n_cities self) = pos_value self p.
Proof. unfold pos_value. rewrite mod_shift. reflexivity. Qed.

(** The comparisons of the rationals. *)
Lemma q_ltb (a b : Q) : d_ltb a b = true <-> a < b.
Proof.
  simpl. rewrite negb_true_iff. split.
  - intros H. apply Qnot_le_lt. intros Hle. apply Qle_bool_iff in Hle. congruence.
  - intros H. destruct (Qle_bool b a) eqn:E; [|reflexivity].
    apply Qle_bool_iff in E. lra.
Qed.

Lemma q_ltb_false (a b : Q) : d_ltb a b = false <-> b <= a.
Proof.
  simpl. rewrite negb_false_iff. apply Qle_bool_iff.
Qed.

Lemma q_eqb (a b : Q) : d_eqb a b = true <-> a == b.
Proof. simpl. apply Qeq_bool_iff. Qed.

Lemma improve_spec (m : N) (st : fcs_state Q) :
  it_l (improve m st) = it_l st /\ it_r (improve m st) = it_r st
  /\ cond_r (improve m st) = cond_r st /\ cond_l (improve m st) = cond_l st
  /\ cum_p (improve m st) = cum_p st /\ saved_length (improve m st) = saved_length st
  /\ retval_p (retval st) <= retval_p (retval (improve m st))
  /\ cum_p st <= retval_p (retval (improve m st))
  /\ (retval (improve m st) = retval st
      \/ (retval_p (retval (improve m st)) = cum_p st
          /\ retval_l (retval (improve m st)) = saved_length st)).
Proof.
  unfold improve, d_gtb.
  destruct (d_ltb (retval_p (retval st)) (cum_p st)) eqn:E1.
  - apply q_ltb in E1. cbn [update_retvals it_l it_r cond_r cond_l cum_p saved_length
                             retval retval_p retval_l].
    repeat split; try lra. right. split; reflexivity.
  - apply q_ltb_false in E1.
    destruct (d_eqb (cum_p st) (retval_p (retval st))) eqn:E2.
    + apply q_eqb in E2.
      destruct (d_ltb (retval_l (retval st)) (saved_length st)).
      * cbn [update_retvals it_l it_r cond_r cond_l cum_p saved_length
             retval retval_p retval_l].
        repeat split; try lra. right. split; reflexivity.
      * repeat split; try lra. left. reflexivity.
    + repeat split; try lra. left. reflexivity.
Qed.

Lemma mod_eq_cases (l r : N) :
  (l <= r)%N -> (r <= l + m_n_cities self)%N ->
  (l mod m_n_cities self =? r mod m_n_cities self)%N = true ->
  r = l \/ r = (l + m_n_cities self)%N.
Proof.
  intros Hlr Hrl He. apply N.eqb_eq in He.
  destruct (N.eq_dec r l) as [|Hne]; [left; assumption|].
  destruct (N.eq_dec r (l + m_n_cities self)) as [|Hne']; [right; assumption|].
  exfalso.
  assert (Hn0 : m_n_cities self <> 0%N) by lia.
  pose proof (N.div_mod l _ Hn0) as Hl. pose proof (N.div_mod r _ Hn0) as Hr.
  pose proof (N.mod_lt l _ Hn0) as Hlm.
  rewrite <- He in Hr.
  assert (Hq : (l / m_n_cities self = r / m_n_cities self
                \/ l / m_n_cities self < r / m_n_cities self
                \/ r / m_n_cities self < l / m_n_cities self)%N) by lia.
  destruct Hq as [Hq|[Hq|Hq]]; nia.
Qed.

Lemma path_length_right (l r : N) :
  (l <= r)%N -> path_length self tour l (r + 1) == path_length self tour l r + edge self tour r.
Proof. intros H. unfold path_length. apply seg_sum_right. exact H. Qed.

Lemma path_length_left (l r : N) :
  (l < r)%N -> path_length self tour l r == edge self tour l + path_length self tour (l + 1) r.
Proof. intros H. unfold path_length. apply seg_sum_left. exact H. Qed.

Lemma path_length_mono (l l' r r' : N) :
  (l' <= l)%N -> (l <= r)%N -> (r <= r')%N ->
  path_length self tour l r <= path_length self tour l' r'.
Proof. intros. unfold path_length. apply seg_sum_mono; try assumption. apply edge_nonneg. Qed.

Lemma code_value_right (l r : N) :
  (l <= r + 1)%N ->
  code_value self tour l (r + 1) == code_value self tour l r + pos_value self (r + 1).
Proof.
  intros H. unfold code_value. rewrite (seg_sum_right (pos_value self) l (r + 1)) by lia. lra.
Qed.

Lemma code_value_left (l r : N) :
  (l <= r)%N ->
  code_value self tour l r == pos_value self l + code_value self tour (l + 1) r.
Proof.
  intros H. unfold code_value. rewrite (seg_sum_left (pos_value self) l (r + 1)) by lia. lra.
Qed.

Lemma code_value_mono (l l' r r' : N) :
  (l' <= l)%N -> (l <= r + 1)%N -> (r <= r')%N ->
  code_value self tour l r <= code_value self tour l' r'.
Proof.
  intros H1 H2 H3. unfold code_value.
  pose proof (seg_sum_mono (pos_value self) pos_value_nonneg l l' (r + 1) (r' + 1)).
  assert (seg_sum (pos_value self) l (r + 1) <= seg_sum (pos_value self) l' (r' + 1))
    by (apply H; lia).
  lra.
Qed.

(** One step of the right pointer keeps the invariant. *)
Lemma inner_body_inv (st : fcs_state Q) :
  search_inv self tour st -> cond_r st = true -> cond_l st = true ->
  exists st', inner_body self tour st = Ok st'
    /\ search_inv self tour st'
    /\ it_l st' = it_l st /\ it_r st' = (it_r st + 1)%N /\ cond_l st' = true.
Proof.
  intros (Hcore & Hrun & _) Hcr Hcl.
  destruct Hcore as [Hlr Hrl Hln Hsv Hcum Hleft Hpast Hopen Hclosed Hfirst Hbest].
  specialize (Hrun Hcl). destruct (Hopen Hcr) as [Hrn Hcur]. clear Hopen Hclosed.
  destruct st as [l r cr cl cum sv rv].
  cbn [it_l it_r cond_r cond_l cum_p saved_length retval] in *. subst cr cl.
  unfold inner_body. cbn [it_l it_r cond_r cond_l cum_p saved_length retval].
  assert (Hadd : SizeT.add r 1 = (r + 1)%N)
    by (unfold SizeT.add; apply sizet_small; lia).
  rewrite Hadd, weight_at_edge. cbn [bind]. rewrite value_at_pos. cbn [bind].
  pose proof (path_length_right l r Hlr) as HE.
  pose proof (code_value_right l r ltac:(lia)) as HC.
  assert (Hleft' : forall l', (l' < l)%N ->
            m_max_path_length self <= path_length self tour l' (r + 1)).
  { intros l' Hl'. specialize (Hleft l' Hl').
    pose proof (path_length_mono l' l' r (r + 1) ltac:(lia) ltac:(lia) ltac:(lia)). lra. }
  assert (Hpast' : forall best, retval_p rv <= best -> forall l' r',
            (l' < m_n_cities self)%N -> (l' <= r')%N -> (r' < r + 1)%N ->
            (r' < l' + m_n_cities self)%N ->
            path_length self tour l' r' < m_max_path_length self ->
            code_value self tour l' r' <= best).
  { intros best Hb l' r' H1 H2 H3 H4 H5.
    destruct (N.eq_dec r' r) as [->|Hne].
    - destruct (N.lt_ge_cases l' l) as [Hlt|Hge].
      + specialize (Hleft l' Hlt). lra.
      + pose proof (code_value_mono l' l r r Hge ltac:(lia) ltac:(lia)). lra.
    - specialize (Hpast l' r' H1 H2 ltac:(lia) H4 H5). lra. }
  match goal with
  | |- context [if ?c then _ else _] => destruct c eqn:Hstop
  end.
  - eexists. split; [reflexivity|]. split; [|repeat split].
    change (d_sub sv (edge self tour r)) with (sv - edge self tour r) in *.
    change (d_add cum (pos_value self (r + 1))) with (cum + pos_value self (r + 1)).
    split; [|split; [intros _; exact Hrun|discriminate]].
    constructor; cbn [set_cond_r it_l it_r cond_r cond_l cum_p saved_length retval].
    + lia.
    + lia.
    + lia.
    + lra.
    + lra.
    + exact Hleft'.
    + apply Hpast'. lra.
    + discriminate.
    + intros _. split.
      * intros He. replace (r + 1 - 1)%N with r by lia. exact Hcur.
      * intros Hlt. apply orb_true_iff in Hstop. destruct Hstop as [Hs|Hs].
        -- apply q_ltb in Hs. change (d_zero : Q) with 0 in Hs. lra.
        -- apply mod_eq_cases in Hs; lia.
    + exact Hfirst.
    + exact Hbest.
  - apply orb_false_iff in Hstop. destruct Hstop as [Hs Hmod].
    apply q_ltb_false in Hs. change (d_zero : Q) with 0 in Hs.
    cbn [it_l it_r cond_r cond_l cum_p saved_length retval] in Hs, Hmod.
    change (d_sub sv (edge self tour r)) with (sv - edge self tour r) in *.
    change (d_add cum (pos_value self (r + 1))) with (cum + pos_value self (r + 1)).
    apply mod_neq_between in Hmod; try lia.
    match goal with
    | |- context [improve ?m ?s] =>
        destruct (improve_spec m s) as (Il & Ir & Icr & Icl & Icum & Isv & Ib1 & Ib2 & Irv);
        exists (improve m s)
    end.
    cbn [it_l it_r cond_r cond_l cum_p saved_length retval] in *.
    split; [reflexivity|]. split; [|repeat split; assumption].
    split; [|split; [intros _; rewrite Il; exact Hrun|rewrite Icl; discriminate]].
    constructor; rewrite ?Il, ?Ir, ?Icr, ?Icl, ?Icum, ?Isv.
    + lia.
    + lia.
    + lia.
    + lra.
    + lra.
    + exact Hleft'.
    + apply Hpast'. exact Ib1.
    + intros _. split; [lia|lra].
    + discriminate.
    + lra.
    + destruct Irv as [->|[Ep El]].
      * exact Hbest.
      * exists l, (r + 1)%N. rewrite Ep, El.
        split; [lia|]. split; [lia|]. split; [lia|].
        split; [lra|]. split; [lra|]. left. lra.
Qed.

Lemma value_at_left (l : N) :
  (l < m_n_cities self)%N -> vec_get (m_values self) l = Ok (pos_value self l).
Proof.
  intros H. rewrite <- (value_at_pos l). rewrite N.mod_small by exact H. reflexivity.
Qed.

Lemma search_core_cond_l (b : bool) (st : fcs_state Q) :
  search_core self tour st -> search_core self tour (set_cond_l b st).
Proof. intros []. constructor; assumption. Qed.

(** One step of the left pointer keeps the invariant. *)
Lemma outer_rest_inv (st : fcs_state Q) :
  search_inv self tour st -> cond_r st = false -> cond_l st = true ->
  exists st', outer_rest self tour st = Ok st'
    /\ search_inv self tour st'
    /\ (cond_l st' = true -> it_l st' = (it_l st + 1)%N).
Proof.
  intros (Hcore & Hrun & _) Hcr Hcl.
  pose proof Hcore as Hcore0.
  destruct Hcore as [Hlr Hrl Hln Hsv Hcum Hleft Hpast Hopen Hclosed Hfirst Hbest].
  specialize (Hrun Hcl). destruct (Hclosed Hcr) as [_ Hfull]. clear Hopen.
  destruct st as [l r cr cl cum sv rv].
  cbn [it_l it_r cond_r cond_l cum_p saved_length retval] in *. subst cr cl.
  unfold outer_rest. cbn [it_l it_r cond_r cond_l cum_p saved_length retval].
  destruct (l mod m_n_cities self =? r mod m_n_cities self)%N eqn:Hmod.
  - (* the window has wrapped around, or is empty *)
    eexists. split; [reflexivity|]. split; [|discriminate].
    split; [apply search_core_cond_l; exact Hcore0|].
    split; [discriminate|]. intros _. right. split; [reflexivity|].
    apply mod_eq_cases; assumption.
  - apply mod_neq_between in Hmod; try lia.
    assert (Hadd : SizeT.add l 1 = (l + 1)%N)
      by (unfold SizeT.add; apply sizet_small; lia).
    rewrite Hadd, weight_at_edge. cbn [bind].
    rewrite (value_at_left l Hrun). cbn [bind]. cbv zeta.
    cbn [it_l it_r cond_r cond_l cum_p saved_length retval].
    change (d_sub cum (pos_value self l)) with (cum - pos_value self l).
    change (d_add sv (edge self tour l)) with (sv + edge self tour l).
    pose proof (path_length_left l r ltac:(lia)) as HE.
    pose proof (code_value_left l r ltac:(lia)) as HC.
    specialize (Hfull ltac:(lia)).
    assert (Hleft' : forall l', (l' < l + 1)%N ->
              m_max_path_length self <= path_length self tour l' r).
    { intros l' Hl'. destruct (N.eq_dec l' l) as [->|Hne]; [exact Hfull|].
      apply Hleft. lia. }
    set (st1 := {| it_l := (l + 1)%N; it_r := r; cond_r := false; cond_l := true;
                   cum_p := cum - pos_value self l;
                   saved_length := sv + edge self tour l; retval := rv |}).
    (* the state after the comparison *)
    assert (H2 : exists st2,
              (if d_gtb (saved_length st1) d_zero
               then improve (m_n_cities self) (set_cond_r true st1) else st1) = st2
              /\ search_core self tour st2
              /\ it_l st2 = (l + 1)%N /\ cond_l st2 = true).
    { eexists. split; [reflexivity|].
      destruct (d_gtb (saved_length st1) d_zero) eqn:Hgt.
      - unfold d_gtb in Hgt. apply q_ltb in Hgt. change (d_zero : Q) with 0 in Hgt.
        cbn [st1 saved_length] in Hgt.
        match goal with
        | |- context [improve ?m ?s] =>
            destruct (improve_spec m s) as (Il & Ir & Icr & Icl & Icum & Isv & Ib1 & Ib2 & Irv)
        end.
        cbn [st1 set_cond_r it_l it_r cond_r cond_l cum_p saved_length retval] in *.
        split; [|split; assumption].
        constructor; rewrite ?Il, ?Ir, ?Icr, ?Icl, ?Icum, ?Isv.
        + lia.
        + lia.
        + lia.
        + lra.
        + lra.
        + exact Hleft'.
        + intros l' r' A1 A2 A3 A4 A5. specialize (Hpast l' r' A1 A2 A3 A4 A5). lra.
        + intros _. split; [lia|lra].
        + discriminate.
        + lra.
        + destruct Irv as [->|[Ep El]].
          * exact Hbest.
          * exists (l + 1)%N, r. rewrite Ep, El.
            split; [lia|]. split; [lia|]. split; [lia|].
            split; [lra|]. split; [lra|]. left. lra.
      - unfold d_gtb in Hgt. apply q_ltb_false in Hgt. change (d_zero : Q) with 0 in Hgt.
        cbn [st1 saved_length] in Hgt.
        split; [|split; reflexivity].
        constructor; cbn [st1 it_l it_r cond_r cond_l cum_p saved_length retval].
        + lia.
        + lia.
        + lia.
        + lra.
        + lra.
        + exact Hleft'.
        + exact Hpast.
        + discriminate.
        + intros _. split; [lia|]. intros _. lra.
        + exact Hfirst.
        + exact Hbest. }
    destruct H2 as (st2 & Hst2 & Hcore2 & Hl2 & Hcl2).
    cbn [st1 saved_length] in Hst2. fold st1 in Hst2.
    rewrite Hst2, Hl2.
    destruct (N.eqb_spec (l + 1) (m_n_cities self)) as [He|Hne].
    + eexists. split; [reflexivity|]. split; [|discriminate].
      split; [apply search_core_cond_l; exact Hcore2|].
      split; [discriminate|]. intros _. left.
      destruct st2; cbn [set_cond_l it_l] in *. congruence.
    + exists st2. split; [reflexivity|]. split; [|intros _; exact Hl2].
      split; [exact Hcore2|]. split; [intros _; lia|]. congruence.
Qed.
Lemma inner_loop_inv (fuel : nat) : forall st : fcs_state Q,
  search_inv self tour st -> cond_l st = true ->
  (N.to_nat (it_l st + m_n_cities self - it_r st) <= fuel)%nat ->
  exists st', inner_loop fuel self tour st = Ok st'
    /\ search_inv self tour st'
    /\ cond_r st' = false /\ cond_l st' = true /\ it_l st' = it_l st.
Proof.
  induction fuel as [|fuel IH]; intros st Hinv Hcl Hfuel; simpl.
  - destruct (cond_r st) eqn:Hcr.
    + destruct Hinv as (Hcore & _). destruct (inv_open _ _ _ Hcore Hcr) as [Hr _]. lia.
    + exists st. split; [reflexivity|]. split; [exact Hinv|].
      split; [exact Hcr|]. split; [exact Hcl|reflexivity].
  - destruct (cond_r st) eqn:Hcr.
    + pose proof Hinv as (Hcore & _). destruct (inv_open _ _ _ Hcore Hcr) as [Hr _].
      destruct (inner_body_inv st Hinv Hcr Hcl) as (st1 & -> & Hinv1 & Hl1 & Hr1 & Hcl1).
      cbn [bind].
      destruct (IH st1 Hinv1 Hcl1) as (st' & -> & Hinv' & Hcr' & Hcl' & Hl'); [lia|].
      exists st'. split; [reflexivity|]. split; [exact Hinv'|].
      split; [exact Hcr'|]. split; [exact Hcl'|congruence].
    + exists st. split; [reflexivity|]. split; [exact Hinv|].
      split; [exact Hcr|]. split; [exact Hcl|reflexivity].
Qed.

Lemma outer_loop_inv (fuel : nat) : forall st : fcs_state Q,
  search_inv self tour st ->
  (cond_l st = true -> (N.to_nat (m_n_cities self - it_l st) <= fuel)%nat) ->
  exists st', outer_loop fuel (N.to_nat (m_n_cities self)) self tour st = Ok st'
    /\ search_inv self tour st' /\ cond_l st' = false.
Proof.
  induction fuel as [|fuel IH]; intros st Hinv Hfuel; simpl.
  - destruct (cond_l st) eqn:Hcl.
    + destruct Hinv as (_ & Hrun & _). specialize (Hrun Hcl).
      specialize (Hfuel eq_refl). lia.
    + exists st. split; [reflexivity|]. split; [exact Hinv|exact Hcl].
  - destruct (cond_l st) eqn:Hcl.
    + pose proof Hinv as (Hcore & Hrun & _). specialize (Hrun Hcl).
      specialize (Hfuel eq_refl).
      pose proof (inv_lr _ _ _ Hcore) as Hlr.
      destruct (inner_loop_inv (N.to_nat (m_n_cities self)) st Hinv Hcl)
        as (st1 & -> & Hinv1 & Hcr1 & Hcl1 & Hl1); [lia|].
      cbn [bind].
      destruct (outer_rest_inv st1 Hinv1 Hcr1 Hcl1) as (st2 & -> & Hinv2 & Hl2).
      cbn [bind]. apply IH; [exact Hinv2|].
      intros Hc. specialize (Hl2 Hc). lia.
    + exists st. split; [reflexivity|]. split; [exact Hinv|exact Hcl].
Qed.

(** The search returns, and its last state satisfies the invariant. *)
Lemma find_city_subsequence_inv :
  exists st, find_city_subsequence (N.to_nat (m_n_cities self)) self tour = Ok (retval st)
    /\ search_inv self tour st /\ cond_l st = false.
Proof.
  unfold find_city_subsequence. rewrite Hlen, N.eqb_refl. cbn [negb].
  assert (Hfirst : (t0 <- vec_get tour 0 ;; i0 <- of_option (d_to_size t0) ;;
                    vec_get (m_values self) i0) = Ok (first_value self tour)).
  { unfold first_value.
    pose proof Htour as Ht. unfold tour_in_range in Ht. rewrite Forall_forall in Ht.
    destruct (vec_get_ok tour 0) as (t0 & -> & Ht0); [lia|]. cbn [bind].
    destruct (Ht t0 (nth_error_In _ _ Ht0)) as (i0 & -> & Hi0). cbn [bind of_option].
    destruct Hwf as (_ & _ & Hv).
    destruct (vec_get_ok (m_values self) i0) as (v0 & -> & _); [lia|]. reflexivity. }
  apply bind_ok in Hfirst. destruct Hfirst as (t0 & -> & Hfirst). cbn [bind].
  apply bind_ok in Hfirst. destruct Hfirst as (i0 & -> & Hv0). cbn [bind].
  rewrite Hv0. cbn [bind].
  match goal with
  | |- context [outer_loop ?f ?g self tour ?s] =>
      destruct (outer_loop_inv f s) as (st & -> & Hinv & Hcl)
  end.
  - assert (HE : path_length self tour 0 0 == 0) by (apply seg_sum_empty; lia).
    assert (HC : code_value self tour 0 0 == first_value self tour).
    { unfold code_value. rewrite (seg_sum_right (pos_value self) 0 0) by lia.
      rewrite (seg_sum_empty (pos_value self) 0 0) by lia. lra. }
    split; [|split; [intros _; cbn [it_l]; lia|discriminate]].
    constructor; cbn [it_l it_r cond_r cond_l cum_p saved_length retval retval_p retval_l].
    + lia.
    + lia.
    + lia.
    + lra.
    + lra.
    + intros l' Hl'. lia.
    + intros l' r' _ _ Hr'. lia.
    + intros _. split; [lia|lra].
    + discriminate.
    + lra.
    + exists 0%N, 0%N. repeat split; try lia; try lra.
  - intros _. cbn [it_l]. lia.
  - cbn [bind]. exists st. split; [reflexivity|]. split; [exact Hinv|exact Hcl].
Qed.

(** When the loop has ended, the best value bounds every window that is
    strictly within the budget. *)
Lemma final_dominates (st : fcs_state Q) :
  search_inv self tour st -> cond_l st = false ->
  forall l' r',
    (l' < m_n_cities self)%N -> (l' <= r')%N -> (r' < l' + m_n_cities self)%N ->
    path_length self tour l' r' < m_max_path_length self ->
    code_value self tour l' r' <= retval_p (retval st).
Proof.
  intros (Hcore & _ & Hdone) Hcl l' r' H1 H2 H3 H4.
  destruct Hcore as [Hlr Hrl Hln Hsv Hcum Hleft Hpast Hopen Hclosed Hfirst Hbest].
  destruct (Hdone Hcl) as [Hl|[Hcr [Hr|Hr]]].
  - destruct (N.lt_ge_cases r' (it_r st)) as [Hlt|Hge].
    + apply Hpast; assumption.
    + specialize (Hleft l' ltac:(lia)).
      pose proof (path_length_mono l' l' (it_r st) r' ltac:(lia) ltac:(lia) Hge). lra.
  - destruct (Hclosed Hcr) as [_ Hc]. specialize (Hc ltac:(lia)).
    rewrite Hr in Hc.
    assert (path_length self tour (it_l st) (it_l st) == 0) by (apply seg_sum_empty; lia).
    assert (0 <= path_length self tour l' r') by (apply seg_sum_nonneg, edge_nonneg).
    lra.
  - destruct (Hclosed Hcr) as [Hc _]. specialize (Hc Hr).
    assert (code_value self tour l' r' <= code_value self tour (it_l st) (it_r st - 1)).
    { unfold code_value.
      replace (it_r st - 1 + 1)%N with (it_l st + m_n_cities self)%N by lia.
      pose proof (seg_sum_le_period (pos_value self) pos_value_nonneg (m_n_cities self)
                    pos_value_periodic l' (r' + 1) (it_l st) ltac:(lia) ltac:(lia)).
      lra. }
    lra.
Qed.
End ExactSearch.
(** ** The search does not tell equal rationals apart *)

Section Congruence.
Local Open Scope Q_scope.

Lemma q_ltb_comp (a a' b b' : Q) : a == a' -> b == b' -> d_ltb a b = d_ltb a' b'.
Proof. intros Ha Hb. simpl. rewrite Ha, Hb. reflexivity. Qed.

Lemma q_eqb_comp (a a' b b' : Q) : a == a' -> b == b' -> d_eqb a b = d_eqb a' b'.
Proof. intros Ha Hb. simpl. rewrite Ha, Hb. reflexivity. Qed.

Lemma improve_eqv (m : N) (a b : fcs_state Q) :
  state_eqv a b -> state_eqv (improve m a) (improve m b).
Proof.
  intros (Hl & Hr & Hcr & Hcl & Hcum & Hsv & Hp & Hrl & Hil & Hir).
  unfold improve, d_gtb.
  rewrite (q_ltb_comp _ _ _ _ Hp Hcum), (q_eqb_comp _ _ _ _ Hcum Hp),
    (q_ltb_comp _ _ _ _ Hrl Hsv).
  destruct (d_ltb (retval_p (retval b)) (cum_p b)).
  - unfold state_eqv, update_retvals.
    cbn [it_l it_r cond_r cond_l cum_p saved_length retval retval_p retval_l
         retval_it_l retval_it_r].
    rewrite Hl, Hr. repeat split; assumption.
  - destruct (d_eqb (cum_p b) (retval_p (retval b))).
    + destruct (d_ltb (retval_l (retval b)) (saved_length b)).
      * unfold state_eqv, update_retvals.
        cbn [it_l it_r cond_r cond_l cum_p saved_length retval retval_p retval_l
             retval_it_l retval_it_r].
        rewrite Hl, Hr. repeat split; assumption.
      * repeat split; assumption.
    + repeat split; assumption.
Qed.

Variable self : tsp_cs Q.
Variable tour : list Q.

Lemma inner_body_eqv (a b a' : fcs_state Q) :
  state_eqv a b -> inner_body self tour a = Ok a' ->
  exists b', inner_body self tour b = Ok b' /\ state_eqv a' b'.
Proof.
  intros Heq Hrun. pose proof Heq as (Hl & Hr & Hcr & Hcl & Hcum & Hsv & Hp & Hrl & Hil & Hir).
  unfold inner_body in *. rewrite <- Hl, <- Hr, <- Hcr, <- Hcl.
  apply bind_ok in Hrun. destruct Hrun as (w & -> & Hrun). cbn [bind].
  apply bind_ok in Hrun. destruct Hrun as (v & -> & Hrun). cbn [bind].
  cbv zeta in *. cbn [it_l it_r cond_r cond_l cum_p saved_length retval] in *.
  assert (Hsv' : d_sub (saved_length a) w == d_sub (saved_length b) w)
    by (simpl; rewrite Hsv; reflexivity).
  assert (Hcum' : d_add (cum_p a) v == d_add (cum_p b) v)
    by (simpl; rewrite Hcum; reflexivity).
  assert (Hc : d_ltb (d_sub (saved_length a) w) d_zero
               = d_ltb (d_sub (saved_length b) w) d_zero)
    by (apply q_ltb_comp; [exact Hsv'|reflexivity]).
  rewrite <- Hc.
  match type of Hrun with
  | (if ?c then _ else _) = _ => destruct c
  end; apply ok_inj in Hrun; subst a'; eexists; (split; [reflexivity|]).
  - unfold state_eqv, set_cond_r. cbn [it_l it_r cond_r cond_l cum_p saved_length retval].
    repeat split; assumption.
  - apply improve_eqv. unfold state_eqv.
    cbn [it_l it_r cond_r cond_l cum_p saved_length retval].
    repeat split; assumption.
Qed.

Lemma outer_rest_eqv (a b a' : fcs_state Q) :
  state_eqv a b -> outer_rest self tour a = Ok a' ->
  exists b', outer_rest self tour b = Ok b' /\ state_eqv a' b'.
Proof.
  intros Heq Hrun. pose proof Heq as (Hl & Hr & Hcr & Hcl & Hcum & Hsv & Hp & Hrl & Hil & Hir).
  unfold outer_rest in *. rewrite <- Hl, <- Hr.
  destruct (it_l a mod m_n_cities self =? it_r a mod m_n_cities self)%N.
  - injection Hrun as <-. eexists. split; [reflexivity|].
    unfold state_eqv, set_cond_l. simpl. repeat split; assumption.
  - apply bind_ok in Hrun. destruct Hrun as (w & -> & Hrun). cbn [bind].
    apply bind_ok in Hrun. destruct Hrun as (v & -> & Hrun). cbn [bind].
    apply ok_inj in Hrun. subst a'. eexists. split; [reflexivity|].
    cbv zeta. cbn [it_l it_r cond_r cond_l cum_p saved_length retval].
    assert (Hsv' : d_add (saved_length a) w == d_add (saved_length b) w)
      by (simpl; rewrite Hsv; reflexivity).
    assert (Hcum' : d_sub (cum_p a) v == d_sub (cum_p b) v)
      by (simpl; rewrite Hcum; reflexivity).
    assert (Hc : d_gtb (d_add (saved_length a) w) d_zero
                 = d_gtb (d_add (saved_length b) w) d_zero)
      by (unfold d_gtb; apply q_ltb_comp; [reflexivity|exact Hsv']).
    rewrite <- Hc, <- Hcr, <- Hcl.
    match goal with
    | |- state_eqv (if (it_l ?x =? _)%N then _ else _) (if (it_l ?y =? _)%N then _ else _) =>
        assert (Hxy : state_eqv x y)
    end.
    { match goal with
      | |- context [if ?c then improve _ _ else _] => destruct c
      end.
      - apply improve_eqv. unfold state_eqv, set_cond_r.
        cbn [it_l it_r cond_r cond_l cum_p saved_length retval].
        repeat split; assumption.
      - unfold state_eqv. cbn [it_l it_r cond_r cond_l cum_p saved_length retval].
        repeat split; assumption. }
    pose proof Hxy as (Hl2 & Hrest). rewrite <- Hl2.
    match goal with
    | |- context [(?x =? ?y)%N] => destruct (x =? y)%N
    end.
    + destruct Hrest as (? & ? & ? & ? & ? & ? & ? & ? & ?).
      unfold state_eqv, set_cond_l.
      cbn [it_l it_r cond_r cond_l cum_p saved_length retval].
      repeat split; assumption.
    + exact Hxy.
Qed.

Lemma inner_loop_eqv (fuel : nat) : forall a b a',
  state_eqv a b -> inner_loop fuel self tour a = Ok a' ->
  exists b', inner_loop fuel self tour b = Ok b' /\ state_eqv a' b'.
Proof.
  induction fuel as [|fuel IH]; intros a b a' Heq Hrun; simpl in *;
    pose proof Heq as (_ & _ & Hcr & _); rewrite <- Hcr;
    destruct (cond_r a); try discriminate;
    try (injection Hrun as <-; exists b; split; [reflexivity|exact Heq]).
  apply bind_ok in Hrun. destruct Hrun as (a1 & H1 & Hrun).
  destruct (inner_body_eqv a b a1 Heq H1) as (b1 & -> & Heq1). cbn [bind].
  apply (IH a1 b1 a' Heq1 Hrun).
Qed.

Lemma outer_loop_eqv (fuel inner_fuel : nat) : forall a b a',
  state_eqv a b -> outer_loop fuel inner_fuel self tour a = Ok a' ->
  exists b', outer_loop fuel inner_fuel self tour b = Ok b' /\ state_eqv a' b'.
Proof.
  induction fuel as [|fuel IH]; intros a b a' Heq Hrun; simpl in *;
    pose proof Heq as (_ & _ & _ & Hcl & _); rewrite <- Hcl;
    destruct (cond_l a); try discriminate;
    try (injection Hrun as <-; exists b; split; [reflexivity|exact Heq]).
  apply bind_ok in Hrun. destruct Hrun as (a1 & H1 & Hrun).
  apply bind_ok in Hrun. destruct Hrun as (a2 & H2 & Hrun).
  destruct (inner_loop_eqv inner_fuel a b a1 Heq H1) as (b1 & -> & Heq1). cbn [bind].
  destruct (outer_rest_eqv a1 b1 a2 Heq1 H2) as (b2 & -> & Heq2). cbn [bind].
  apply (IH a2 b2 a' Heq2 Hrun).
Qed.
End Congruence.
(** ** Two instances that differ in the budget only *)

Section Budget.
Local Open Scope Q_scope.
Variables self1 self2 : tsp_cs Q.
Variable tour : list Q.
Hypothesis same_cities : m_n_cities self2 = m_n_cities self1.
Hypothesis same_weights : m_weights self2 = m_weights self1.
Hypothesis same_values : m_values self2 = m_values self1.

Lemma weight_at_budget (p q : N) :
  weight_at self2 tour p q = weight_at self1 tour p q.
Proof. unfold weight_at. rewrite same_weights. reflexivity. Qed.

Lemma edge_budget (p : N) : edge self2 tour p = edge self1 tour p.
Proof. unfold edge. rewrite same_cities, weight_at_budget. reflexivity. Qed.

Lemma pos_value_budget (p : N) : pos_value self2 p = pos_value self1 p.
Proof. unfold pos_value. rewrite same_cities, same_values. reflexivity. Qed.

Lemma first_value_budget : first_value self2 tour = first_value self1 tour.
Proof. unfold first_value. rewrite same_values. reflexivity. Qed.

Lemma path_length_budget (l r : N) :
  path_length self2 tour l r = path_length self1 tour l r.
Proof. unfold path_length. apply seg_sum_ext, edge_budget. Qed.

Lemma code_value_budget (l r : N) :
  code_value self2 tour l r = code_value self1 tour l r.
Proof.
  unfold code_value.
  rewrite first_value_budget, pos_value_budget.
  rewrite (seg_sum_ext (pos_value self2) (pos_value self1) pos_value_budget).
  reflexivity.
Qed.

Lemma inner_body_budget (st : fcs_state Q) :
  inner_body self2 tour st = inner_body self1 tour st.
Proof.
  unfold inner_body. rewrite same_cities, same_values, weight_at_budget. reflexivity.
Qed.

Lemma outer_rest_budget (st : fcs_state Q) :
  outer_rest self2 tour st = outer_rest self1 tour st.
Proof.
  unfold outer_rest. rewrite same_cities, same_values, weight_at_budget. reflexivity.
Qed.

Lemma inner_loop_budget (fuel : nat) : forall st : fcs_state Q,
  inner_loop fuel self2 tour st = inner_loop fuel self1 tour st.
Proof.
  induction fuel as [|fuel IH]; intros st; cbn [inner_loop]; [reflexivity|].
  rewrite inner_body_budget.
  destruct (cond_r st); [|reflexivity].
  destruct (inner_body self1 tour st); cbn [bind]; auto.
Qed.

Lemma outer_loop_budget (fuel inner_fuel : nat) : forall st : fcs_state Q,
  outer_loop fuel inner_fuel self2 tour st = outer_loop fuel inner_fuel self1 tour st.
Proof.
  induction fuel as [|fuel IH]; intros st; cbn [outer_loop]; [reflexivity|].
  rewrite inner_loop_budget.
  destruct (cond_l st); [|reflexivity].
  destruct (inner_loop inner_fuel self1 tour st) as [st1| | | |]; cbn [bind]; auto.
  rewrite outer_rest_budget.
  destruct (outer_rest self1 tour st1); cbn [bind]; auto.
Qed.

(** Budgets that are equal as rationals give the same best value. *)
Lemma find_city_subsequence_budget_eq (fuel : nat) (r1 : subsequence Q) :
  m_max_path_length self1 == m_max_path_length self2 ->
  find_city_subsequence fuel self1 tour = Ok r1 ->
  exists r2, find_city_subsequence fuel self2 tour = Ok r2
             /\ retval_p r1 == retval_p r2.
Proof.
  intros HL Hrun. unfold find_city_subsequence in *.
  rewrite same_cities, same_values.
  destruct (negb (vec_size tour =? m_n_cities self1)%N); [discriminate|].
  apply bind_ok in Hrun. destruct Hrun as (t0 & -> & Hrun). cbn [bind].
  apply bind_ok in Hrun. destruct Hrun as (i0 & -> & Hrun). cbn [bind].
  apply bind_ok in Hrun. destruct Hrun as (v0 & -> & Hrun). cbn [bind].
  cbv zeta in *.
  apply bind_ok in Hrun. destruct Hrun as (s1 & Hloop & Hrun).
  apply ok_inj in Hrun. subst r1.
  rewrite outer_loop_budget.
  match type of Hloop with
  | outer_loop _ _ _ _ ?a = _ =>
      match goal with
      | |- context [outer_loop _ _ self1 tour ?s] =>
          assert (Heq0 : state_eqv a s)
      end
  end.
  { unfold state_eqv.
    cbn [it_l it_r cond_r cond_l cum_p saved_length retval retval_p retval_l
         retval_it_l retval_it_r].
    repeat split; try reflexivity; exact HL. }
  destruct (outer_loop_eqv self1 tour fuel fuel _ _ s1 Heq0 Hloop) as (s2 & -> & Heq).
  cbn [bind]. eexists. split; [reflexivity|].
  destruct Heq as (_ & _ & _ & _ & _ & _ & Hp & _). exact Hp.
Qed.
End Budget.

(** ** What the search returns, in exact arithmetic *)

Section Bounds.
Local Open Scope Q_scope.
Variable self : tsp_cs Q.
Variable tour : list Q.

(** On an instance whose weights and values are all non-negative, the
    search returns; the value it returns is at least the value the code
    computes for every window whose length is strictly below the budget,
    and it is the value the code computes for a window [bl, ..., br] whose
    length is within the budget, or for the window of the first position
    alone. *)
Theorem best_value_bounds_windows :
  well_formed self ->
  (1 <= m_n_cities self)%N ->
  (2 * m_n_cities self <= SizeT.modulus)%N ->
  vec_size tour = m_n_cities self ->
  tour_in_range (m_n_cities self) tour ->
  nonnegative self ->
  exists r,
    find_city_subsequence (N.to_nat (m_n_cities self)) self tour = Ok r
    /\ (forall l' r' : N,
          (l' < m_n_cities self)%N -> (l' <= r')%N ->
          (r' < l' + m_n_cities self)%N ->
          path_length self tour l' r' < m_max_path_length self ->
          code_value self tour l' r' <= retval_p r)
    /\ (exists bl br : N,
          (bl <= br)%N /\ (br < bl + m_n_cities self)%N
          /\ retval_p r == code_value self tour bl br
          /\ retval_l r == m_max_path_length self - path_length self tour bl br
          /\ (path_length self tour bl br <= m_max_path_length self
              \/ (bl = 0%N /\ br = 0%N))).
Proof.
  intros Hwf Hn Hfit Hlen Htour Hpos.
  destruct (find_city_subsequence_inv self tour Hwf Hn Hfit Hlen Htour Hpos)
    as (st & Hrun & Hinv & Hcl).
  exists (retval st). split; [exact Hrun|]. split.
  - exact (final_dominates self tour Hn Hfit Hlen Hpos st Hinv Hcl).
  - destruct Hinv as (Hcore & _).
    destruct (inv_best _ _ _ Hcore) as (bl & br & _ & Hb2 & Hb3 & Hbv & Hbl & Hfitb).
    exists bl, br. repeat split; assumption.
Qed.
End Bounds.

(** ** Monotonicity in the budget *)

Section Monotone.
Local Open Scope Q_scope.
Variables self1 self2 : tsp_cs Q.
Variable tour : list Q.

(** C6, amended: in exact arithmetic, on an instance whose weights and
    values are all non-negative, a larger budget never gives a smaller best
    value.  [self1] and [self2] are two instances with the same cities,
    weights and values; the budget of [self2] is at least that of [self1].
    Both searches return, and the value of the second is at least the
    value of the first. *)
Theorem best_value_monotone_in_budget :
  well_formed self1 ->
  (1 <= m_n_cities self1)%N ->
  (2 * m_n_cities self1 <= SizeT.modulus)%N ->
  vec_size tour = m_n_cities self1 ->
  tour_in_range (m_n_cities self1) tour ->
  nonnegative self1 ->
  m_n_cities self2 = m_n_cities self1 ->
  m_weights self2 = m_weights self1 ->
  m_values self2 = m_values self1 ->
  m_max_path_length self1 <= m_max_path_length self2 ->
  exists r1 r2,
    find_city_subsequence (N.to_nat (m_n_cities self1)) self1 tour = Ok r1
    /\ find_city_subsequence (N.to_nat (m_n_cities self1)) self2 tour = Ok r2
    /\ retval_p r1 <= retval_p r2.
Proof.
  intros Hwf Hn Hfit Hlen Htour Hpos Hsn Hsw Hsv HL.
  assert (Hwf2 : well_formed self2).
  { unfold well_formed in *. rewrite Hsn, Hsw, Hsv. exact Hwf. }
  assert (Hpos2 : nonnegative self2).
  { unfold nonnegative in *. rewrite Hsw, Hsv. exact Hpos. }
  destruct (find_city_subsequence_inv self1 tour Hwf Hn Hfit Hlen Htour Hpos)
    as (st1 & Hrun1 & Hinv1 & Hcl1).
  pose proof Hn as Hn2. pose proof Hfit as Hfit2. pose proof Hlen as Hlen2.
  pose proof Htour as Htour2. rewrite <- Hsn in Hn2, Hfit2, Hlen2, Htour2.
  destruct (find_city_subsequence_inv self2 tour Hwf2 Hn2 Hfit2 Hlen2 Htour2 Hpos2)
    as (st2 & Hrun2 & Hinv2 & Hcl2).
  rewrite Hsn in Hrun2.
  destruct (Qlt_le_dec (m_max_path_length self1) (m_max_path_length self2)) as [Hlt|Hge].
  - exists (retval st1), (retval st2). split; [exact Hrun1|]. split; [exact Hrun2|].
    assert (Hdom : forall l' r',
               (l' < m_n_cities self1)%N -> (l' <= r')%N ->
               (r' < l' + m_n_cities self1)%N ->
               path_length self1 tour l' r' < m_max_path_length self2 ->
               code_value self1 tour l' r' <= retval_p (retval st2)).
    { intros l' r' H1 H2 H3 H4.
      rewrite <- (code_value_budget self1 self2 tour Hsn Hsv).
      rewrite <- (path_length_budget self1 self2 tour Hsn Hsw) in H4.
      apply (final_dominates self2 tour Hn2 Hfit2 Hlen2 Hpos2 st2 Hinv2 Hcl2);
        rewrite ?Hsn; assumption. }
    assert (Hfirst2 : code_value self1 tour 0 0 <= retval_p (retval st2)).
    { rewrite <- (code_value_budget self1 self2 tour Hsn Hsv).
      destruct Hinv2 as (Hcore2 & _). exact (inv_first _ _ _ Hcore2). }
    destruct Hinv1 as (Hcore1 & _).
    destruct (inv_best _ _ _ Hcore1) as (bl & br & Hb1 & Hb2 & Hb3 & Hbv & _ & Hfitb).
    rewrite Hbv.
    destruct Hfitb as [Hfitb|(-> & ->)]; [|exact Hfirst2].
    destruct (N.eq_dec bl (m_n_cities self1)) as [Heq|Hne].
    + subst bl.
      assert (Hshift : code_value self1 tour (m_n_cities self1) br
                       == code_value self1 tour 0 (br - m_n_cities self1)).
      { unfold code_value.
        pose proof (seg_sum_shift (pos_value self1) (m_n_cities self1)
                      (pos_value_periodic self1 tour Hn Hfit Hlen)
                      0%N (br - m_n_cities self1 + 1)%N) as Hs.
        replace (br - m_n_cities self1 + 1 + m_n_cities self1)%N with (br + 1)%N in Hs by lia.
        rewrite N.add_0_l in Hs. rewrite Hs. reflexivity. }
      assert (Hshift' : path_length self1 tour (m_n_cities self1) br
                        == path_length self1 tour 0 (br - m_n_cities self1)).
      { unfold path_length.
        pose proof (seg_sum_shift (edge self1 tour) (m_n_cities self1)
                      (edge_periodic self1 tour Hn Hfit Hlen)
                      0%N (br - m_n_cities self1)%N) as Hs.
        replace (br - m_n_cities self1 + m_n_cities self1)%N with br in Hs by lia.
        rewrite N.add_0_l in Hs. rewrite Hs. reflexivity. }
      rewrite Hshift. apply Hdom; try lia. rewrite <- Hshift'. lra.
    + apply Hdom; try lia. lra.
  - destruct (find_city_subsequence_budget_eq self1 self2 tour Hsn Hsw Hsv
                (N.to_nat (m_n_cities self1)) (retval st1)) as (r2 & Hr2 & Hp).
    + lra.
    + exact Hrun1.
    + exists (retval st1), r2. split; [exact Hrun1|]. split; [exact Hr2|]. lra.
Qed.
End Monotone.

(** ** The default instance *)

(** C5: on the default instance (three cities, every edge of weight 1,
    every value 1, budget 1) and the tour [0, 1, 2], the search returns the
    value 2 and the remaining budget 0, the window of the first two cities,
    and the fitness is -(2 + (1 - 1) * 3 + 0 / 1) = -2; the same holds of
    the instance with these data under the CITIES encoding, where the
    chromosome is the tour. *)
Theorem default_instance_fitness
    (full2cities randomkeys2cities : tsp_cs float -> list float -> outcome (list float))
    (x : list float) (f0 : float) :
  randomkeys2cities default_tsp_cs x = Ok [0; 1; 2]%float ->
  find_city_subsequence 3 default_tsp_cs [0; 1; 2]%float
  = Ok {| retval_p := 2%float; retval_l := 0%float;
          retval_it_l := 0; retval_it_r := 1 |}
  /\ objfun_impl full2cities randomkeys2cities 3 default_tsp_cs [f0] x
     = Ok [(-2)%float]
  /\ objfun_impl full2cities randomkeys2cities 3 default_cities [f0] [0; 1; 2]%float
     = Ok [(-2)%float]
  /\ (- (2 + (1 - 1) * 3 + 0 / 1) = -2)%float.
Proof.
  intros Hdec. split; [vm_compute; reflexivity|]. split; [|split].
  - unfold objfun_impl. simpl. rewrite Hdec. vm_compute. reflexivity.
  - vm_compute. reflexivity.
  - reflexivity.
Qed.

Lemma default_instance_fitness_witness :
  find_city_subsequence 3 default_tsp_cs [0; 1; 2]%float
  = Ok {| retval_p := 2%float; retval_l := 0%float;
          retval_it_l := 0; retval_it_r := 1 |}
  /\ objfun_impl (fun _ x => Ok x) (fun _ _ => Ok [0; 1; 2]%float) 3
       default_tsp_cs [0%float] [0.25; 0.5; 0.75]%float
     = Ok [(-2)%float]
  /\ objfun_impl (fun _ x => Ok x) (fun _ _ => Ok [0; 1; 2]%float) 3
       default_cities [0%float] [0; 1; 2]%float
     = Ok [(-2)%float]
  /\ (- (2 + (1 - 1) * 3 + 0 / 1) = -2)%float.
Proof.
  apply (default_instance_fitness (fun _ x => Ok x) (fun _ _ => Ok [0; 1; 2]%float)).
  reflexivity.
Defined.

(** ** Witnesses *)

Lemma compute_idx_bijective_witness :
  (forall i j, i <> j -> (i < 3)%N -> (j < 3)%N ->
     exists k, compute_idx i j 3 = Ok k
               /\ k = (i * (3 - 1) + j - (if (i <? j)%N then 1 else 0))%N
               /\ (k < 3 * (3 - 1))%N)
  /\ (forall i j i' j' k,
        compute_idx i j 3 = Ok k -> compute_idx i' j' 3 = Ok k -> i = i' /\ j = j')
  /\ (forall k, (k < 3 * (3 - 1))%N -> exists i j, compute_idx i j 3 = Ok k)
  /\ (forall (D : Type) (x : list D), vec_size x = (3 * (3 - 1))%N ->
      forall i j, i <> j -> (i < 3)%N -> (j < 3)%N ->
        exists k v, compute_idx i j 3 = Ok k /\ vec_get x k = Ok v).
Proof.
  apply (compute_idx_bijective 3).
  - intros H. discriminate H.
  - intros H. discriminate H.
Defined.

Lemma default_well_formed : well_formed (@default_tsp_cs float binary64).
Proof. repeat split; repeat constructor. Qed.

Lemma find_city_subsequence_terminates_witness :
  exists r, find_city_subsequence 3 (@default_tsp_cs float binary64) [0; 1; 2]%float = Ok r.
Proof.
  apply (find_city_subsequence_terminates default_tsp_cs [0; 1; 2]%float).
  - exact default_well_formed.
  - intros H. discriminate H.
  - intros H. discriminate H.
  - reflexivity.
  - repeat constructor.
    + exists 0%N. split; reflexivity.
    + exists 1%N. split; reflexivity.
    + exists 2%N. split; reflexivity.
Defined.

Lemma cities_constraint_iff_permutation_witness :
  exists v, compute_constraints_impl default_cities [7%float] [0; 1; 2]%float = Ok [v]
    /\ (is_permutation_of_range [0; 1; 2]%float 3 -> v = d_zero)
    /\ (~ is_permutation_of_range [0; 1; 2]%float 3 -> v = d_one)
    /\ (d_eqb v d_zero = true <-> is_permutation_of_range [0; 1; 2]%float 3).
Proof.
  apply (cities_constraint_iff_permutation default_cities 7%float [0; 1; 2]%float);
    reflexivity.
Defined.

(** The two chromosomes of the specification's example. *)
Lemma cities_constraint_examples :
  compute_constraints_impl default_cities [7%float] [0; 1; 2]%float = Ok [0%float]
  /\ compute_constraints_impl default_cities [7%float] [0; 0; 2]%float = Ok [1%float]
  /\ is_permutation_of_range [0; 1; 2]%float 3
  /\ ~ is_permutation_of_range [0; 0; 2]%float 3.
Proof.
  split; [vm_compute; reflexivity|]. split; [vm_compute; reflexivity|]. split.
  - apply (std_is_permutation_range [0; 1; 2]%float 3). vm_compute. reflexivity.
  - intros H. apply (std_is_permutation_range [0; 0; 2]%float 3) in H.
    vm_compute in H. discriminate H.
Qed.

Lemma accepted_weights_and_window_length_witness :
  weights_ok (m_weights three_cities)
  /\ (Forall (Forall (fun v => d_leb d_zero v = true)) (m_weights three_cities) ->
      forall (l : N) (k : nat) (a b : float),
        spec_window_length three_cities [0; 1; 2]%float l k = Ok a ->
        spec_window_length three_cities [0; 1; 2]%float l (S k) = Ok b ->
        d_leb d_zero a = true /\ d_leb a b = true).
Proof.
  apply (accepted_weights_and_window_length three_cities [0; 1; 2]%float).
  reflexivity.
Defined.

Lemma two_cities_well_formed (budget : Q) : well_formed (two_cities_budget budget).
Proof. repeat split; repeat constructor. Qed.

Lemma two_cities_tour : tour_in_range 2 [0; 1]%Q.
Proof.
  repeat constructor.
  - exists 0%N. split; reflexivity.
  - exists 1%N. split; reflexivity.
Qed.

Lemma two_cities_nonnegative (budget : Q) : nonnegative (two_cities_budget budget).
Proof. split; repeat constructor; intros H; discriminate H. Qed.

Lemma best_value_monotone_in_budget_witness :
  exists r1 r2,
    find_city_subsequence 2 (two_cities_budget 1) [0; 1]%Q = Ok r1
    /\ find_city_subsequence 2 (two_cities_budget 2) [0; 1]%Q = Ok r2
    /\ (retval_p r1 <= retval_p r2)%Q.
Proof.
  apply (best_value_monotone_in_budget (two_cities_budget 1) (two_cities_budget 2)
           [0; 1]%Q).
  - exact (two_cities_well_formed 1).
  - intros H. discriminate H.
  - intros H. discriminate H.
  - reflexivity.
  - exact two_cities_tour.
  - exact (two_cities_nonnegative 1).
  - reflexivity.
  - reflexivity.
  - reflexivity.
  - intros H. discriminate H.
Defined.

Lemma best_value_bounds_windows_witness :
  exists r,
    find_city_subsequence 2 two_cities_exact [0; 1]%Q = Ok r
    /\ (forall l' r' : N,
          (l' < 2)%N -> (l' <= r')%N -> (r' < l' + 2)%N ->
          (path_length two_cities_exact [0; 1]%Q l' r' < 1)%Q ->
          (code_value two_cities_exact [0; 1]%Q l' r' <= retval_p r)%Q)
    /\ (exists bl br : N,
          (bl <= br)%N /\ (br < bl + 2)%N
          /\ (retval_p r == code_value two_cities_exact [0; 1]%Q bl br)%Q
          /\ (retval_l r == 1 - path_length two_cities_exact [0; 1]%Q bl br)%Q
          /\ ((path_length two_cities_exact [0; 1]%Q bl br <= 1)%Q
              \/ (bl = 0%N /\ br = 0%N))).
Proof.
  apply (best_value_bounds_windows two_cities_exact [0; 1]%Q).
  - exact (two_cities_well_formed 1).
  - intros H. discriminate H.
  - intros H. discriminate H.
  - reflexivity.
  - exact two_cities_tour.
  - exact (two_cities_nonnegative 1).
Defined.


(** ** What the constructor and the validator do *)

Section Constructor.
Context {D : Type} {ops : DoubleOps D}.

(** An instance that the constructor returns holds the arguments as they
    were given, its sizes agree, its weights passed [check_weights], and
    [m_min_value] is the first of the values. *)
Theorem make_tsp_cs_result (weights : list (list D)) (values : list D)
    (max_path_length : D) (encoding : encoding_type) (self : tsp_cs D) :
  make_tsp_cs weights values max_path_length encoding = Ok self ->
  well_formed self
  /\ weights_ok weights
  /\ m_weights self = weights /\ m_values self = values
  /\ m_max_path_length self = max_path_length /\ m_encoding self = encoding
  /\ nth_error values 0 = Some (m_min_value self).
Proof.
  unfold make_tsp_cs. intros H.
  apply bind_ok in H. destruct H as ([] & Hcheck & H).
  destruct (N.eqb_spec (vec_size weights) (vec_size values)) as [Hsz|]; simpl in H;
    [|discriminate].
  apply bind_ok in H. destruct H as (mv & Hmv & H). injection H as <-. simpl.
  pose proof (check_weights_ok weights Hcheck) as Hok.
  assert (Hmin : std_min_iterator 0 (vec_size values) = 0%N).
  { unfold std_min_iterator. destruct (N.ltb_spec (vec_size values) 0); [lia|reflexivity]. }
  rewrite Hmin in Hmv. apply vec_get_inv in Hmv. simpl in Hmv.
  repeat split; try reflexivity; try exact Hmv; try apply Hok.
  symmetry. exact Hsz.
Qed.

(** [check_weights] accepts exactly the square matrices with a zero
    diagonal and no zero elsewhere; a NaN off the diagonal is not zero. *)
Theorem check_weights_accepts_iff `{!CompareLaws D} (matrix : list (list D)) :
  check_weights matrix = Ok tt <-> weights_ok matrix.
Proof. split; [apply check_weights_ok|apply weights_ok_check]. Qed.

(** On one city the search returns the city's value and the whole budget. *)
Theorem single_city_search (self : tsp_cs D) (t0 : D) (fuel : nat) :
  m_n_cities self = 1%N -> well_formed self -> d_to_size t0 = Some 0%N ->
  exists v,
    nth_error (m_values self) 0 = Some v
    /\ find_city_subsequence (S fuel) self [t0] = Ok
         {| retval_p := v; retval_l := m_max_path_length self;
            retval_it_l := 0; retval_it_r := 0 |}.
Proof.
  intros Hn (Hw & Hrows & Hv) Ht0.
  rewrite Forall_forall in Hrows.
  destruct (vec_get_ok (m_values self) 0) as (v & Hget & Hnth); [lia|].
  destruct (vec_get_ok (m_weights self) 0) as (row & Hrow & Hrown); [lia|].
  destruct (vec_get_ok row 0) as (w & Hw0 & _);
    [rewrite (Hrows row (nth_error_In _ _ Hrown)); lia|].
  exists v. split; [exact Hnth|].
  assert (Hbody : forall st, it_r st = 0%N -> it_l st = 0%N ->
            exists st', inner_body self [t0] st = Ok st'
                        /\ cond_r st' = false /\ cond_l st' = cond_l st
                        /\ it_l st' = 0%N /\ it_r st' = 1%N /\ retval st' = retval st).
  { intros st Hr Hl. unfold inner_body, weight_at. rewrite Hn, Hr, Hl.
    change (SizeT.add 0 1 mod 1)%N with 0%N. change (0 mod 1)%N with 0%N.
    change (vec_get [t0] 0) with (Ok t0).
    cbn [bind]. rewrite Ht0. cbn [bind of_option]. rewrite Hrow. cbn [bind].
    rewrite Hw0. cbn [bind]. rewrite Hget. cbn [bind].
    cbn [it_l it_r]. change (SizeT.add 0 1 mod 1)%N with 0%N.
    change (0 mod 1)%N with 0%N. rewrite N.eqb_refl, orb_true_r.
    eexists. split; [reflexivity|]. repeat split. }
  unfold find_city_subsequence. rewrite Hn.
  change (negb (vec_size [t0] =? 1)%N) with false. cbv iota.
  change (vec_get [t0] 0) with (Ok t0). cbn [bind]. rewrite Ht0. cbn [bind of_option].
  rewrite Hget. cbn [bind].
  cbn [outer_loop cond_l inner_loop cond_r].
  match goal with
  | |- context [inner_body self [t0] ?s] =>
      destruct (Hbody s eq_refl eq_refl) as (st1 & Hst1 & Hcr & Hcl & Hl1 & Hr1 & Hret)
  end.
  rewrite Hst1. cbn [bind].
  assert (Hin : inner_loop fuel self [t0] st1 = Ok st1)
    by (destruct fuel; simpl; rewrite Hcr; reflexivity).
  rewrite Hin. cbn [bind].
  unfold outer_rest. rewrite Hn, Hl1, Hr1.
  change (0 mod 1 =? 1 mod 1)%N with true. cbv iota. cbn [bind].
  assert (Hout : forall st, cond_l st = false ->
            outer_loop fuel (S fuel) self [t0] st = Ok st)
    by (intros st Hc; destruct fuel; simpl; rewrite Hc; reflexivity).
  rewrite Hout by reflexivity. cbn [bind]. simpl. rewrite Hret. reflexivity.
Qed.
End Constructor.

Lemma make_tsp_cs_result_witness :
  well_formed (triangle 2 1 3 1)
  /\ weights_ok unit_weights
  /\ m_weights (triangle 2 1 3 1) = unit_weights
  /\ m_values (triangle 2 1 3 1) = [2; 1; 3]%float
  /\ m_max_path_length (triangle 2 1 3 1) = 1%float
  /\ m_encoding (triangle 2 1 3 1) = CITIES
  /\ nth_error [2; 1; 3]%float 0 = Some (m_min_value (triangle 2 1 3 1)).
Proof.
  apply (make_tsp_cs_result unit_weights [2; 1; 3]%float 1%float CITIES).
  vm_compute. reflexivity.
Defined.

Lemma check_weights_accepts_iff_witness :
  check_weights nan_weights = Ok tt <-> weights_ok nan_weights.
Proof. exact (check_weights_accepts_iff nan_weights). Defined.

Lemma single_city_search_witness :
  exists v,
    nth_error [5%float] 0 = Some v
    /\ find_city_subsequence 1
         {| m_n_cities := 1; m_encoding := CITIES; m_weights := [[0%float]];
            m_values := [5%float]; m_max_path_length := 3%float;
            m_min_value := 5%float |} [0%float]
       = Ok {| retval_p := v; retval_l := 3%float;
               retval_it_l := 0; retval_it_r := 0 |}.
Proof.
  apply (single_city_search
           {| m_n_cities := 1; m_encoding := CITIES; m_weights := [[0%float]];
              m_values := [5%float]; m_max_path_length := 3%float;
              m_min_value := 5%float |} 0%float 0).
  - reflexivity.
  - repeat split; repeat constructor.
  - reflexivity.
Defined.

(** C8 on a run: the constraints of the FULL encoding on the tour
    0 -> 1 -> 2 -> 0, from a vector of eight entries 9, and again from the
    result. *)
Lemma evaluation_is_repeatable_example :
  call_constraints [1; 0; 0; 1; 1; 0]%float (default_full, repeat 9%float 8)
  = Ok (default_full, [0; 0; 0; 0; 0; 0; 0; -2]%float)
  /\ call_constraints [1; 0; 0; 1; 1; 0]%float
       (default_full, [0; 0; 0; 0; 0; 0; 0; -2]%float)
     = Ok (default_full, [0; 0; 0; 0; 0; 0; 0; -2]%float)
  /\ call_objfun (fun _ x => Ok x) (fun _ x => Ok x) 3 [0; 1; 2]%float
       (default_cities, [9%float])
     = Ok (default_cities, [(-2)%float]).
Proof. repeat split; vm_compute; reflexivity. Qed.
(** ** Errors of the validator and of the constructor *)

Lemma for_each_unit_cases {A : Type} (xs : list A) (body : A -> unit -> outcome unit) :
  for_each xs body tt = Ok tt
  \/ exists x, In x xs /\ for_each xs body tt = body x tt /\ body x tt <> Ok tt.
Proof.
  induction xs as [|x xs IH]; simpl.
  - left. reflexivity.
  - destruct (body x tt) as [[]| | | |] eqn:E; simpl.
    + destruct IH as [IH|(y & Hy & Hrun & Hne)].
      * left. exact IH.
      * right. exists y. split; [right; exact Hy|]. split; assumption.
    + right. exists x. split; [left; reflexivity|]. rewrite E. split; [reflexivity|discriminate].
    + right. exists x. split; [left; reflexivity|]. rewrite E. split; [reflexivity|discriminate].
    + right. exists x. split; [left; reflexivity|]. rewrite E. split; [reflexivity|discriminate].
    + right. exists x. split; [left; reflexivity|]. rewrite E. split; [reflexivity|discriminate].
Qed.

Section ValidatorErrors.
Context {D : Type} {ops : DoubleOps D}.

Lemma check_cell_outcome `{!CompareLaws D} (i j : N) (v : D) :
  check_weights_outcome (check_cell i j v).
Proof.
  unfold check_weights_outcome, check_cell, d_not, d_neb.
  destruct (i =? j)%N; simpl.
  - destruct (d_eqb v d_zero); simpl; tauto.
  - destruct (d_eqb v d_zero) eqn:E; simpl; [tauto|].
    unfold d_of_bool. simpl. fold (@d_zero D ops).
    rewrite d_eqb_sym, E. tauto.
Qed.

Lemma check_row_outcome `{!CompareLaws D} (matrix : list (list D)) (i : N) :
  (i < vec_size matrix)%N ->
  check_weights_outcome (check_row matrix (vec_size matrix) i).
Proof.
  intros Hi. destruct (vec_get_ok matrix i Hi) as (row & _ & Hrow).
  unfold check_row, vec_at. rewrite Hrow. cbn [bind].
  destruct (negb (vec_size row =? vec_size matrix)%N).
  - right. left. reflexivity.
  - match goal with
    | |- check_weights_outcome (for_each ?xs ?body tt) =>
        destruct (for_each_unit_cases xs body) as [->|(j & Hj & -> & _)]
    end.
    + left. reflexivity.
    + apply range_In in Hj.
      destruct (vec_get_ok row j (proj2 Hj)) as (v & _ & Hv).
      rewrite Hv. cbn [bind]. apply check_cell_outcome.
Qed.

(** [check_weights] returns or throws one of three [value_error]s: it
    never throws [std::out_of_range] from [at()], and the error of the
    NaN test is never thrown. *)
Theorem check_weights_outcomes `{!CompareLaws D} (matrix : list (list D)) :
  check_weights_outcome (check_weights matrix).
Proof.
  unfold check_weights.
  match goal with
  | |- check_weights_outcome (for_each ?xs ?body tt) =>
      destruct (for_each_unit_cases xs body) as [->|(i & Hi & -> & _)]
  end.
  - left. reflexivity.
  - apply range_In in Hi. apply check_row_outcome. apply Hi.
Qed.

(** The constructor, with the constructor of the base class as a
    parameter.  An exception of the base class leaves the constructor
    before [check_weights] runs.  When the base class has been built: on
    weights that [check_weights] accepts and as many values, at least one,
    the constructor returns, and the instance holds its arguments and the
    first value as [m_min_value]; on accepted weights and another number
    of values it throws; on no city at all, [std::min] returns [end()] of
    the empty vector, and reading through it is undefined. *)
Theorem constructor_outcomes `{!CompareLaws D}
    (base_tsp : N -> Z -> Z -> encoding_type -> outcome unit)
    (weights : list (list D)) (values : list D)
    (max_path_length : D) (encoding : encoding_type) :
  (forall e,
     base_tsp (vec_size weights)
       (fst (compute_dimensions (vec_size weights) encoding))
       (snd (compute_dimensions (vec_size weights) encoding)) encoding = Throw e ->
     construct_tsp_cs base_tsp weights values max_path_length encoding = Throw e)
  /\ (base_tsp (vec_size weights)
        (fst (compute_dimensions (vec_size weights) encoding))
        (snd (compute_dimensions (vec_size weights) encoding)) encoding = Ok tt ->
      weights_ok weights ->
      (forall v0 rest, values = v0 :: rest -> vec_size weights = vec_size values ->
         construct_tsp_cs base_tsp weights values max_path_length encoding
         = Ok {| m_n_cities := vec_size weights; m_encoding := encoding;
                 m_weights := weights; m_values := values;
                 m_max_path_length := max_path_length; m_min_value := v0 |})
      /\ (vec_size weights <> vec_size values ->
          construct_tsp_cs base_tsp weights values max_path_length encoding
          = Throw (value_error "Size of weight matrix and values vector must be equal"))
      /\ (weights = [] -> values = [] ->
          construct_tsp_cs base_tsp weights values max_path_length encoding
          = Undefined)).
Proof.
  unfold construct_tsp_cs. split.
  - intros e ->. reflexivity.
  - intros -> Hok. cbn [bind].
    pose proof (weights_ok_check weights Hok) as Hcheck.
    unfold make_tsp_cs. rewrite Hcheck. cbn [bind]. split; [|split].
    + intros v0 rest -> Hsz. rewrite Hsz, N.eqb_refl. cbn [negb].
      unfold std_min_iterator.
      destruct (N.ltb_spec (vec_size (v0 :: rest)) 0) as [H|_]; [lia|].
      reflexivity.
    + intros Hne.
      destruct (N.eqb_spec (vec_size weights) (vec_size values)); [contradiction|].
      reflexivity.
    + intros -> ->. reflexivity.
Qed.

(** [distance] on an instance that the constructor returned: defined for
    two cities, zero from a city to itself and not zero between two
    cities; undefined when [i] is not a city. *)
Theorem distance_of_constructed (weights : list (list D)) (values : list D)
    (max_path_length : D) (encoding : encoding_type) (self : tsp_cs D) :
  make_tsp_cs weights values max_path_length encoding = Ok self ->
  (forall i j, (i < m_n_cities self)%N -> (j < m_n_cities self)%N ->
     exists w, distance self i j = Ok w
               /\ d_eqb w d_zero = (i =? j)%N)
  /\ (forall i j, (m_n_cities self <= i)%N -> distance self i j = Undefined).
Proof.
  unfold make_tsp_cs. intros H.
  apply bind_ok in H. destruct H as ([] & Hcheck & H).
  destruct (negb (vec_size weights =? vec_size values)%N); [discriminate|].
  apply bind_ok in H. destruct H as (mv & _ & H). apply ok_inj in H. subst self.
  cbn [m_n_cities m_weights]. unfold distance. cbn [m_weights].
  destruct (check_weights_ok weights Hcheck) as [Hsq Hcell].
  rewrite Forall_forall in Hsq. split.
  - intros i j Hi Hj.
    destruct (vec_get_ok weights i Hi) as (row & -> & Hrow). cbn [bind].
    assert (Hjr : (j < vec_size row)%N)
      by (rewrite (Hsq row (nth_error_In _ _ Hrow)); exact Hj).
    destruct (vec_get_ok row j Hjr) as (w & -> & Hw).
    exists w. split; [reflexivity|].
    pose proof (Hcell _ _ row w Hrow Hw) as Hc. unfold cell_ok in Hc.
    rewrite !N2Nat.id in Hc.
    destruct (i =? j)%N; [exact Hc|].
    destruct (d_eqb w d_zero); [discriminate|reflexivity].
  - intros i j Hi. unfold vec_get.
    assert (Hnone : nth_error weights (N.to_nat i) = None).
    { apply nth_error_None. unfold vec_size in Hi. lia. }
    rewrite Hnone. reflexivity.
Qed.
End ValidatorErrors.

(** ** What the search can end in, and what it keeps *)

Lemma quiet_bind {A B : Type} (m : outcome A) (k : A -> outcome B) :
  quiet m -> (forall a, quiet (k a)) -> quiet (bind m k).
Proof. destruct m; simpl; auto. Qed.

Lemma quiet_vec_get {A : Type} (v : list A) (i : N) : quiet (vec_get v i).
Proof. unfold vec_get. destruct (nth_error v (N.to_nat i)); exact I. Qed.

Lemma quiet_of_option {A : Type} (o : option A) : quiet (of_option o).
Proof. destruct o; exact I. Qed.

Section SearchOutcomes.
Context {D : Type} {ops : DoubleOps D}.
Variable self : tsp_cs D.
Variable tour : list D.

Lemma quiet_weight_at (p q : N) : quiet (weight_at self tour p q).
Proof.
  unfold weight_at.
  repeat (apply quiet_bind;
          [first [apply quiet_vec_get|apply quiet_of_option]|intros ?]).
  apply quiet_vec_get.
Qed.

Lemma quiet_inner_body (st : fcs_state D) : quiet (inner_body self tour st).
Proof.
  unfold inner_body.
  apply quiet_bind; [apply quiet_weight_at|intros w].
  apply quiet_bind; [apply quiet_vec_get|intros v].
  cbv zeta.
  match goal with |- quiet (if ?c then _ else _) => destruct c end; exact I.
Qed.

Lemma quiet_outer_rest (st : fcs_state D) : quiet (outer_rest self tour st).
Proof.
  unfold outer_rest. cbv zeta.
  match goal with |- quiet (if ?c then _ else _) => destruct c end; [exact I|].
  apply quiet_bind; [apply quiet_weight_at|intros w].
  apply quiet_bind; [apply quiet_vec_get|intros v].
  exact I.
Qed.

Lemma quiet_inner_loop (fuel : nat) : forall st, quiet (inner_loop fuel self tour st).
Proof.
  induction fuel as [|fuel IH]; intros st; simpl; destruct (cond_r st); try exact I.
  apply quiet_bind; [apply quiet_inner_body|exact IH].
Qed.

Lemma quiet_outer_loop (fuel inner_fuel : nat) :
  forall st, quiet (outer_loop fuel inner_fuel self tour st).
Proof.
  induction fuel as [|fuel IH]; intros st; simpl; destruct (cond_l st); try exact I.
  apply quiet_bind; [apply quiet_inner_loop|intros st1].
  apply quiet_bind; [apply quiet_outer_rest|exact IH].
Qed.

(** The one exception [find_city_subsequence] throws is the
    [value_error] for a tour whose size is not the number of cities, and
    it throws it on every such tour; no assertion fails in it. *)
Theorem find_city_subsequence_throws_iff (fuel : nat) :
  (forall e, find_city_subsequence fuel self tour = Throw e
             <-> (vec_size tour <> m_n_cities self
                  /\ e = value_error "tour dimension must be equal to the city number"))
  /\ find_city_subsequence fuel self tour <> Abort.
Proof.
  unfold find_city_subsequence.
  destruct (N.eqb_spec (vec_size tour) (m_n_cities self)) as [Heq|Hne]; cbn [negb].
  - assert (Hq : quiet (t0 <- vec_get tour 0 ;; i0 <- of_option (d_to_size t0) ;;
                        v0 <- vec_get (m_values self) i0 ;;
                        st <- outer_loop fuel fuel self tour
                                {| it_l := 0; it_r := 0; cond_r := true; cond_l := true;
                                   cum_p := v0; saved_length := m_max_path_length self;
                                   retval := {| retval_p := v0;
                                                retval_l := m_max_path_length self;
                                                retval_it_l := 0; retval_it_r := 0 |} |} ;;
                        Ok (retval st))).
    { apply quiet_bind; [apply quiet_vec_get|intros t0].
      apply quiet_bind; [apply quiet_of_option|intros i0].
      apply quiet_bind; [apply quiet_vec_get|intros v0].
      apply quiet_bind; [apply quiet_outer_loop|intros st]. exact I. }
    cbv zeta. split.
    + intros e. split.
      * intros H. rewrite H in Hq. destruct Hq.
      * intros [Hne _]. contradiction.
    + intros H. rewrite H in Hq. destruct Hq.
  - split; [|discriminate].
    intros e. split.
    + intros H. injection H as <-. split; [exact Hne|reflexivity].
    + intros [_ ->]. reflexivity.
Qed.

(** A property of the state that the two loop bodies keep holds when the
    double loop has ended. *)
Lemma inner_loop_keeps (P : fcs_state D -> Prop) :
  (forall st st', P st -> inner_body self tour st = Ok st' -> P st') ->
  forall fuel st st', P st -> inner_loop fuel self tour st = Ok st' -> P st'.
Proof.
  intros Hbody. induction fuel as [|fuel IH]; intros st st' HP Hrun; simpl in Hrun;
    destruct (cond_r st); try discriminate;
    try (apply ok_inj in Hrun; subst st'; exact HP).
  apply bind_ok in Hrun. destruct Hrun as (st1 & H1 & Hrun).
  apply (IH st1 st' (Hbody st st1 HP H1) Hrun).
Qed.

Lemma outer_loop_keeps (P : fcs_state D -> Prop) :
  (forall st st', P st -> inner_body self tour st = Ok st' -> P st') ->
  (forall st st', P st -> outer_rest self tour st = Ok st' -> P st') ->
  forall fuel inner_fuel st st',
    P st -> outer_loop fuel inner_fuel self tour st = Ok st' -> P st'.
Proof.
  intros Hbody Hrest. induction fuel as [|fuel IH]; intros inner_fuel st st' HP Hrun;
    simpl in Hrun; destruct (cond_l st); try discriminate;
    try (apply ok_inj in Hrun; subst st'; exact HP).
  apply bind_ok in Hrun. destruct Hrun as (st1 & H1 & Hrun).
  apply bind_ok in Hrun. destruct Hrun as (st2 & H2 & Hrun).
  apply (IH inner_fuel st2 st' (Hrest st1 st2 (inner_loop_keeps P Hbody _ _ _ HP H1) H2) Hrun).
Qed.

Lemma search_keeps (P : fcs_state D -> Prop) :
  (forall st st', P st -> inner_body self tour st = Ok st' -> P st') ->
  (forall st st', P st -> outer_rest self tour st = Ok st' -> P st') ->
  (forall t0 i0 v0,
     vec_get tour 0 = Ok t0 -> of_option (d_to_size t0) = Ok i0 ->
     vec_get (m_values self) i0 = Ok v0 ->
     P {| it_l := 0; it_r := 0; cond_r := true; cond_l := true;
          cum_p := v0; saved_length := m_max_path_length self;
          retval := {| retval_p := v0; retval_l := m_max_path_length self;
                       retval_it_l := 0; retval_it_r := 0 |} |}) ->
  forall fuel r, find_city_subsequence fuel self tour = Ok r ->
    exists st, P st /\ retval st = r.
Proof.
  intros Hbody Hrest Hinit fuel r Hrun. unfold find_city_subsequence in Hrun.
  destruct (negb (vec_size tour =? m_n_cities self)%N); [discriminate|].
  apply bind_ok in Hrun. destruct Hrun as (t0 & Ht0 & Hrun).
  apply bind_ok in Hrun. destruct Hrun as (i0 & Hi0 & Hrun).
  apply bind_ok in Hrun. destruct Hrun as (v0 & Hv0 & Hrun).
  cbv zeta in Hrun.
  apply bind_ok in Hrun. destruct Hrun as (st & Hloop & Hrun).
  apply ok_inj in Hrun. exists st. split; [|exact Hrun].
  apply (outer_loop_keeps P Hbody Hrest fuel fuel _ st (Hinit t0 i0 v0 Ht0 Hi0 Hv0) Hloop).
Qed.

Lemma improve_positions (n : N) (st : fcs_state D) :
  (1 <= n)%N ->
  (retval_it_l (retval st) < n)%N /\ (retval_it_r (retval st) < n)%N ->
  (retval_it_l (retval (improve n st)) < n)%N
  /\ (retval_it_r (retval (improve n st)) < n)%N.
Proof.
  intros Hn HP. unfold improve.
  assert (Hu : (retval_it_l (retval (update_retvals n st)) < n)%N
               /\ (retval_it_r (retval (update_retvals n st)) < n)%N).
  { unfold update_retvals. cbn [retval retval_it_l retval_it_r].
    split; apply N.mod_lt; lia. }
  destruct (d_gtb (cum_p st) (retval_p (retval st))); [exact Hu|].
  destruct (d_eqb (cum_p st) (retval_p (retval st))); [|exact HP].
  destruct (d_gtb (saved_length st) (retval_l (retval st))); [exact Hu|exact HP].
Qed.

(** The two positions that [find_city_subsequence] returns are positions
    of the tour. *)
Theorem find_city_subsequence_positions (fuel : nat) (r : subsequence D) :
  (1 <= m_n_cities self)%N ->
  find_city_subsequence fuel self tour = Ok r ->
  (retval_it_l r < m_n_cities self)%N /\ (retval_it_r r < m_n_cities self)%N.
Proof.
  intros Hn Hrun.
  destruct (search_keeps
              (fun st => (retval_it_l (retval st) < m_n_cities self)%N
                         /\ (retval_it_r (retval st) < m_n_cities self)%N))
    with (4 := Hrun) as (st & HP & <-); [| | |exact HP].
  - intros st st' HP Hb. unfold inner_body in Hb.
    apply bind_ok in Hb. destruct Hb as (w & _ & Hb).
    apply bind_ok in Hb. destruct Hb as (v & _ & Hb). cbv zeta in Hb.
    match type of Hb with (if ?c then _ else _) = _ => destruct c end;
      apply ok_inj in Hb; subst st'.
    + exact HP.
    + apply improve_positions; [exact Hn|exact HP].
  - intros st st' HP Hb. unfold outer_rest in Hb. cbv zeta in Hb.
    match type of Hb with (if ?c then _ else _) = _ => destruct c end.
    + apply ok_inj in Hb. subst st'. exact HP.
    + apply bind_ok in Hb. destruct Hb as (w & _ & Hb).
      apply bind_ok in Hb. destruct Hb as (v & _ & Hb).
      apply ok_inj in Hb. subst st'.
      assert (H2 : forall s : fcs_state D,
                 (retval_it_l (retval s) < m_n_cities self)%N
                 /\ (retval_it_r (retval s) < m_n_cities self)%N ->
                 (retval_it_l (retval (if (it_l s =? m_n_cities self)%N
                                       then set_cond_l false s else s)) < m_n_cities self)%N
                 /\ (retval_it_r (retval (if (it_l s =? m_n_cities self)%N
                                          then set_cond_l false s else s)) < m_n_cities self)%N).
      { intros s Hs. destruct (it_l s =? m_n_cities self)%N; exact Hs. }
      apply H2.
      match goal with |- context [if ?c then improve _ _ else _] => destruct c end.
      * apply improve_positions; [exact Hn|exact HP].
      * exact HP.
  - intros t0 i0 v0 _ _ _. cbn [retval retval_it_l retval_it_r]. lia.
Qed.
End SearchOutcomes.

(** ** The fitness vector and the CITIES constraint at the edges *)

Lemma vec_set_zero {A : Type} (f : list A) (a : A) :
  vec_set f 0 a = match f with
                  | [] => Undefined
                  | _ :: rest => Ok (a :: rest)
                  end.
Proof. destruct f; reflexivity. Qed.

Lemma firstn_seq_le (k : nat) : forall a n : nat,
  (k <= n)%nat -> firstn k (seq a n) = seq a k.
Proof.
  induction k as [|k IH]; intros a n H; [reflexivity|].
  destruct n as [|n]; [lia|]. simpl. rewrite IH by lia. reflexivity.
Qed.

Lemma firstn_range (k n : N) :
  (k <= n)%N -> firstn (N.to_nat k) (range 0 n) = range 0 k.
Proof.
  intros H. unfold range. rewrite firstn_map, firstn_seq_le by lia.
  replace (N.to_nat k - N.to_nat 0)%nat with (N.to_nat k) by lia.
  reflexivity.
Qed.

Section Edges.
Context {D : Type} {ops : DoubleOps D}.
Variable full2cities randomkeys2cities : tsp_cs D -> list D -> outcome (list D).

(** [objfun_impl] writes the entry 0 of the fitness vector and no other;
    on an empty fitness vector it is undefined.  Under the CITIES
    encoding a chromosome whose size is not the number of cities makes it
    throw the [value_error] of the search. *)
Theorem objfun_impl_writes_first_entry (fuel : nat) (self : tsp_cs D) (f x : list D) :
  (forall f', objfun_impl full2cities randomkeys2cities fuel self f x = Ok f' ->
     exists f0 y rest, f = f0 :: rest /\ f' = y :: rest)
  /\ (f = [] -> objfun_impl full2cities randomkeys2cities fuel self f x = Undefined)
  /\ (f <> [] -> m_encoding self = CITIES -> vec_size x <> m_n_cities self ->
      objfun_impl full2cities randomkeys2cities fuel self f x
      = Throw (value_error "tour dimension must be equal to the city number")).
Proof.
  unfold objfun_impl. rewrite vec_set_zero. split; [|split].
  - intros f' Hrun. destruct f as [|f0 rest]; [discriminate|]. cbn [bind] in Hrun.
    cbv zeta in Hrun.
    apply bind_ok in Hrun. destruct Hrun as (tour & _ & Hrun).
    apply bind_ok in Hrun. destruct Hrun as (r & _ & Hrun).
    rewrite vec_set_zero in Hrun. apply ok_inj in Hrun.
    exists f0. eexists. exists rest. split; [reflexivity|]. symmetry. exact Hrun.
  - intros ->. reflexivity.
  - intros Hf Henc Hsz. destruct f as [|f0 rest]; [contradiction|]. cbn [bind].
    cbv zeta. rewrite Henc. cbn [bind]. unfold find_city_subsequence.
    destruct (N.eqb_spec (vec_size x) (m_n_cities self)); [contradiction|].
    reflexivity.
Qed.

(** Under the CITIES encoding, a chromosome of at most [n] entries is
    compared with the first numbers, as many as it has entries: the
    constraint is 0 when the chromosome is a permutation of them, 1 when
    it is not, and no other entry of the constraint vector is written.  A
    chromosome of more than [n] entries makes [std::is_permutation] read
    past the end of the range, and an empty constraint vector is written
    out of bounds: both are undefined. *)
Theorem cities_constraint_any_length `{!CompareLaws D} (self : tsp_cs D) (c x : list D) :
  m_encoding self = CITIES ->
  (forall c0 rest, (vec_size x <= m_n_cities self)%N -> c = c0 :: rest ->
     exists v, compute_constraints_impl self c x = Ok (v :: rest)
       /\ (is_permutation_of_range x (vec_size x) -> v = d_zero)
       /\ (~ is_permutation_of_range x (vec_size x) -> v = d_one))
  /\ ((m_n_cities self < vec_size x)%N -> compute_constraints_impl self c x = Undefined)
  /\ (c = [] -> compute_constraints_impl self c x = Undefined).
Proof.
  intros Henc. unfold compute_constraints_impl. rewrite Henc. cbv zeta.
  split; [|split].
  - intros c0 rest Hsz ->.
    destruct (N.leb_spec (vec_size x) (m_n_cities self)) as [_|H]; [|lia].
    rewrite vec_set_zero.
    rewrite firstn_map.
    replace (length x) with (N.to_nat (vec_size x)) by (unfold vec_size; lia).
    rewrite (firstn_range _ _ Hsz).
    pose proof (std_is_permutation_range x (vec_size x)) as Hiff.
    destruct (std_is_permutation x (map d_of_size (range 0 (vec_size x)))).
    + exists d_zero. split; [reflexivity|]. split; [reflexivity|].
      intros Hn. exfalso. apply Hn. apply Hiff. reflexivity.
    + exists d_one. split; [reflexivity|]. split; [|reflexivity].
      intros Hp. apply Hiff in Hp. discriminate.
  - intros Hsz. destruct (N.leb_spec (vec_size x) (m_n_cities self)) as [H|_]; [lia|].
    reflexivity.
  - intros ->. destruct (vec_size x <=? m_n_cities self)%N; reflexivity.
Qed.
End Edges.

(** ** The dimensions *)

Lemma int_of_size_small (k : N) : (k < 2 ^ 31)%N -> int_of_size k = Z.of_N k.
Proof.
  intros H. unfold int_of_size.
  assert (H31 : (Z.of_N k < 2 ^ 31)%Z) by (change (2 ^ 31)%Z with (Z.of_N (2 ^ 31)); lia).
  rewrite Z.mod_small; lia.
Qed.

(** [compute_dimensions] under the FULL encoding.  Up to 46341 cities the
    first dimension is [n (n - 1) + 2], the second is [(n - 1) (n - 2)],
    and the first is the second and [2 n] more.  From 46342 to 65536
    cities the first dimension does not fit the [int] it is stored in and
    comes out negative.  On no city the subtractions wrap around and both
    dimensions are 2. *)
Theorem compute_dimensions_full (n : N) :
  ((1 <= n <= 46341)%N ->
     compute_dimensions n FULL
     = (Z.of_N (n * (n - 1) + 2), Z.of_N ((n - 1) * (n - 2)))
     /\ fst (compute_dimensions n FULL)
        = (2 * Z.of_N n + snd (compute_dimensions n FULL))%Z)
  /\ ((46342 <= n <= 65536)%N -> (fst (compute_dimensions n FULL) < 0)%Z)
  /\ compute_dimensions 0 FULL = (2, 2)%Z.
Proof.
  split; [|split].
  - intros Hn.
    assert (Hm : SizeT.modulus = 18446744073709551616%N) by reflexivity.
    assert (H1 : SizeT.sub n 1 = (n - 1)%N) by (apply sizet_sub_small; lia).
    assert (H2 : SizeT.mul n (n - 1) = (n * (n - 1))%N)
      by (apply sizet_small; rewrite Hm; nia).
    assert (H3 : SizeT.add (n * (n - 1)) 2 = (n * (n - 1) + 2)%N)
      by (apply sizet_small; rewrite Hm; nia).
    assert (E : compute_dimensions n FULL
                = (Z.of_N (n * (n - 1) + 2), Z.of_N ((n - 1) * (n - 2)))).
    { unfold compute_dimensions. rewrite H1, H2, H3.
      destruct (N.eq_dec n 1) as [->|Hn1].
      - reflexivity.
      - assert (H4 : SizeT.sub n 2 = (n - 2)%N) by (apply sizet_sub_small; lia).
        assert (H5 : SizeT.mul (n - 1) (n - 2) = ((n - 1) * (n - 2))%N)
          by (apply sizet_small; rewrite Hm; nia).
        rewrite H4, H5.
        rewrite !int_of_size_small; [reflexivity| |];
          change (2 ^ 31)%N with 2147483648%N; nia. }
    split; [exact E|]. rewrite E. cbn [fst snd]. nia.
  - intros Hn.
    assert (Hm : SizeT.modulus = 18446744073709551616%N) by reflexivity.
    assert (H1 : SizeT.sub n 1 = (n - 1)%N) by (apply sizet_sub_small; lia).
    assert (H2 : SizeT.mul n (n - 1) = (n * (n - 1))%N)
      by (apply sizet_small; rewrite Hm; nia).
    assert (H3 : SizeT.add (n * (n - 1)) 2 = (n * (n - 1) + 2)%N)
      by (apply sizet_small; rewrite Hm; nia).
    unfold compute_dimensions. cbn [fst]. rewrite H1, H2, H3.
    unfold int_of_size.
    assert (Hlo : (2 ^ 31 <= Z.of_N (n * (n - 1) + 2))%Z).
    { change (2 ^ 31)%Z with (Z.of_N 2147483648). apply N2Z.inj_le. nia. }
    assert (Hhi : (Z.of_N (n * (n - 1) + 2) < 2 ^ 32)%Z).
    { change (2 ^ 32)%Z with (Z.of_N 4294967296). apply N2Z.inj_lt. nia. }
    set (k := Z.of_N (n * (n - 1) + 2)) in *.
    replace ((k + 2 ^ 31) mod 2 ^ 32)%Z with (k - 2 ^ 31)%Z.
    + lia.
    + apply Z.mod_unique with 1%Z; lia.
  - reflexivity.
Qed.

(** ** The printed weight matrix *)

Lemma string_app_assoc (a b c : string) : ((a ++ b) ++ c = a ++ (b ++ c))%string.
Proof. induction a as [|ch a IH]; simpl; [reflexivity|]. rewrite IH. reflexivity. Qed.

Lemma string_app_nil_r (a : string) : (a ++ EmptyString = a)%string.
Proof. induction a as [|ch a IH]; simpl; [reflexivity|]. rewrite IH. reflexivity. Qed.

Section Printing.
Context {D : Type} {ops : DoubleOps D}.
Variable show_size : N -> string.
Variable show_double : D -> string.
Variable show_vector : list D -> string.
Local Open Scope string_scope.

Lemma weight_lines_cons (row : list D) (rows : list (list D)) :
  weight_lines show_vector (row :: rows) = weight_line show_vector row ++ weight_lines show_vector rows.
Proof.
  unfold weight_lines. destruct rows as [|r rows]; simpl.
  - rewrite string_app_nil_r. reflexivity.
  - reflexivity.
Qed.

Lemma weight_rows_from (self : tsp_cs D) (len : nat) :
  forall (a : nat) (pre rows : list (list D)) (oss : string),
    m_weights self = (pre ++ rows)%list -> length pre = a -> (a <= 6)%nat ->
    (Nat.min len (7 - a) <= length rows)%nat ->
    weight_rows show_vector self (map N.of_nat (seq a len)) oss
    = Ok (oss ++ weight_lines show_vector (firstn (Nat.min len (7 - a)) rows)
              ++ (if (7 <=? a + len)%nat then tab ++ tab ++ "..." ++ nl else EmptyString)).
Proof.
  induction len as [|len IH]; intros a pre rows oss Hw Hpre Ha Hlen.
  - destruct (Nat.leb_spec 7 (a + 0)) as [H|_]; [lia|].
    replace (Nat.min 0 (7 - a)) with O by lia.
    cbn [seq map weight_rows firstn]. unfold weight_lines. cbn [map String.concat].
    rewrite !string_app_nil_r. reflexivity.
  - destruct rows as [|row rows].
    { cbn [length] in Hlen. lia. }
    cbn [seq map weight_rows].
    assert (Hrow : vec_at (m_weights self) (N.of_nat a) = Ok row).
    { apply vec_at_inv. rewrite Nat2N.id, Hw, nth_error_app2 by lia.
      replace (a - length pre)%nat with O by lia. reflexivity. }
    rewrite Hrow. cbn [bind]. cbv zeta.
    destruct (N.ltb_spec 5 (N.of_nat a)) as [H6|H5].
    + assert (Ea : a = 6%nat) by lia. rewrite Ea in *.
      replace (Nat.min (S len) (7 - 6)) with 1%nat by lia.
      destruct (Nat.leb_spec 7 (6 + S len)) as [_|Hlt]; [|lia].
      cbn [firstn]. rewrite weight_lines_cons.
      unfold weight_lines at 1. cbn [map String.concat].
      rewrite string_app_nil_r, !string_app_assoc. reflexivity.
    + assert (Ha' : (a <= 5)%nat) by lia.
      rewrite (IH (S a) (pre ++ [row])%list rows).
      * replace (Nat.min (S len) (7 - a)) with (S (Nat.min len (7 - S a))) by lia.
        cbn [firstn]. rewrite weight_lines_cons.
        replace (S a + len)%nat with (a + S len)%nat by lia.
        rewrite !string_app_assoc. reflexivity.
      * rewrite Hw, <- app_assoc. reflexivity.
      * rewrite length_app. simpl. lia.
      * lia.
      * cbn [length] in Hlen. lia.
Qed.

Lemma weight_rows_short (self : tsp_cs D) (len : nat) :
  forall (a : nat) (pre rows : list (list D)) (oss : string),
    m_weights self = (pre ++ rows)%list -> length pre = a -> (a <= 6)%nat ->
    (length rows < Nat.min len (7 - a))%nat ->
    weight_rows show_vector self (map N.of_nat (seq a len)) oss = Throw out_of_range.
Proof.
  induction len as [|len IH]; intros a pre rows oss Hw Hpre Ha Hlen.
  - cbn [length] in Hlen. lia.
  - cbn [seq map weight_rows]. destruct rows as [|row rows].
    + assert (Hrow : vec_at (m_weights self) (N.of_nat a) = Throw out_of_range).
      { unfold vec_at. rewrite Nat2N.id, Hw, app_nil_r.
        assert (Hnone : nth_error pre a = None) by (apply nth_error_None; lia).
        rewrite Hnone. reflexivity. }
      rewrite Hrow. reflexivity.
    + assert (Hrow : vec_at (m_weights self) (N.of_nat a) = Ok row).
      { apply vec_at_inv. rewrite Nat2N.id, Hw, nth_error_app2 by lia.
        replace (a - length pre)%nat with O by lia. reflexivity. }
      rewrite Hrow. cbn [bind]. cbv zeta. cbn [length] in Hlen.
      destruct (N.ltb_spec 5 (N.of_nat a)) as [H6|H5]; [lia|].
      apply (IH (S a) (pre ++ [row])%list rows).
      * rewrite Hw, <- app_assoc. reflexivity.
      * rewrite length_app. simpl. lia.
      * lia.
      * lia.
Qed.

(** [human_readable_extra] prints the first seven rows of the weight
    matrix, or all of them when there are fewer, and then a line of three
    dots when the instance has seven cities or more: also when it has
    exactly seven, and every row was printed.  When the matrix has fewer
    rows than the loop asks for, [at()] throws. *)
Theorem human_readable_extra_rows (self : tsp_cs D) :
  ((N.min (m_n_cities self) 7 <= vec_size (m_weights self))%N ->
     human_readable_extra show_size show_double show_vector self
     = Ok (human_readable_header show_size show_double show_vector self
           ++ weight_lines show_vector (firstn (N.to_nat (N.min (m_n_cities self) 7)) (m_weights self))
           ++ (if (7 <=? m_n_cities self)%N then tab ++ tab ++ "..." ++ nl else EmptyString)))
  /\ ((vec_size (m_weights self) < N.min (m_n_cities self) 7)%N ->
      human_readable_extra show_size show_double show_vector self = Throw out_of_range).
Proof.
  unfold human_readable_extra, range, vec_size.
  replace (N.to_nat (m_n_cities self) - N.to_nat 0)%nat with (N.to_nat (m_n_cities self))
    by lia.
  change (N.to_nat 0) with O. split.
  - intros H.
    rewrite (weight_rows_from self (N.to_nat (m_n_cities self)) 0 [] (m_weights self));
      [|reflexivity|reflexivity|lia|lia].
    replace (Nat.min (N.to_nat (m_n_cities self)) (7 - 0))
      with (N.to_nat (N.min (m_n_cities self) 7)) by lia.
    destruct (N.leb_spec 7 (m_n_cities self));
      destruct (Nat.leb_spec 7 (0 + N.to_nat (m_n_cities self))); try lia; reflexivity.
  - intros H.
    apply (weight_rows_short self (N.to_nat (m_n_cities self)) 0 [] (m_weights self));
      [reflexivity|reflexivity|lia|lia].
Qed.
End Printing.

(** ** Bounds on what the search returns, in exact arithmetic *)

Section ExactBounds.
Local Open Scope Q_scope.
Variable self : tsp_cs Q.
Variable tour : list Q.

(** Whatever the signs of the weights and of the values are: the value
    returned is at least the value of the city the tour starts from, and
    the remaining length returned is not negative unless the budget is. *)
Theorem search_result_bounds (fuel : nat) (r : subsequence Q) :
  find_city_subsequence fuel self tour = Ok r ->
  first_value self tour <= retval_p r
  /\ (0 <= m_max_path_length self -> 0 <= retval_l r).
Proof.
  intros Hrun.
  destruct (search_keeps self tour
              (fun st => first_value self tour <= retval_p (retval st)
                         /\ (0 <= m_max_path_length self -> 0 <= retval_l (retval st))))
    with (4 := Hrun) as (st & HP & <-); [| | |exact HP].
  - intros st st' [HP1 HP2] Hb. unfold inner_body in Hb.
    apply bind_ok in Hb. destruct Hb as (w & _ & Hb).
    apply bind_ok in Hb. destruct Hb as (v & _ & Hb). cbv zeta in Hb.
    match type of Hb with (if ?c || _ then _ else _) = _ => destruct c eqn:Ec end;
      cbn [orb] in Hb.
    + apply ok_inj in Hb. subst st'. split; assumption.
    + match type of Hb with (if ?c then _ else _) = _ => destruct c end;
        apply ok_inj in Hb; subst st'; [split; assumption|].
      apply q_ltb_false in Ec.
      match goal with
      | |- context [improve ?m ?s] =>
          destruct (improve_spec m s) as (_ & _ & _ & _ & _ & _ & Hmono & _ & Hr)
      end.
      cbn [retval saved_length] in Hmono, Hr, Ec. split.
      * lra.
      * destruct Hr as [->|[_ ->]]; [exact HP2|]. intros _.
        change (d_zero) with (0 : Q) in Ec. exact Ec.
  - intros st st' [HP1 HP2] Hb. unfold outer_rest in Hb. cbv zeta in Hb.
    match type of Hb with (if ?c then _ else _) = _ => destruct c end.
    + apply ok_inj in Hb. subst st'. split; assumption.
    + apply bind_ok in Hb. destruct Hb as (w & _ & Hb).
      apply bind_ok in Hb. destruct Hb as (v & _ & Hb).
      apply ok_inj in Hb. subst st'.
      assert (H2 : forall s : fcs_state Q,
                 retval (if (it_l s =? m_n_cities self)%N then set_cond_l false s else s)
                 = retval s).
      { intros s. destruct (it_l s =? m_n_cities self)%N; reflexivity. }
      rewrite H2.
      match goal with
      | |- context [if ?c then improve _ _ else _] => destruct c eqn:Ec
      end; [|split; assumption].
      unfold d_gtb in Ec. apply q_ltb in Ec.
      match goal with
      | |- context [improve ?m ?s] =>
          destruct (improve_spec m s) as (_ & _ & _ & _ & _ & _ & Hmono & _ & Hr)
      end.
      cbn [retval saved_length set_cond_r] in Hmono, Hr, Ec. split.
      * lra.
      * destruct Hr as [->|[_ ->]]; [exact HP2|]. intros _.
        apply Qlt_le_weak. exact Ec.
  - intros t0 i0 v0 Ht0 Hi0 Hv0. cbn [retval retval_p retval_l].
    unfold first_value. rewrite Ht0. cbn [bind]. rewrite Hi0. cbn [bind]. rewrite Hv0.
    split; [lra|tauto].
Qed.
End ExactBounds.

(** ** The fitness of a tour, in exact arithmetic *)

Section ExactFitness.
Local Open Scope Q_scope.
Variable full2cities randomkeys2cities : tsp_cs Q -> list Q -> outcome (list Q).
Variable self : tsp_cs Q.
Variable x : list Q.

(** Under the CITIES encoding, on an instance whose weights and values
    are non-negative and whose budget is positive, [objfun_impl] returns
    on every chromosome of [n] city indices: the fitness is the opposite
    of the sum of the value that the search returns, of
    [(1 - m_min_value) * n_cities], and of the remaining length over the
    budget, which lies between 0 and 1, both included. *)
Theorem fitness_of_cities_chromosome (f0 : Q) (rest : list Q) :
  well_formed self ->
  (1 <= m_n_cities self)%N ->
  (2 * m_n_cities self <= SizeT.modulus)%N ->
  m_encoding self = CITIES ->
  vec_size x = m_n_cities self ->
  tour_in_range (m_n_cities self) x ->
  nonnegative self ->
  0 < m_max_path_length self ->
  exists r,
    find_city_subsequence (N.to_nat (m_n_cities self)) self x = Ok r
    /\ objfun_impl full2cities randomkeys2cities (N.to_nat (m_n_cities self)) self
         (f0 :: rest) x
       = Ok (- (retval_p r + (1 - m_min_value self) * d_of_size (m_n_cities self)
                + retval_l r / m_max_path_length self) :: rest)
    /\ 0 <= retval_l r / m_max_path_length self
    /\ retval_l r / m_max_path_length self <= 1.
Proof.
  intros Hwf Hn Hfit Henc Hlen Htour Hpos HL.
  destruct (find_city_subsequence_inv self x Hwf Hn Hfit Hlen Htour Hpos)
    as (st & Hrun & (Hcore & _) & _).
  exists (retval st). split; [exact Hrun|]. split.
  - unfold objfun_impl. cbn [vec_set vec_size length N.of_nat N.ltb N.compare].
    cbn [list_set N.to_nat bind]. cbv zeta. rewrite Henc. cbn [bind].
    rewrite Hrun. cbn [bind]. reflexivity.
  - destruct (inv_best _ _ _ Hcore) as (bl & br & _ & _ & _ & _ & Hl & Hfitb).
    assert (Hlen_nonneg : 0 <= path_length self x bl br)
      by (apply seg_sum_nonneg, edge_nonneg; exact Hpos).
    assert (H0 : 0 <= retval_l (retval st)).
    { destruct Hfitb as [Hb|[-> ->]].
      - lra.
      - assert (E : path_length self x 0 0 == 0) by (apply seg_sum_empty; lia).
        rewrite E in Hl. lra. }
    assert (H1 : retval_l (retval st) <= m_max_path_length self) by lra.
    split.
    + apply Qle_shift_div_l; [exact HL|]. lra.
    + apply Qle_shift_div_r; [exact HL|]. lra.
Qed.
End ExactFitness.

(** ** Witnesses of the theorems on the other methods *)

Lemma check_weights_outcomes_witness :
  check_weights_outcome (check_weights [[0; 1]; [1]]%float).
Proof. exact (check_weights_outcomes [[0; 1]; [1]]%float). Defined.

Lemma unit_weights_ok : weights_ok unit_weights.
Proof. apply check_weights_ok. vm_compute. reflexivity. Qed.

Lemma constructor_outcomes_witness :
  (forall v0 rest, [2; 1; 3]%float = v0 :: rest ->
     vec_size unit_weights = vec_size [2; 1; 3]%float ->
     construct_tsp_cs (fun _ _ _ _ => Ok tt) unit_weights [2; 1; 3]%float 1%float CITIES
     = Ok {| m_n_cities := vec_size unit_weights; m_encoding := CITIES;
             m_weights := unit_weights; m_values := [2; 1; 3]%float;
             m_max_path_length := 1%float; m_min_value := v0 |})
  /\ (vec_size unit_weights <> vec_size [2; 1; 3]%float ->
      construct_tsp_cs (fun _ _ _ _ => Ok tt) unit_weights [2; 1; 3]%float 1%float CITIES
      = Throw (value_error "Size of weight matrix and values vector must be equal"))
  /\ (unit_weights = [] -> [2; 1; 3]%float = [] ->
      construct_tsp_cs (fun _ _ _ _ => Ok tt) unit_weights [2; 1; 3]%float 1%float CITIES
      = Undefined).
Proof.
  apply (proj2 (constructor_outcomes (fun _ _ _ _ => Ok tt) unit_weights
                  [2; 1; 3]%float 1%float CITIES)).
  - reflexivity.
  - exact unit_weights_ok.
Defined.

Lemma distance_of_constructed_witness :
  (forall i j, (i < 3)%N -> (j < 3)%N ->
     exists w, distance (triangle 2 1 3 1) i j = Ok w
               /\ d_eqb w d_zero = (i =? j)%N)
  /\ (forall i j, (3 <= i)%N -> distance (triangle 2 1 3 1) i j = Undefined).
Proof.
  apply (distance_of_constructed unit_weights [2; 1; 3]%float 1%float CITIES
           (triangle 2 1 3 1)).
  vm_compute. reflexivity.
Defined.

Lemma find_city_subsequence_positions_witness :
  (retval_it_l {| retval_p := 2%float; retval_l := 0%float;
                  retval_it_l := 0; retval_it_r := 1 |} < 3)%N
  /\ (retval_it_r {| retval_p := 2%float; retval_l := 0%float;
                     retval_it_l := 0; retval_it_r := 1 |} < 3)%N.
Proof.
  apply (find_city_subsequence_positions default_cities [0; 1; 2]%float 3).
  - intros H. discriminate H.
  - vm_compute. reflexivity.
Defined.

Lemma cities_constraint_any_length_witness :
  (forall c0 rest, (vec_size [1; 0]%float <= 3)%N -> [7%float] = c0 :: rest ->
     exists v, compute_constraints_impl default_cities [7%float] [1; 0]%float
               = Ok (v :: rest)
       /\ (is_permutation_of_range [1; 0]%float (vec_size [1; 0]%float) -> v = d_zero)
       /\ (~ is_permutation_of_range [1; 0]%float (vec_size [1; 0]%float) -> v = d_one))
  /\ ((3 < vec_size [1; 0]%float)%N ->
      compute_constraints_impl default_cities [7%float] [1; 0]%float = Undefined)
  /\ ([7%float] = [] ->
      compute_constraints_impl default_cities [7%float] [1; 0]%float = Undefined).
Proof.
  apply (cities_constraint_any_length default_cities [7%float] [1; 0]%float).
  reflexivity.
Defined.

Lemma search_result_bounds_witness :
  (first_value two_cities_exact [0; 1]%Q
   <= retval_p {| retval_p := 3; retval_l := 0; retval_it_l := 0; retval_it_r := 1 |})%Q
  /\ ((0 <= m_max_path_length two_cities_exact)%Q ->
      (0 <= retval_l {| retval_p := 3; retval_l := 0;
                        retval_it_l := 0; retval_it_r := 1 |})%Q).
Proof.
  apply (search_result_bounds two_cities_exact [0; 1]%Q 2).
  vm_compute. reflexivity.
Defined.

Lemma fitness_of_cities_chromosome_witness :
  exists r,
    find_city_subsequence 2 two_cities_exact [0; 1]%Q = Ok r
    /\ objfun_impl (fun _ x => Ok x) (fun _ x => Ok x) 2 two_cities_exact
         [7; 8]%Q [0; 1]%Q
       = Ok ((- (retval_p r + (1 - 1) * d_of_size 2 + retval_l r / 1))%Q :: [8%Q])
    /\ (0 <= retval_l r / 1)%Q
    /\ (retval_l r / 1 <= 1)%Q.
Proof.
  apply (fitness_of_cities_chromosome (fun _ x => Ok x) (fun _ x => Ok x)
           two_cities_exact [0; 1]%Q 7%Q [8%Q]).
  - exact (two_cities_well_formed 1).
  - intros H. discriminate H.
  - intros H. discriminate H.
  - reflexivity.
  - reflexivity.
  - exact two_cities_tour.
  - exact (two_cities_nonnegative 1).
  - reflexivity.
Defined.

(** ** The FULL constraints: the degree loops *)

Lemma list_set_comm {A : Type} (c : list A) (i k : nat) (a b : A) :
  i <> k -> list_set (list_set c i a) k b = list_set (list_set c k b) i a.
Proof.
  revert i k. induction c as [|x c IH]; intros [|i] [|k] H; simpl; try reflexivity.
  - contradiction.
  - rewrite IH by lia. reflexivity.
Qed.

Lemma vec_set_ok {A : Type} (c : list A) (k : N) (v : A) :
  (k < vec_size c)%N -> vec_set c k v = Ok (list_set c (N.to_nat k) v).
Proof.
  intros H. unfold vec_set. destruct (N.ltb_spec k (vec_size c)); [reflexivity|lia].
Qed.

Lemma vec_size_list_set {A : Type} (c : list A) (i : nat) (a : A) :
  vec_size (list_set c i a) = vec_size c.
Proof. unfold vec_size. rewrite length_list_set. reflexivity. Qed.

Lemma nth_error_range (lo hi : N) (q : nat) :
  nth_error (range lo hi) q
  = if (q <? N.to_nat hi - N.to_nat lo)%nat then Some (lo + N.of_nat q)%N else None.
Proof.
  unfold range. rewrite nth_error_map, nth_error_seq.
  destruct (q <? N.to_nat hi - N.to_nat lo)%nat; simpl; [|reflexivity].
  f_equal. lia.
Qed.

Lemma vec_get_nth {A : Type} (v : list A) (i : N) (d : A) :
  (i < vec_size v)%N -> vec_get v i = Ok (nth (N.to_nat i) v d).
Proof.
  intros H. unfold vec_get.
  rewrite (nth_error_nth' v d) by (unfold vec_size in H; lia). reflexivity.
Qed.

Section DegreeLoops.
Context {D : Type} {ops : DoubleOps D}.
Variable x : list D.
Variable n : N.
Hypothesis Hx : vec_size x = (n * (n - 1))%N.
Hypothesis Hn : (2 * n < SizeT.modulus)%N.
Hypothesis Hnn : (n * (n - 1) <= SizeT.modulus)%N.

Lemma compute_idx_arc (i j : N) :
  i <> j -> (i < n)%N -> (j < n)%N ->
  compute_idx i j n = Ok (arc_index i j n) /\ vec_get x (arc_index i j n) = Ok (arc x n i j).
Proof.
  intros Hij Hi Hj.
  destruct (compute_idx_value i j n Hij Hi Hj Hnn) as [E Hb].
  split; [exact E|]. unfold arc. apply vec_get_nth. rewrite Hx. exact Hb.
Qed.

Section OneCity.
Variable i : N.
Variable c : list D.
Hypothesis Hi : (i < n)%N.
Hypothesis Hc : (i + n < vec_size c)%N.

Lemma set2_size (a b : D) : vec_size (set2 c i (i + n) a b) = vec_size c.
Proof. unfold set2. rewrite !vec_size_list_set. reflexivity. Qed.

Lemma set2_get_fst (a b : D) : vec_get (set2 c i (i + n) a b) i = Ok a.
Proof.
  apply vec_get_inv. unfold set2.
  rewrite nth_error_list_set_neq by lia.
  apply nth_error_list_set_eq. unfold vec_size in Hc. lia.
Qed.

Lemma set2_get_snd (a b : D) : vec_get (set2 c i (i + n) a b) (i + n) = Ok b.
Proof.
  apply vec_get_inv. unfold set2.
  apply nth_error_list_set_eq. rewrite length_list_set. unfold vec_size in Hc. lia.
Qed.

Lemma set2_set_fst (a b a' : D) :
  vec_set (set2 c i (i + n) a b) i a' = Ok (set2 c i (i + n) a' b).
Proof.
  rewrite vec_set_ok by (rewrite set2_size; lia). f_equal. unfold set2.
  rewrite (list_set_comm _ (N.to_nat (i + n)) (N.to_nat i)) by lia.
  rewrite list_set_twice. reflexivity.
Qed.

Lemma set2_set_snd (a b b' : D) :
  vec_set (set2 c i (i + n) a b) (i + n) b' = Ok (set2 c i (i + n) a b').
Proof.
  rewrite vec_set_ok by (rewrite set2_size; lia). f_equal. unfold set2.
  rewrite list_set_twice. reflexivity.
Qed.

Lemma sizet_add_in : SizeT.add i n = (i + n)%N.
Proof. apply sizet_small. lia. Qed.

Lemma degree_inner_set2 (j : N) (a b : D) :
  (j < n)%N ->
  degree_inner x n i j (set2 c i (i + n) a b)
  = Ok (set2 c i (i + n)
          (if (i =? j)%N then a else d_add a (arc x n i j))
          (if (i =? j)%N then b else d_add b (arc x n j i))).
Proof.
  intros Hj. unfold degree_inner. rewrite sizet_add_in.
  destruct (N.eqb_spec i j) as [E|Hij]; [reflexivity|].
  destruct (compute_idx_arc i j Hij Hi Hj) as [-> Hr]. cbn [bind].
  destruct (compute_idx_arc j i (not_eq_sym Hij) Hj Hi) as [-> Hcl]. cbn [bind].
  rewrite set2_get_fst. cbn [bind]. rewrite Hr. cbn [bind].
  rewrite set2_set_fst. cbn [bind].
  rewrite set2_get_snd. cbn [bind]. rewrite Hcl. cbn [bind].
  apply set2_set_snd.
Qed.

Lemma degree_loop_set2 (js : list N) :
  (forall j, In j js -> (j < n)%N) ->
  forall a b : D,
    for_each js (degree_inner x n i) (set2 c i (i + n) a b)
    = Ok (set2 c i (i + n)
            (fold_left (fun a j => if (i =? j)%N then a else d_add a (arc x n i j)) js a)
            (fold_left (fun b j => if (i =? j)%N then b else d_add b (arc x n j i)) js b)).
Proof.
  induction js as [|j js IH]; intros Hjs a b; [reflexivity|].
  cbn [for_each fold_left].
  rewrite degree_inner_set2 by (apply Hjs; left; reflexivity). cbn [bind].
  apply IH. intros j' Hj'. apply Hjs. right. exact Hj'.
Qed.

Lemma degree_outer_set2 :
  degree_outer x n i c
  = Ok (set2 c i (i + n) (d_sub (out_degree x n i) d_one)
                         (d_sub (in_degree x n i) d_one)).
Proof.
  unfold degree_outer. rewrite sizet_add_in.
  rewrite vec_set_ok by lia. cbn [bind].
  rewrite vec_set_ok by (rewrite vec_size_list_set; lia). cbn [bind].
  fold (set2 c i (i + n) d_zero d_zero).
  rewrite degree_loop_set2 by (intros j Hj; apply range_In in Hj; lia). cbn [bind].
  fold (out_degree x n i). fold (in_degree x n i).
  rewrite set2_get_fst. cbn [bind]. rewrite set2_set_fst. cbn [bind].
  rewrite set2_get_snd. cbn [bind]. apply set2_set_snd.
Qed.
End OneCity.

(** The loop on [i]: what it leaves in the vector. *)
Lemma degree_loop_spec (cities : list N) :
  (forall i, In i cities -> (i < n)%N) ->
  forall c : list D, (2 * n <= vec_size c)%N ->
  exists c', for_each cities (degree_outer x n) c = Ok c'
    /\ length c' = length c
    /\ (forall i, In i cities ->
          nth_error c' (N.to_nat i) = Some (d_sub (out_degree x n i) d_one)
          /\ nth_error c' (N.to_nat (i + n)) = Some (d_sub (in_degree x n i) d_one))
    /\ (forall p, (forall i, In i cities -> p <> i /\ p <> (i + n)%N) ->
          nth_error c' (N.to_nat p) = nth_error c (N.to_nat p)).
Proof.
  induction cities as [|i cities IH]; intros Hin c Hc.
  - exists c. split; [reflexivity|]. split; [reflexivity|]. split.
    + intros i [].
    + intros p _. reflexivity.
  - assert (Hi : (i < n)%N) by (apply Hin; left; reflexivity).
    assert (Hroom : (i + n < vec_size c)%N) by lia.
    cbn [for_each]. rewrite (degree_outer_set2 i c Hi Hroom). cbn [bind].
    set (c1 := set2 c i (i + n) (d_sub (out_degree x n i) d_one)
                    (d_sub (in_degree x n i) d_one)).
    assert (Hc1 : vec_size c1 = vec_size c) by (apply set2_size).
    destruct (IH (fun i' H => Hin i' (or_intror H)) c1) as (c' & Hrun & Hlen & Hset & Hrest);
      [lia|].
    exists c'. split; [exact Hrun|]. split.
    { rewrite Hlen. unfold vec_size in Hc1. lia. }
    assert (H1 : nth_error c1 (N.to_nat i) = Some (d_sub (out_degree x n i) d_one))
      by (apply vec_get_inv, set2_get_fst; assumption).
    assert (H2 : nth_error c1 (N.to_nat (i + n)) = Some (d_sub (in_degree x n i) d_one))
      by (apply vec_get_inv, set2_get_snd; assumption).
    split.
    + intros i' [<-|Hi'].
      * destruct (in_dec N.eq_dec i cities) as [Hic|Hic]; [apply Hset; exact Hic|].
        rewrite !Hrest; [split; assumption| |].
        -- intros k Hk. pose proof (Hin k (or_intror Hk)).
           split; [lia|]. intros E. apply Hic. replace i with k by lia. exact Hk.
        -- intros k Hk. pose proof (Hin k (or_intror Hk)).
           split; [|lia]. intros E. apply Hic. rewrite E. exact Hk.
      * apply Hset. exact Hi'.
    + intros p Hp. rewrite Hrest by (intros k Hk; apply Hp; right; exact Hk).
      destruct (Hp i (or_introl eq_refl)) as [Hp1 Hp2].
      unfold c1, set2. rewrite !nth_error_list_set_neq by lia. reflexivity.
Qed.

(** After the loop on [i] the first [2 n] entries are the degrees of the
    cities, less one; the other entries are as they were. *)
Lemma degree_loop_result (c : list D) :
  (2 * n <= vec_size c)%N ->
  for_each (range 0 n) (degree_outer x n) c
  = Ok (map (fun i => d_sub (out_degree x n i) d_one) (range 0 n)
        ++ map (fun i => d_sub (in_degree x n i) d_one) (range 0 n)
        ++ skipn (N.to_nat (2 * n)) c).
Proof.
  intros Hc.
  destruct (degree_loop_spec (range 0 n)) with (c := c) as (c' & -> & Hlen & Hset & Hrest);
    [intros i Hi; apply range_In in Hi; lia|exact Hc|].
  f_equal. apply nth_error_ext. intros q.
  assert (Hrl : length (range 0 n) = N.to_nat n)
    by (unfold range; rewrite length_map, length_seq; lia).
  destruct (Nat.lt_ge_cases q (N.to_nat n)) as [Hq|Hq].
  - rewrite nth_error_app1 by (rewrite length_map; lia).
    rewrite nth_error_map, nth_error_range.
    destruct (Nat.ltb_spec q (N.to_nat n - N.to_nat 0)); [|lia]. cbn [option_map].
    replace q with (N.to_nat (0 + N.of_nat q)) at 1 by lia.
    apply Hset. apply range_In. lia.
  - rewrite nth_error_app2 by (rewrite length_map; lia). rewrite length_map, Hrl.
    destruct (Nat.lt_ge_cases q (2 * N.to_nat n)) as [Hq2|Hq2].
    + rewrite nth_error_app1 by (rewrite length_map; lia).
      rewrite nth_error_map, nth_error_range.
      destruct (Nat.ltb_spec (q - N.to_nat n) (N.to_nat n - N.to_nat 0)); [|lia].
      cbn [option_map].
      replace q with (N.to_nat ((0 + N.of_nat (q - N.to_nat n)) + n)) at 1 by lia.
      apply Hset. apply range_In. lia.
    + rewrite nth_error_app2 by (rewrite length_map; lia). rewrite length_map, Hrl.
      rewrite nth_error_skipn.
      replace (N.to_nat (2 * n) + (q - N.to_nat n - N.to_nat n))%nat with q by lia.
      replace q with (N.to_nat (N.of_nat q)) by lia.
      apply Hrest. intros i Hi. apply range_In in Hi. lia.
Qed.
End DegreeLoops.

(** ** The FULL constraints: the vector [u] and the last two loops *)

Lemma for_each_keeps {A S : Type} (I : S -> Prop) (xs : list A)
    (body : A -> S -> outcome S) :
  (forall x s, In x xs -> I s -> exists s', body x s = Ok s' /\ I s') ->
  forall s, I s -> exists s', for_each xs body s = Ok s' /\ I s'.
Proof.
  induction xs as [|x xs IH]; intros Hbody s Hs.
  - exists s. split; [reflexivity|exact Hs].
  - destruct (Hbody x s (or_introl eq_refl) Hs) as (s1 & H1 & Hs1).
    destruct (IH (fun y t Hy => Hbody y t (or_intror Hy)) s1 Hs1) as (s' & Hrun & Hs').
    exists s'. split; [|exact Hs']. cbn [for_each]. rewrite H1. exact Hrun.
Qed.

Lemma for_each_app {A S : Type} (xs ys : list A) (body : A -> S -> outcome S) (s : S) :
  for_each (xs ++ ys) body s = (s' <- for_each xs body s ;; for_each ys body s').
Proof.
  revert s. induction xs as [|x xs IH]; intros s; [reflexivity|].
  cbn [app for_each]. destruct (body x s); cbn [bind]; auto.
Qed.

Lemma for_each_map {A B S : Type} (f : A -> B) (xs : list A)
    (body : B -> S -> outcome S) (s : S) :
  for_each (map f xs) body s = for_each xs (fun a => body (f a)) s.
Proof.
  revert s. induction xs as [|x xs IH]; intros s; [reflexivity|].
  cbn [map for_each]. destruct (body (f x) s); cbn [bind]; auto.
Qed.

(** Two nested loops are one loop on the pairs. *)
Lemma for_each_nested {A B S : Type} (xs : list A) (ys : list B)
    (body : A -> B -> S -> outcome S) (s : S) :
  for_each xs (fun i s => for_each ys (body i) s) s
  = for_each (list_prod xs ys) (fun p s => body (fst p) (snd p) s) s.
Proof.
  revert s. induction xs as [|a xs IH]; intros s; [reflexivity|].
  cbn [for_each list_prod]. rewrite for_each_app, for_each_map. cbn [fst snd].
  destruct (for_each ys (body a) s); cbn [bind]; auto.
Qed.

Lemma Forall_list_set {A : Type} (P : A -> Prop) (l : list A) (i : nat) (a : A) :
  Forall P l -> P a -> Forall P (list_set l i a).
Proof.
  intros Hl Ha. revert i. induction Hl as [|b l Hb Hl IH]; intros [|i]; simpl;
    constructor; auto.
Qed.

Lemma list_set_middle {A : Type} (pre : list A) (r0 a : A) (post : list A) :
  list_set (pre ++ r0 :: post) (length pre) a = pre ++ a :: post.
Proof. induction pre as [|b pre IH]; simpl; [reflexivity|]. rewrite IH. reflexivity. Qed.

Lemma range_NoDup (lo hi : N) : NoDup (range lo hi).
Proof.
  unfold range. apply NoDup_map_NoDup_ForallPairs; [|apply seq_NoDup].
  intros a b _ _ H. apply Nat2N.inj. exact H.
Qed.

Lemma filter_neq_all (i : N) (l : list N) :
  ~ In i l -> filter (fun j => negb (i =? j)%N) l = l.
Proof.
  induction l as [|a l IH]; intros H; [reflexivity|]. simpl.
  destruct (N.eqb_spec i a) as [->|_].
  - exfalso. apply H. left. reflexivity.
  - simpl. rewrite IH; [reflexivity|]. intros Hi. apply H. right. exact Hi.
Qed.

Lemma filter_neq_length (i : N) (l : list N) :
  NoDup l -> In i l ->
  length (filter (fun j => negb (i =? j)%N) l) = (length l - 1)%nat.
Proof.
  induction 1 as [|a l Ha Hl IH]; intros Hi; [destruct Hi|]. simpl.
  destruct (N.eqb_spec i a) as [->|Hne]; simpl.
  - rewrite filter_neq_all by exact Ha. lia.
  - destruct Hi as [->|Hi]; [contradiction|].
    rewrite IH by exact Hi. destruct l; [destruct Hi|simpl; lia].
Qed.

Lemma filter_pairs_length (l1 l : list N) :
  NoDup l -> incl l1 l ->
  length (filter (fun p => negb (fst p =? snd p)%N) (list_prod l1 l))
  = (length l1 * (length l - 1))%nat.
Proof.
  intros Hnd. induction l1 as [|i l1 IH]; intros Hin; [reflexivity|].
  cbn [list_prod]. rewrite filter_app, length_app.
  rewrite IH by (intros k Hk; apply Hin; right; exact Hk).
  assert (E : filter (fun p : N * N => negb (fst p =? snd p)%N) (map (fun y => (i, y)) l)
              = map (fun y => (i, y)) (filter (fun j => negb (i =? j)%N) l)).
  { clear. induction l as [|a l IH]; [reflexivity|]. simpl.
    destruct (negb (i =? a)%N); simpl; rewrite IH; reflexivity. }
  rewrite E, length_map, filter_neq_length; [simpl; lia|exact Hnd|].
  apply Hin. left. reflexivity.
Qed.

Lemma arc_pairs_length (n : N) :
  length (arc_pairs n) = ((N.to_nat n - 1) * (N.to_nat n - 2))%nat.
Proof.
  unfold arc_pairs. rewrite filter_pairs_length.
  - rewrite range_length. change (N.to_nat 1) with 1%nat. lia.
  - apply range_NoDup.
  - apply incl_refl.
Qed.

Lemma arc_pairs_In (n i j : N) :
  In (i, j) (arc_pairs n) <-> (1 <= i < n)%N /\ (1 <= j < n)%N /\ i <> j.
Proof.
  unfold arc_pairs. rewrite filter_In, in_prod_iff, !range_In. cbn [fst snd].
  destruct (N.eqb_spec i j); simpl; split; intros H; try tauto; try lia.
Qed.

Lemma small_modulus (n : N) :
  (n * (n - 1) + 2 < 2 ^ 31)%N ->
  (2 * n < SizeT.modulus)%N /\ (n * (n - 1) <= SizeT.modulus)%N.
Proof.
  intros H.
  assert (SizeT.modulus = 18446744073709551616%N) by reflexivity.
  assert ((2 ^ 31 = 2147483648)%N) by reflexivity.
  split; nia.
Qed.

Lemma small_n (n : N) : (n * (n - 1) + 2 < 2 ^ 31)%N -> (n < 2 ^ 31)%N.
Proof. intros H. assert ((2 ^ 31 = 2147483648)%N) by reflexivity. nia. Qed.

Section RanksAndSubtours.
Context {D : Type} {ops : DoubleOps D}.
Variable x : list D.
Variable n : N.
Hypothesis Hx : vec_size x = (n * (n - 1))%N.
Hypothesis Hn1 : (1 <= n)%N.
Hypothesis Hsmall : (n * (n - 1) + 2 < 2 ^ 31)%N.

Lemma find_next_city_ok (current_city : N) (js : list N) :
  (current_city < n)%N -> (forall j, In j js -> (j < n)%N) ->
  forall next_city, (next_city < n)%N ->
    exists r, find_next_city x n current_city js next_city = Ok r /\ (r < n)%N.
Proof.
  intros Hc. induction js as [|j js IH]; intros Hjs next_city Hnext.
  - exists next_city. split; [reflexivity|exact Hnext].
  - assert (Hj : (j < n)%N) by (apply Hjs; left; reflexivity).
    assert (Hjs' : forall k, In k js -> (k < n)%N) by (intros k Hk; apply Hjs; right; exact Hk).
    cbn [find_next_city].
    destruct (N.eqb_spec current_city j) as [_|Hne]; [apply IH; assumption|].
    destruct (compute_idx_arc x n Hx (proj2 (small_modulus n Hsmall)) current_city j Hne Hc Hj)
      as [E1 E2]. rewrite E1. cbn [bind]. rewrite E2. cbn [bind].
    destruct (d_eqb (arc x n current_city j) d_one).
    + exists j. split; [reflexivity|exact Hj].
    + apply IH; assumption.
Qed.

Lemma rank_step_keeps (i : N) (s : list Z * N * N) :
  (i < n)%N -> ranks_inv n s -> exists s', rank_step x n i s = Ok s' /\ ranks_inv n s'.
Proof.
  intros Hi. destruct s as [[u next_city] current_city]. intros (Hu & Hnext & Hcur & Hall).
  unfold rank_step.
  rewrite vec_set_ok by (unfold vec_size; lia). cbn [bind].
  destruct (find_next_city_ok current_city (range 0 n) Hcur) with (next_city := next_city)
    as (r & -> & Hr); [intros j Hj; apply range_In in Hj; lia|exact Hnext|].
  cbn [bind]. eexists. split; [reflexivity|]. unfold ranks_inv.
  split; [rewrite length_list_set; exact Hu|]. split; [exact Hr|]. split; [exact Hr|].
  apply Forall_list_set; [exact Hall|].
  pose proof (small_n n Hsmall) as Hsn. pose proof (proj1 (small_modulus n Hsmall)) as Hm.
  unfold SizeT.add. rewrite (sizet_small (i + 1)) by lia.
  rewrite int_of_size_small by lia. lia.
Qed.

Lemma ranks_ok :
  exists u next_city current_city,
    ranks x n = Ok (u, next_city, current_city)
    /\ length u = N.to_nat n
    /\ Forall (fun z => 0 <= z <= Z.of_N n)%Z u.
Proof.
  destruct (for_each_keeps (ranks_inv n) (range 0 n) (rank_step x n))
    with (s := (repeat 0%Z (N.to_nat n), 0%N, 0%N)) as ([[u nc] cc] & Hrun & Hinv).
  - intros i s Hi. apply range_In in Hi. apply rank_step_keeps. lia.
  - unfold ranks_inv. split; [apply repeat_length|]. split; [lia|]. split; [lia|].
    apply Forall_forall. intros z Hz. apply repeat_spec in Hz. lia.
  - exists u, nc, cc. destruct Hinv as (Hu & _ & _ & Hall). auto.
Qed.

Section Subtours.
Variable u : list Z.
Hypothesis Hu : length u = N.to_nat n.
Hypothesis Hall : Forall (fun z => 0 <= z <= Z.of_N n)%Z u.

Lemma rank_bounds (i : N) : (i < n)%N -> (0 <= nth (N.to_nat i) u 0%Z <= Z.of_N n)%Z.
Proof.
  intros Hi. rewrite Forall_forall in Hall. apply Hall. apply nth_In. lia.
Qed.

(** The last two loops, as one loop on the pairs [pairs]: each pair off
    the diagonal writes the entry after those written so far. *)
Lemma subtour_pairs_spec (pairs : list (N * N)) :
  (forall p, In p pairs -> (fst p < n)%N /\ (snd p < n)%N) ->
  forall (done rest : list D) (count : Z),
    Z.of_nat (length done) = (2 * Z.of_N n + count)%Z -> (0 <= count)%Z ->
    (length (filter (fun p => negb (fst p =? snd p)%N) pairs) <= length rest)%nat ->
    (Z.of_nat (length done
               + length (filter (fun p => negb (fst p =? snd p)%N) pairs)) < 2 ^ 31)%Z ->
    for_each pairs (fun p s => subtour_inner x u n (fst p) (snd p) s)
             (done ++ rest, count)
    = Ok (done
          ++ map (subtour_entry x u n)
                 (filter (fun p => negb (fst p =? snd p)%N) pairs)
          ++ skipn (length (filter (fun p => negb (fst p =? snd p)%N) pairs)) rest,
          (count
           + Z.of_nat (length (filter (fun p => negb (fst p =? snd p)%N) pairs)))%Z).
Proof.
  induction pairs as [|[i j] pairs IH]; intros Hin done rest count Hdone Hcount Hrest Hsz.
  - cbn [for_each filter map length skipn app]. rewrite Z.add_0_r. reflexivity.
  - assert (Hin' : forall p, In p pairs -> (fst p < n)%N /\ (snd p < n)%N)
      by (intros p Hp; apply Hin; right; exact Hp).
    destruct (Hin (i, j) (or_introl eq_refl)) as [Hi Hj]. cbn [fst snd] in Hi, Hj.
    cbn [for_each filter fst snd] in Hrest, Hsz |- *. unfold subtour_inner at 1.
    destruct (N.eqb_spec i j) as [E|Hij]; cbn [negb bind] in Hrest, Hsz |- *.
    + apply IH; assumption.
    + cbn [length] in Hrest. destruct rest as [|r0 rest]; [cbn [length] in Hrest; lia|].
      rewrite (vec_get_nth u i 0%Z) by (unfold vec_size; lia). cbn [bind].
      rewrite (vec_get_nth u j 0%Z) by (unfold vec_size; lia). cbn [bind].
      pose proof (rank_bounds i Hi) as Bi. pose proof (rank_bounds j Hj) as Bj.
      pose proof (small_n n Hsmall) as Hsn.
      assert (H31 : (Z.of_N n < 2 ^ 31)%Z)
        by (change (2 ^ 31)%Z with (Z.of_N (2 ^ 31)); lia).
      assert (Hdu : int_of (nth (N.to_nat i) u 0%Z - nth (N.to_nat j) u 0%Z)%Z
                    = Ok (nth (N.to_nat i) u 0%Z - nth (N.to_nat j) u 0%Z)%Z).
      { unfold int_of.
        destruct (Z.leb_spec (- 2 ^ 31) (nth (N.to_nat i) u 0%Z - nth (N.to_nat j) u 0%Z));
          [|lia].
        destruct (Z.ltb_spec (nth (N.to_nat i) u 0%Z - nth (N.to_nat j) u 0%Z) (2 ^ 31));
          [reflexivity|lia]. }
      rewrite Hdu. cbn [bind].
      destruct (compute_idx_arc x n Hx (proj2 (small_modulus n Hsmall)) i j Hij Hi Hj) as [E1 E2].
      rewrite E1. cbn [bind]. rewrite E2. cbn [bind].
      cbn [length] in Hsz.
      assert (Hlen : (Z.of_nat (length done) < 2 ^ 31)%Z) by lia.
      assert (Hidx : SizeT.add (SizeT.mul 2 n) (size_of_int count)
                     = N.of_nat (length done)).
      { assert (Hc64 : (count mod 2 ^ 64 = count)%Z) by (apply Z.mod_small; lia).
        unfold size_of_int. rewrite Hc64.
        assert (Hm : SizeT.modulus = 18446744073709551616%N) by reflexivity.
        unfold SizeT.add, SizeT.mul.
        rewrite (sizet_small (2 * n)) by lia.
        rewrite sizet_small by lia. lia. }
      rewrite Hidx.
      rewrite vec_set_ok by (unfold vec_size; rewrite length_app; cbn [length]; lia).
      cbn [bind]. rewrite Nat2N.id, list_set_middle.
      assert (Hcnt : int_of (count + 1) = Ok (count + 1)%Z).
      { unfold int_of.
        destruct (Z.leb_spec (- 2 ^ 31) (count + 1)); [|lia].
        destruct (Z.ltb_spec (count + 1) (2 ^ 31)); [reflexivity|lia]. }
      rewrite Hcnt. cbn [bind].
      assert (Hn1' : SizeT.add n 1 = (n + 1)%N)
        by (apply sizet_small; pose proof (proj1 (small_modulus n Hsmall)); lia).
      rewrite Hn1'.
      replace (done ++ d_sub (d_add (d_of_Z (nth (N.to_nat i) u 0%Z - nth (N.to_nat j) u 0%Z)%Z)
                                    (d_mul (d_of_size (n + 1)) (arc x n i j)))
                             (d_of_size n) :: rest)
        with ((done ++ [subtour_entry x u n (i, j)]) ++ rest)
        by (rewrite <- app_assoc; reflexivity).
      rewrite IH.
      * cbn [map length skipn]. rewrite <- !app_assoc. cbn [app].
        f_equal. f_equal. lia.
      * exact Hin'.
      * rewrite length_app. cbn [length] in Hsz |- *. lia.
      * lia.
      * cbn [length] in Hrest. lia.
      * rewrite length_app. cbn [length] in Hsz |- *. lia.
Qed.
End Subtours.
End RanksAndSubtours.

(** ** The FULL constraints: the whole vector *)

Lemma compute_dimensions_small (n : N) :
  (1 <= n <= 46341)%N ->
  compute_dimensions n FULL = (Z.of_N (n * (n - 1) + 2), Z.of_N ((n - 1) * (n - 2))).
Proof.
  intros Hn.
  assert (Hm : SizeT.modulus = 18446744073709551616%N) by reflexivity.
  assert (H1 : SizeT.sub n 1 = (n - 1)%N) by (apply sizet_sub_small; lia).
  assert (H2 : SizeT.mul n (n - 1) = (n * (n - 1))%N)
    by (apply sizet_small; rewrite Hm; nia).
  assert (H3 : SizeT.add (n * (n - 1)) 2 = (n * (n - 1) + 2)%N)
    by (apply sizet_small; rewrite Hm; nia).
  unfold compute_dimensions. rewrite H1, H2, H3.
  destruct (N.eq_dec n 1) as [->|Hn1]; [reflexivity|].
  assert (H4 : SizeT.sub n 2 = (n - 2)%N) by (apply sizet_sub_small; lia).
  assert (H5 : SizeT.mul (n - 1) (n - 2) = ((n - 1) * (n - 2))%N)
    by (apply sizet_small; rewrite Hm; nia).
  rewrite H4, H5.
  rewrite !int_of_size_small; [reflexivity| |]; change (2 ^ 31)%N with 2147483648%N; nia.
Qed.

Section FullConstraints.
Context {D : Type} {ops : DoubleOps D}.

Lemma compute_constraints_full_with (self : tsp_cs D) (c x : list D)
    (u : list Z) (next_city current_city : N) :
  m_encoding self = FULL ->
  (1 <= m_n_cities self <= 46341)%N ->
  vec_size x = (m_n_cities self * (m_n_cities self - 1))%N ->
  (m_n_cities self * (m_n_cities self - 1) + 2 <= vec_size c)%N ->
  ranks x (m_n_cities self) = Ok (u, next_city, current_city) ->
  compute_constraints_impl self c x
  = Ok (full_constraints x u (m_n_cities self)
        ++ skipn (N.to_nat (m_n_cities self * (m_n_cities self - 1) + 2)) c).
Proof.
  intros Henc Hn Hx Hc Hranks. set (n := m_n_cities self) in *.
  assert (H31 : (2 ^ 31 = 2147483648)%N) by reflexivity.
  assert (Hsmall : (n * (n - 1) + 2 < 2 ^ 31)%N) by nia.
  assert (Hn1 : (1 <= n)%N) by lia.
  destruct (small_modulus n Hsmall) as [Hm2 Hmn].
  destruct (ranks_ok x n Hx Hn1 Hsmall) as (u' & nc & cc & Hranks' & Hu & Hall).
  rewrite Hranks in Hranks'. injection Hranks' as <- <- <-.
  unfold compute_constraints_impl. rewrite Henc. fold n. cbv zeta.
  rewrite (degree_loop_result x n Hx Hm2 Hmn) by nia. cbn [bind].
  unfold ranks in Hranks. rewrite Hranks. cbn [bind].
  rewrite for_each_nested.
  rewrite (app_assoc (map _ (range 0 n)) (map _ (range 0 n))).
  assert (Hrl : length (range 0 n) = N.to_nat n)
    by (rewrite range_length; change (N.to_nat 0) with O; lia).
  assert (Hcl : (N.to_nat (n * (n - 1) + 2) <= length c)%nat)
    by (unfold vec_size in Hc; lia).
  pose proof (arc_pairs_length n) as Hpl. unfold arc_pairs in Hpl.
  rewrite (subtour_pairs_spec x n Hx Hn1 Hsmall u Hu Hall).
  - cbn [bind fst]. f_equal. unfold full_constraints, arc_pairs.
    rewrite skipn_skipn, Hpl, <- !app_assoc.
    replace ((N.to_nat n - 1) * (N.to_nat n - 2) + N.to_nat (2 * n))%nat
      with (N.to_nat (n * (n - 1) + 2)) by nia.
    reflexivity.
  - intros [i j] Hp. apply in_prod_iff in Hp. rewrite !range_In in Hp.
    cbn [fst snd]. lia.
  - rewrite length_app, !length_map, Hrl. lia.
  - lia.
  - rewrite length_skipn, Hpl. nia.
  - rewrite length_app, !length_map, Hrl, Hpl.
    change (2 ^ 31)%Z with (Z.of_N (2 ^ 31)). nia.
Qed.

(** Under the FULL encoding, on a chromosome of [n (n - 1)] arc variables
    and a constraint vector of the first dimension that
    [compute_dimensions] gives, [compute_constraints_impl] returns, and
    the vector it leaves is: the [n] sums of the variables of the arcs
    that leave each city, less one; the [n] sums of the variables of the
    arcs that enter each city, less one; and for the pairs [(i, j)] of two
    cities other than the city 0, in the order of the loops,
    [u[i] - u[j] + (n + 1) x[i, j] - n], where [u] is the vector that the
    loop from the city 0 along the arcs of variable 1 computes, of [n]
    numbers from 0 to [n].  Nothing of what the constraint vector held
    before is left. *)
Theorem full_constraints_computed (self : tsp_cs D) (c x : list D) :
  m_encoding self = FULL ->
  (1 <= m_n_cities self <= 46341)%N ->
  vec_size x = (m_n_cities self * (m_n_cities self - 1))%N ->
  Z.of_N (vec_size c) = fst (compute_dimensions (m_n_cities self) FULL) ->
  exists u next_city current_city,
    ranks x (m_n_cities self) = Ok (u, next_city, current_city)
    /\ length u = N.to_nat (m_n_cities self)
    /\ Forall (fun z => 0 <= z <= Z.of_N (m_n_cities self))%Z u
    /\ compute_constraints_impl self c x
       = Ok (full_constraints x u (m_n_cities self)).
Proof.
  intros Henc Hn Hx Hc.
  rewrite (compute_dimensions_small _ Hn) in Hc. cbn [fst] in Hc. apply N2Z.inj in Hc.
  assert (H31 : (2 ^ 31 = 2147483648)%N) by reflexivity.
  assert (Hsmall : (m_n_cities self * (m_n_cities self - 1) + 2 < 2 ^ 31)%N) by nia.
  destruct (ranks_ok x (m_n_cities self) Hx (proj1 Hn) Hsmall)
    as (u & nc & cc & Hranks & Hu & Hall).
  exists u, nc, cc. split; [exact Hranks|]. split; [exact Hu|]. split; [exact Hall|].
  rewrite (compute_constraints_full_with self c x u nc cc Henc Hn Hx) by (exact Hranks || lia).
  rewrite skipn_all2 by (unfold vec_size in Hc; lia).
  apply f_equal, app_nil_r.
Qed.
End FullConstraints.

(** ** The FULL constraints: the room that the vector must have *)

Lemma for_each_undefined {A S : Type} (pre post : list A) (x : A)
    (body : A -> S -> outcome S) (s s1 : S) :
  for_each pre body s = Ok s1 -> body x s1 = Undefined ->
  for_each (pre ++ x :: post) body s = Undefined.
Proof.
  intros Hpre Hx. rewrite for_each_app, Hpre. cbn [bind for_each]. rewrite Hx. reflexivity.
Qed.

Lemma range_split (mid hi : N) :
  (mid < hi)%N -> range 0 hi = range 0 mid ++ mid :: range (mid + 1) hi.
Proof.
  intros H. unfold range. change (N.to_nat 0) with O. rewrite !Nat.sub_0_r.
  replace (N.to_nat hi) with (N.to_nat mid + S (N.to_nat hi - N.to_nat (mid + 1)))%nat
    at 1 by lia.
  rewrite seq_app, map_app. cbn [seq map plus]. rewrite N2Nat.id.
  replace (N.to_nat (mid + 1)) with (S (N.to_nat mid)) by lia. reflexivity.
Qed.

Lemma filter_split {A : Type} (f : A -> bool) (l : list A) :
  forall k, (k < length (filter f l))%nat ->
    exists pre p post, l = pre ++ p :: post /\ f p = true /\ length (filter f pre) = k.
Proof.
  induction l as [|a l IH]; intros k Hk; [cbn [filter length] in Hk; lia|].
  cbn [filter] in Hk. destruct (f a) eqn:Ea.
  - destruct k as [|k].
    + exists [], a, l. repeat split. exact Ea.
    + cbn [length] in Hk. destruct (IH k) as (pre & p & post & -> & Hp & Hlen); [lia|].
      exists (a :: pre), p, post. split; [reflexivity|]. split; [exact Hp|].
      cbn [filter]. rewrite Ea. cbn [length]. lia.
  - destruct (IH k Hk) as (pre & p & post & -> & Hp & Hlen).
    exists (a :: pre), p, post. split; [reflexivity|]. split; [exact Hp|].
    cbn [filter]. rewrite Ea. exact Hlen.
Qed.

Section Room.
Context {D : Type} {ops : DoubleOps D}.
Variable x : list D.
Variable n : N.
Hypothesis Hx : vec_size x = (n * (n - 1))%N.
Hypothesis Hn1 : (1 <= n)%N.
Hypothesis Hsmall : (n * (n - 1) + 2 < 2 ^ 31)%N.

Lemma degree_outer_short (i : N) (c : list D) :
  (i < n)%N -> (vec_size c <= i + n)%N -> degree_outer x n i c = Undefined.
Proof.
  intros Hi Hc. unfold degree_outer.
  assert (Hadd : SizeT.add i n = (i + n)%N)
    by (apply sizet_small; pose proof (proj1 (small_modulus n Hsmall)); lia).
  rewrite Hadd. unfold vec_set at 1.
  destruct (N.ltb_spec i (vec_size c)); [|reflexivity]. cbn [bind].
  unfold vec_set at 1. rewrite vec_size_list_set.
  destruct (N.ltb_spec (i + n) (vec_size c)); [lia|reflexivity].
Qed.

(** A vector of fewer than [2 n] entries is written out of bounds by the
    degree loops. *)
Lemma degree_loop_short (c : list D) :
  (vec_size c < 2 * n)%N -> for_each (range 0 n) (degree_outer x n) c = Undefined.
Proof.
  intros Hc. destruct (small_modulus n Hsmall) as [Hm2 Hmn].
  set (i := (vec_size c - n)%N).
  assert (Hi : (i < n)%N) by (unfold i; lia).
  rewrite (range_split i n Hi).
  destruct (for_each_keeps (fun c' : list D => vec_size c' = vec_size c) (range 0 i)
              (degree_outer x n)) with (s := c) as (c1 & Hrun & Hc1).
  - intros k c' Hk Hc'. apply range_In in Hk.
    rewrite (degree_outer_set2 x n Hx Hm2 Hmn k c') by (unfold i in Hk; lia).
    eexists. split; [reflexivity|]. rewrite set2_size. exact Hc'.
  - reflexivity.
  - apply (for_each_undefined _ _ _ _ _ c1 Hrun).
    apply degree_outer_short; [exact Hi|]. rewrite Hc1. unfold i. lia.
Qed.

Section ShortSubtours.
Variable u : list Z.
Hypothesis Hu : length u = N.to_nat n.
Hypothesis Hall : Forall (fun z => 0 <= z <= Z.of_N n)%Z u.

Lemma subtour_inner_short (i j : N) (c : list D) (count : Z) :
  (i < n)%N -> (j < n)%N -> i <> j ->
  Z.of_nat (length c) = (2 * Z.of_N n + count)%Z -> (0 <= count)%Z ->
  (Z.of_nat (length c) < 2 ^ 31)%Z ->
  subtour_inner x u n i j (c, count) = Undefined.
Proof.
  intros Hi Hj Hij Hc Hcount Hlen. unfold subtour_inner.
  destruct (N.eqb_spec i j) as [E|_]; [contradiction|].
  rewrite (vec_get_nth u i 0%Z) by (unfold vec_size; lia). cbn [bind].
  rewrite (vec_get_nth u j 0%Z) by (unfold vec_size; lia). cbn [bind].
  pose proof (rank_bounds x n Hx Hn1 Hsmall u Hu Hall i Hi) as Bi.
  pose proof (rank_bounds x n Hx Hn1 Hsmall u Hu Hall j Hj) as Bj.
  pose proof (small_n n Hsmall) as Hsn.
  assert (H31 : (Z.of_N n < 2 ^ 31)%Z)
    by (change (2 ^ 31)%Z with (Z.of_N (2 ^ 31)); lia).
  assert (Hdu : int_of (nth (N.to_nat i) u 0%Z - nth (N.to_nat j) u 0%Z)%Z
                = Ok (nth (N.to_nat i) u 0%Z - nth (N.to_nat j) u 0%Z)%Z).
  { unfold int_of.
    destruct (Z.leb_spec (- 2 ^ 31) (nth (N.to_nat i) u 0%Z - nth (N.to_nat j) u 0%Z));
      [|lia].
    destruct (Z.ltb_spec (nth (N.to_nat i) u 0%Z - nth (N.to_nat j) u 0%Z) (2 ^ 31));
      [reflexivity|lia]. }
  rewrite Hdu. cbn [bind].
  destruct (compute_idx_arc x n Hx (proj2 (small_modulus n Hsmall)) i j Hij Hi Hj)
    as [E1 E2].
  rewrite E1. cbn [bind]. rewrite E2. cbn [bind].
  assert (Hidx : SizeT.add (SizeT.mul 2 n) (size_of_int count) = N.of_nat (length c)).
  { assert (Hc64 : (count mod 2 ^ 64 = count)%Z) by (apply Z.mod_small; lia).
    unfold size_of_int. rewrite Hc64.
    assert (Hm : SizeT.modulus = 18446744073709551616%N) by reflexivity.
    unfold SizeT.add, SizeT.mul.
    rewrite (sizet_small (2 * n)) by lia.
    rewrite sizet_small by lia. lia. }
  rewrite Hidx. unfold vec_set, vec_size. rewrite N.ltb_irrefl. reflexivity.
Qed.

(** A vector with fewer entries after the first [2 n] than there are pairs
    is written out of bounds by the last two loops. *)
Lemma subtour_pairs_short (pairs : list (N * N)) (done rest : list D) (count : Z) :
  (forall p, In p pairs -> (fst p < n)%N /\ (snd p < n)%N) ->
  Z.of_nat (length done) = (2 * Z.of_N n + count)%Z -> (0 <= count)%Z ->
  (length rest < length (filter (fun p => negb (fst p =? snd p)%N) pairs))%nat ->
  (Z.of_nat (length done + length rest) < 2 ^ 31)%Z ->
  for_each pairs (fun p s => subtour_inner x u n (fst p) (snd p) s) (done ++ rest, count)
  = Undefined.
Proof.
  intros Hin Hdone Hcount Hshort Hsz.
  destruct (filter_split _ pairs (length rest) Hshort)
    as (pre & [i j] & post & -> & Hp & Hpre).
  cbn [fst snd] in Hp.
  assert (Hij : i <> j) by (destruct (N.eqb_spec i j); [discriminate|assumption]).
  destruct (Hin (i, j)) as [Hi Hj]; [apply in_or_app; right; left; reflexivity|].
  cbn [fst snd] in Hi, Hj.
  eapply for_each_undefined.
  - apply (subtour_pairs_spec x n Hx Hn1 Hsmall u Hu Hall pre).
    + intros p Hp'. apply Hin. apply in_or_app. left. exact Hp'.
    + exact Hdone.
    + exact Hcount.
    + lia.
    + rewrite Hpre. exact Hsz.
  - cbn [fst snd]. rewrite Hpre, skipn_all, app_nil_r.
    apply subtour_inner_short; try assumption.
    + rewrite length_app, length_map, Hpre. lia.
    + lia.
    + rewrite length_app, length_map, Hpre. exact Hsz.
Qed.
End ShortSubtours.
End Room.

Section FullRoom.
Context {D : Type} {ops : DoubleOps D}.

(** Under the FULL encoding, on a chromosome of [n (n - 1)] arc variables:
    the constraint vector must have at least as many entries as the first
    dimension of [compute_dimensions].  With that many entries or more,
    [compute_constraints_impl] returns and leaves the entries after the
    dimension as they were; with fewer, it writes out of bounds, which is
    undefined. *)
Theorem full_constraints_room (self : tsp_cs D) (c x : list D) :
  m_encoding self = FULL ->
  (1 <= m_n_cities self <= 46341)%N ->
  vec_size x = (m_n_cities self * (m_n_cities self - 1))%N ->
  ((fst (compute_dimensions (m_n_cities self) FULL) <= Z.of_N (vec_size c))%Z ->
     exists c',
       compute_constraints_impl self c x = Ok c'
       /\ vec_size c' = vec_size c
       /\ skipn (Z.to_nat (fst (compute_dimensions (m_n_cities self) FULL))) c'
          = skipn (Z.to_nat (fst (compute_dimensions (m_n_cities self) FULL))) c)
  /\ ((Z.of_N (vec_size c) < fst (compute_dimensions (m_n_cities self) FULL))%Z ->
      compute_constraints_impl self c x = Undefined).
Proof.
  intros Henc Hn Hx. rewrite (compute_dimensions_small _ Hn). cbn [fst].
  set (n := m_n_cities self) in *.
  assert (H31 : (2 ^ 31 = 2147483648)%N) by reflexivity.
  assert (Hsmall : (n * (n - 1) + 2 < 2 ^ 31)%N) by nia.
  assert (Hn1 : (1 <= n)%N) by lia.
  destruct (small_modulus n Hsmall) as [Hm2 Hmn].
  destruct (ranks_ok x n Hx Hn1 Hsmall) as (u & nc & cc & Hranks & Hu & Hall).
  assert (Hrl : length (range 0 n) = N.to_nat n)
    by (rewrite range_length; change (N.to_nat 0) with O; lia).
  pose proof (arc_pairs_length n) as Hpl.
  assert (Hfl : length (full_constraints x u n) = N.to_nat (n * (n - 1) + 2)).
  { unfold full_constraints. rewrite !length_app, !length_map, Hpl, Hrl. nia. }
  split.
  - intros Hc. apply N2Z.inj_le in Hc.
    rewrite (compute_constraints_full_with self c x u nc cc Henc Hn Hx)
      by (exact Hranks || (fold n; lia)).
    fold n. eexists. split; [reflexivity|].
    replace (Z.to_nat (Z.of_N (n * (n - 1) + 2))) with (N.to_nat (n * (n - 1) + 2)) by lia.
    split.
    + unfold vec_size in *. rewrite length_app, Hfl, length_skipn. lia.
    + rewrite skipn_app, Hfl, Nat.sub_diag.
      rewrite (skipn_all2 (full_constraints x u n)) by lia. reflexivity.
  - intros Hc. apply N2Z.inj_lt in Hc.
    unfold compute_constraints_impl. rewrite Henc. fold n. cbv zeta.
    destruct (N.lt_ge_cases (vec_size c) (2 * n)) as [Hlt|Hge].
    + rewrite (degree_loop_short x n Hx Hn1 Hsmall c Hlt). reflexivity.
    + rewrite (degree_loop_result x n Hx Hm2 Hmn) by exact Hge. cbn [bind].
      unfold ranks in Hranks. rewrite Hranks. cbn [bind].
      rewrite for_each_nested.
      rewrite (app_assoc (map _ (range 0 n)) (map _ (range 0 n))).
      unfold arc_pairs in Hpl.
      rewrite (subtour_pairs_short x n Hx Hn1 Hsmall u Hu Hall); [reflexivity|..].
      * intros [i j] Hp. apply in_prod_iff in Hp. rewrite !range_In in Hp.
        cbn [fst snd]. lia.
      * rewrite length_app, !length_map, Hrl. lia.
      * lia.
      * rewrite length_skipn, Hpl. unfold vec_size in *. nia.
      * rewrite length_app, !length_map, Hrl, length_skipn.
        unfold vec_size in *. change (2 ^ 31)%Z with (Z.of_N (2 ^ 31)). nia.
Qed.
End FullRoom.

(** ** The chromosome of a tour satisfies the FULL constraints *)

Lemma range_snoc (i : nat) :
  range 0 (N.of_nat (S i)) = range 0 (N.of_nat i) ++ [N.of_nat i].
Proof.
  unfold range. change (N.to_nat 0) with O. rewrite !Nat.sub_0_r, !Nat2N.id.
  rewrite seq_S, map_app. reflexivity.
Qed.

Lemma next_prev_pos (n m k : nat) :
  (m < n)%nat -> (k < n)%nat -> (next_pos n m = k <-> m = prev_pos n k).
Proof.
  intros Hm Hk. unfold next_pos, prev_pos.
  destruct (Nat.eqb_spec (S m) n); destruct k; lia.
Qed.

(** A sum of the loop over cities that are all 0 but one, which is 1. *)
Lemma fold_indicator (i s : N) (f : N -> Q) (js : list N) :
  NoDup js ->
  (forall j, In j js -> j <> i -> (f j == if (j =? s)%N then 1 else 0)%Q) ->
  s <> i ->
  forall a : Q,
    (fold_left (fun a j => if (i =? j)%N then a else d_add a (f j)) js a
     == a + (if in_dec N.eq_dec s js then 1 else 0))%Q.
Proof.
  intros Hnd. induction Hnd as [|j js Hj Hnd IH]; intros Hf Hs a.
  - cbn [fold_left]. destruct (in_dec N.eq_dec s []) as [[]|_]. lra.
  - cbn [fold_left].
    rewrite IH; [| intros j' Hj' Hne; apply Hf; [right; exact Hj'|exact Hne] | exact Hs].
    destruct (N.eqb_spec i j) as [E|Hij].
    + subst j. destruct (in_dec N.eq_dec s js) as [H1|H1];
        destruct (in_dec N.eq_dec s (i :: js)) as [H2|H2]; try lra.
      * exfalso. apply H2. right. exact H1.
      * exfalso. destruct H2 as [E|H2]; [apply Hs; symmetry; exact E|contradiction].
    + pose proof (Hf j (or_introl eq_refl) (not_eq_sym Hij)) as Hfj.
      change (d_add a (f j)) with (a + f j)%Q. rewrite Hfj.
      destruct (N.eqb_spec j s) as [E|Hjs].
      * subst s. destruct (in_dec N.eq_dec j js) as [H1|H1]; [contradiction|].
        destruct (in_dec N.eq_dec j (j :: js)) as [H2|H2]; [lra|].
        exfalso. apply H2. left. reflexivity.
      * destruct (in_dec N.eq_dec s js) as [H1|H1];
          destruct (in_dec N.eq_dec s (j :: js)) as [H2|H2]; try lra.
        -- exfalso. apply H2. right. exact H1.
        -- exfalso. destruct H2 as [E|H2]; [apply Hjs; exact E|contradiction].
Qed.

Lemma nth_error_app3 {A : Type} (l1 l2 l3 : list A) (k : nat) (v : A) :
  nth_error (l1 ++ l2 ++ l3) k = Some v ->
  ((k < length l1 + length l2)%nat /\ (In v l1 \/ In v l2))
  \/ ((length l1 + length l2 <= k)%nat /\ In v l3).
Proof.
  intros H. rewrite nth_error_app in H.
  destruct (Nat.ltb_spec k (length l1)).
  - left. split; [lia|]. left. apply (nth_error_In _ _ H).
  - rewrite nth_error_app in H.
    destruct (Nat.ltb_spec (k - length l1) (length l2)).
    + left. split; [lia|]. right. apply (nth_error_In _ _ H).
    + right. split; [lia|]. apply (nth_error_In _ _ H).
Qed.

Section Tour.
Local Open Scope Q_scope.
Variable x : list Q.
Variable n : N.
Variable t : list N.
Hypothesis Hx : vec_size x = (n * (n - 1))%N.
Hypothesis Hn2 : (2 <= n)%N.
Hypothesis Hsmall : (n * (n - 1) + 2 < 2 ^ 31)%N.
Hypothesis Htour : is_tour n t.
Hypothesis Henc : encodes_tour x n t.

Lemma tour_length : length t = N.to_nat n.
Proof. apply Htour. Qed.

Lemma tour_city_lt (k : nat) : (k < N.to_nat n)%nat -> (nth k t 0%N < n)%N.
Proof.
  intros Hk. destruct Htour as (_ & Hl & Hin & _). apply Hin. apply nth_In. lia.
Qed.

Lemma tour_pos_inj (k k' : nat) :
  (k < N.to_nat n)%nat -> (k' < N.to_nat n)%nat ->
  nth k t 0%N = nth k' t 0%N -> k = k'.
Proof.
  intros Hk Hk' E. destruct Htour as (Hnd & Hl & _).
  apply (proj1 (NoDup_nth t 0%N) Hnd); [lia|lia|exact E].
Qed.

Lemma tour_pos_of (i : N) :
  (i < n)%N -> exists k, (k < N.to_nat n)%nat /\ nth k t 0%N = i.
Proof.
  intros Hi. destruct Htour as (Hnd & Hl & Hin & _).
  assert (Hincl : incl (range 0 n) t).
  { apply NoDup_length_incl; [exact Hnd| |].
    - rewrite range_length. lia.
    - intros j Hj. apply range_In. pose proof (Hin j Hj). lia. }
  assert (Hit : In i t) by (apply Hincl, range_In; lia).
  destruct (In_nth t i 0%N Hit) as (k & Hk & E). exists k. split; [lia|exact E].
Qed.

Lemma next_pos_lt (k : nat) : (k < N.to_nat n)%nat -> (next_pos (N.to_nat n) k < N.to_nat n)%nat.
Proof. intros Hk. unfold next_pos. destruct (Nat.eqb_spec (S k) (N.to_nat n)); lia. Qed.

Lemma next_city_other (k : nat) :
  (k < N.to_nat n)%nat -> nth (next_pos (N.to_nat n) k) t 0%N <> nth k t 0%N.
Proof.
  intros Hk E. apply tour_pos_inj in E; [|apply next_pos_lt; exact Hk|exact Hk].
  unfold next_pos in E. destruct (Nat.eqb_spec (S k) (N.to_nat n)); lia.
Qed.

(** The arcs that leave the city at the position [k]. *)
Lemma arc_from (k : nat) (j : N) :
  (k < N.to_nat n)%nat -> (j < n)%N -> j <> nth k t 0%N ->
  arc x n (nth k t 0%N) j
  == if (j =? nth (next_pos (N.to_nat n) k) t 0%N)%N then 1 else 0.
Proof.
  intros Hk Hj Hne. rewrite <- tour_length. apply Henc; [rewrite tour_length; lia|exact Hj|exact Hne].
Qed.

Lemma find_next_city_tour (k : nat) (next_city : N) :
  (k < N.to_nat n)%nat ->
  find_next_city x n (nth k t 0%N) (range 0 n) next_city
  = Ok (nth (next_pos (N.to_nat n) k) t 0%N).
Proof.
  intros Hk.
  pose proof (tour_city_lt k Hk) as Hc.
  pose proof (tour_city_lt _ (next_pos_lt k Hk)) as Hs.
  pose proof (next_city_other k Hk) as Hne.
  set (cur := nth k t 0%N) in *. set (s := nth (next_pos (N.to_nat n) k) t 0%N) in *.
  assert (Hin : In s (range 0 n)) by (apply range_In; lia).
  assert (Hjs : forall j, In j (range 0 n) -> (j < n)%N)
    by (intros j Hj; apply range_In in Hj; lia).
  revert Hin Hjs. generalize (range 0 n) as js.
  induction js as [|j js IH]; intros Hin Hjs; [destruct Hin|].
  assert (Hj : (j < n)%N) by (apply Hjs; left; reflexivity).
  cbn [find_next_city].
  destruct (N.eqb_spec cur j) as [E|Hcj].
  - apply IH.
    + destruct Hin as [E'|Hin]; [|exact Hin]. exfalso. apply Hne. congruence.
    + intros j' Hj'. apply Hjs. right. exact Hj'.
  - destruct (compute_idx_arc x n Hx (proj2 (small_modulus n Hsmall)) cur j Hcj Hc Hj)
      as [E1 E2].
    rewrite E1. cbn [bind]. rewrite E2. cbn [bind].
    pose proof (arc_from k j Hk Hj (not_eq_sym Hcj)) as Ha. fold cur s in Ha.
    destruct (N.eqb_spec j s) as [->|Hjs'].
    + assert (Et : d_eqb (arc x n cur s) d_one = true) by (apply q_eqb; exact Ha).
      rewrite Et. reflexivity.
    + assert (Ef : d_eqb (arc x n cur j) d_one = false).
      { destruct (d_eqb (arc x n cur j) d_one) eqn:Eb; [|reflexivity].
        apply q_eqb in Eb. rewrite Ha in Eb. vm_compute in Eb. discriminate Eb. }
      rewrite Ef. apply IH.
      * destruct Hin as [E'|Hin]; [|exact Hin]. exfalso. apply Hjs'. exact E'.
      * intros j' Hj'. apply Hjs. right. exact Hj'.
Qed.

(** After [i] iterations the loop stands at the position [i] of the tour
    and has numbered the cities before it. *)
Lemma ranks_tour_prefix (i : nat) :
  (i <= N.to_nat n)%nat ->
  exists u,
    for_each (range 0 (N.of_nat i)) (rank_step x n) (repeat 0%Z (N.to_nat n), 0%N, 0%N)
    = Ok (u, nth (i mod N.to_nat n) t 0%N, nth (i mod N.to_nat n) t 0%N)
    /\ length u = N.to_nat n
    /\ forall k, (k < i)%nat -> nth (N.to_nat (nth k t 0%N)) u 0%Z = Z.of_nat (S k).
Proof.
  induction i as [|i IH]; intros Hi.
  - exists (repeat 0%Z (N.to_nat n)). split; [|split].
    + cbn [N.of_nat range]. change (range 0 0) with (@nil N). cbn [for_each].
      rewrite Nat.Div0.mod_0_l. destruct Htour as (_ & _ & _ & ->). reflexivity.
    + apply repeat_length.
    + intros k Hk. lia.
  - destruct IH as (u & Hrun & Hu & Hnum); [lia|].
    rewrite range_snoc, for_each_app, Hrun. cbn [bind for_each].
    rewrite (Nat.mod_small i) by lia.
    assert (Hik : (i < N.to_nat n)%nat) by lia.
    pose proof (tour_city_lt i Hik) as Hc.
    unfold rank_step.
    rewrite vec_set_ok by (unfold vec_size; lia). cbn [bind].
    rewrite (find_next_city_tour i _ Hik). cbn [bind].
    assert (Hnext : next_pos (N.to_nat n) i = (S i mod N.to_nat n)%nat).
    { unfold next_pos. destruct (Nat.eqb_spec (S i) (N.to_nat n)) as [E|E].
      - rewrite E, Nat.Div0.mod_same. reflexivity.
      - rewrite Nat.mod_small by lia. reflexivity. }
    rewrite Hnext. eexists. split; [reflexivity|]. split.
    + rewrite length_list_set. exact Hu.
    + intros k Hk.
      assert (Hval : int_of_size (SizeT.add (N.of_nat i) 1) = Z.of_nat (S i)).
      { pose proof (small_n n Hsmall). pose proof (proj1 (small_modulus n Hsmall)).
        unfold SizeT.add. rewrite sizet_small by lia.
        rewrite int_of_size_small by lia. lia. }
      rewrite Hval.
      destruct (Nat.eq_dec k i) as [->|Hki].
      * apply nth_error_nth. apply nth_error_list_set_eq. lia.
      * assert (Hne : nth i t 0%N <> nth k t 0%N).
        { intros E. apply tour_pos_inj in E; lia. }
        rewrite <- (Hnum k) by lia.
        pose proof (tour_city_lt k ltac:(lia)) as Hck.
        assert (Hn' : nth_error (list_set u (N.to_nat (nth i t 0%N)) (Z.of_nat (S i)))
                                (N.to_nat (nth k t 0%N))
                      = nth_error u (N.to_nat (nth k t 0%N)))
          by (apply nth_error_list_set_neq; lia).
        destruct (nth_error u (N.to_nat (nth k t 0%N))) as [z|] eqn:Ez.
        -- rewrite (nth_error_nth _ _ _ Hn'), (nth_error_nth _ _ _ Ez). reflexivity.
        -- apply nth_error_None in Ez. lia.
Qed.

(** The vector [u] of the tour: the city at the position [k] has the
    number [k + 1]. *)
Lemma ranks_tour :
  exists u next_city current_city,
    ranks x n = Ok (u, next_city, current_city)
    /\ forall k, (k < N.to_nat n)%nat ->
         nth (N.to_nat (nth k t 0%N)) u 0%Z = Z.of_nat (S k).
Proof.
  destruct (ranks_tour_prefix (N.to_nat n)) as (u & Hrun & _ & Hnum); [lia|].
  rewrite N2Nat.id in Hrun. exists u. eexists. eexists. split; [exact Hrun|exact Hnum].
Qed.
Lemma out_degree_tour (i : N) : (i < n)%N -> out_degree x n i == 1.
Proof.
  intros Hi. destruct (tour_pos_of i Hi) as (k & Hk & <-).
  unfold out_degree.
  rewrite (fold_indicator (nth k t 0%N) (nth (next_pos (N.to_nat n) k) t 0%N)
             (fun j => arc x n (nth k t 0%N) j)).
  - destruct (in_dec N.eq_dec _ (range 0 n)) as [_|H].
    + vm_compute. reflexivity.
    + exfalso. apply H. apply range_In.
      pose proof (tour_city_lt _ (next_pos_lt k Hk)). lia.
  - apply range_NoDup.
  - intros j Hj Hne. apply range_In in Hj. apply arc_from; [exact Hk|lia|exact Hne].
  - apply next_city_other. exact Hk.
Qed.

Lemma in_degree_tour (i : N) : (i < n)%N -> in_degree x n i == 1.
Proof.
  intros Hi. destruct (tour_pos_of i Hi) as (k & Hk & <-).
  assert (Hp : (prev_pos (N.to_nat n) k < N.to_nat n)%nat)
    by (unfold prev_pos; destruct k; lia).
  unfold in_degree.
  rewrite (fold_indicator (nth k t 0%N) (nth (prev_pos (N.to_nat n) k) t 0%N)
             (fun j => arc x n j (nth k t 0%N))).
  - destruct (in_dec N.eq_dec _ (range 0 n)) as [_|H].
    + vm_compute. reflexivity.
    + exfalso. apply H. apply range_In. pose proof (tour_city_lt _ Hp). lia.
  - apply range_NoDup.
  - intros j Hj Hne. apply range_In in Hj.
    destruct (tour_pos_of j) as (m & Hm & <-); [lia|].
    rewrite (arc_from m (nth k t 0%N) Hm (tour_city_lt k Hk) (not_eq_sym Hne)).
    destruct (N.eqb_spec (nth k t 0%N) (nth (next_pos (N.to_nat n) m) t 0%N)) as [E|E];
      destruct (N.eqb_spec (nth m t 0%N) (nth (prev_pos (N.to_nat n) k) t 0%N)) as [E'|E'];
      try reflexivity; exfalso.
    + apply E'. f_equal. apply next_prev_pos; [exact Hm|exact Hk|].
      apply tour_pos_inj; [apply next_pos_lt; exact Hm|exact Hk|symmetry; exact E].
    + apply E. apply tour_pos_inj in E'; [|exact Hm|exact Hp].
      f_equal. symmetry. apply next_prev_pos; [exact Hm|exact Hk|exact E'].
  - intros E. apply tour_pos_inj in E; [|exact Hp|exact Hk].
    unfold prev_pos in E. destruct k; lia.
Qed.

(** No subtour constraint is violated. *)
Lemma subtour_entry_tour (u : list Z) (i j : N) :
  (forall k, (k < N.to_nat n)%nat ->
     nth (N.to_nat (nth k t 0%N)) u 0%Z = Z.of_nat (S k)) ->
  (1 <= i < n)%N -> (1 <= j < n)%N -> i <> j ->
  subtour_entry x u n (i, j) <= 0.
Proof.
  intros Hnum Hi Hj Hij.
  destruct (tour_pos_of i) as (a & Ha & Ea); [lia|].
  destruct (tour_pos_of j) as (b & Hb & Eb); [lia|].
  assert (Ht0 : nth 0 t 0%N = 0%N) by apply Htour.
  assert (Ha0 : a <> O) by (intros ->; lia).
  assert (Hb0 : b <> O) by (intros ->; lia).
  unfold subtour_entry. cbn [fst snd]. rewrite <- Ea, <- Eb.
  rewrite (Hnum a Ha), (Hnum b Hb).
  assert (Hne : nth b t 0%N <> nth a t 0%N) by (rewrite Ea, Eb; intros E; apply Hij; symmetry; exact E).
  rewrite (arc_from a (nth b t 0%N) Ha (tour_city_lt b Hb) Hne).
  change (d_sub ?p ?q) with (p - q). change (d_add ?p ?q) with (p + q).
  change (d_mul ?p ?q) with (p * q). change (d_of_Z ?z) with (inject_Z z).
  unfold d_of_size. change (d_of_Z ?z) with (inject_Z z).
  rewrite N2Z.inj_add, inject_Z_plus. change (inject_Z (Z.of_N 1)) with 1.
  destruct (N.eqb_spec (nth b t 0%N) (nth (next_pos (N.to_nat n) a) t 0%N)) as [E|E].
  - apply tour_pos_inj in E; [|exact Hb|apply next_pos_lt; exact Ha].
    unfold next_pos in E. destruct (Nat.eqb_spec (S a) (N.to_nat n)) as [E'|E']; [lia|].
    subst b. replace (Z.of_nat (S a) - Z.of_nat (S (S a)))%Z with (-1)%Z by lia.
    change (inject_Z (-1)) with (-1 # 1). lra.
  - assert (Hle : (Z.of_nat (S a) - Z.of_nat (S b) <= Z.of_N n)%Z) by lia.
    rewrite Zle_Qle in Hle. lra.
Qed.
End Tour.

Section TourFeasible.
Local Open Scope Q_scope.

(** Under the FULL encoding, in exact arithmetic, the chromosome of a tour
    of the [n >= 2] cities is feasible: every one of the [2 n] degree
    constraints is 0 and none of the subtour constraints is positive.
    (The tour is written from the city 0, where the numbering [u] of the
    code starts.) *)
Theorem tour_chromosome_is_feasible (self : tsp_cs Q) (c x : list Q) (t : list N) :
  m_encoding self = FULL ->
  (2 <= m_n_cities self <= 46341)%N ->
  vec_size x = (m_n_cities self * (m_n_cities self - 1))%N ->
  Z.of_N (vec_size c) = fst (compute_dimensions (m_n_cities self) FULL) ->
  is_tour (m_n_cities self) t ->
  encodes_tour x (m_n_cities self) t ->
  exists c',
    compute_constraints_impl self c x = Ok c'
    /\ vec_size c' = vec_size c
    /\ forall (k : nat) (v : Q), nth_error c' k = Some v ->
         if (k <? 2 * N.to_nat (m_n_cities self))%nat then v == 0 else v <= 0.
Proof.
  intros Hfull Hn Hx Hc Htour Henc. set (n := m_n_cities self) in *.
  assert (Hn1 : (1 <= n <= 46341)%N) by lia.
  rewrite (compute_dimensions_small n Hn1) in Hc. cbn [fst] in Hc. apply N2Z.inj in Hc.
  assert (H31 : (2 ^ 31 = 2147483648)%N) by reflexivity.
  assert (Hsmall : (n * (n - 1) + 2 < 2 ^ 31)%N) by nia.
  destruct (ranks_tour x n t Hx (proj1 Hn) Hsmall Htour Henc)
    as (u & nc & cc & Hranks & Hnum).
  exists (full_constraints x u n). split; [|split].
  - rewrite (compute_constraints_full_with self c x u nc cc Hfull Hn1 Hx)
      by (exact Hranks || (fold n; lia)).
    rewrite skipn_all2 by (unfold vec_size in Hc; fold n; lia).
    apply f_equal, app_nil_r.
  - unfold full_constraints, vec_size.
    rewrite !length_app, !length_map, arc_pairs_length, range_length.
    change (N.to_nat 0) with O. unfold vec_size in Hc. nia.
  - intros k v Hv. unfold full_constraints in Hv.
    apply nth_error_app3 in Hv. rewrite !length_map, range_length in Hv.
    change (N.to_nat 0) with O in Hv.
    destruct Hv as [[Hk Hv]|[Hk Hv]].
    + destruct (Nat.ltb_spec k (2 * N.to_nat n)); [|lia].
      destruct Hv as [Hv|Hv]; apply in_map_iff in Hv; destruct Hv as (i & <- & Hi);
        apply range_In in Hi.
      * rewrite (out_degree_tour x n t Hx (proj1 Hn) Hsmall Htour Henc i) by lia.
        change d_one with (1 : Q). change (d_sub 1 1) with (1 - 1). lra.
      * rewrite (in_degree_tour x n t Hx (proj1 Hn) Hsmall Htour Henc i) by lia.
        change d_one with (1 : Q). change (d_sub 1 1) with (1 - 1). lra.
    + destruct (Nat.ltb_spec k (2 * N.to_nat n)); [lia|].
      apply in_map_iff in Hv. destruct Hv as ([i j] & <- & Hp).
      apply arc_pairs_In in Hp. destruct Hp as (Hi & Hj & Hij).
      apply (subtour_entry_tour x n t Hx (proj1 Hn) Hsmall Htour Henc u i j Hnum Hi Hj Hij).
Qed.
End TourFeasible.

(** ** The search on a tour that visits the cities in the order of their
       indices, in exact arithmetic *)

Section IdentityTour.
Local Open Scope Q_scope.
Variable self : tsp_cs Q.
Variable tour : list Q.
Hypothesis Hwf : well_formed self.
Hypothesis Hn : (1 <= m_n_cities self)%N.
Hypothesis Hfit : (2 * m_n_cities self <= SizeT.modulus)%N.
Hypothesis Hpos : nonnegative self.
Hypothesis Hid : identity_tour (m_n_cities self) tour.

Lemma identity_tour_length : vec_size tour = m_n_cities self.
Proof. apply Hid. Qed.

Lemma identity_tour_in_range : tour_in_range (m_n_cities self) tour.
Proof.
  unfold tour_in_range. apply Forall_forall. intros t Ht.
  destruct (In_nth_error _ _ Ht) as [p Hp].
  exists (N.of_nat p). split; [apply (proj2 Hid); exact Hp|].
  pose proof (nth_error_lt _ _ _ Hp) as Hlt. rewrite (proj1 Hid) in Hlt. exact Hlt.
Qed.

Lemma city_at_identity (p : N) : city_at self tour p = Ok (p mod m_n_cities self)%N.
Proof.
  unfold city_at.
  destruct (vec_get_ok tour (p mod m_n_cities self)) as (t & -> & Ht).
  - rewrite (proj1 Hid). apply N.mod_lt. lia.
  - cbn [bind]. rewrite (proj2 Hid _ _ Ht), N2Nat.id. reflexivity.
Qed.

Lemma first_value_identity : first_value self tour = pos_value self 0.
Proof.
  unfold first_value, pos_value.
  destruct (vec_get_ok tour 0) as (t & -> & Ht); [rewrite (proj1 Hid); lia|].
  cbn [bind]. rewrite (proj2 Hid _ _ Ht). cbn [of_option bind N.to_nat N.of_nat].
  rewrite N.Div0.mod_0_l. reflexivity.
Qed.

Lemma code_value_identity (l r : N) :
  code_value self tour l r == seg_sum (pos_value self) l (r + 1).
Proof. unfold code_value. rewrite first_value_identity. lra. Qed.

Lemma spec_window_value_identity (l : N) (k : nat) :
  exists v, spec_window_value self tour l k = Ok v
            /\ v == code_value self tour l (l + N.of_nat k).
Proof.
  induction k as [|k (a & Ha & Hav)].
  - cbn [spec_window_value]. rewrite city_at_identity. cbn [bind].
    rewrite (value_at_pos self tour Hwf Hn Hfit identity_tour_length l).
    eexists. split; [reflexivity|].
    rewrite code_value_identity. replace (l + N.of_nat 0)%N with l by lia.
    rewrite seg_sum_right by lia. rewrite seg_sum_empty by lia. lra.
  - cbn [spec_window_value]. rewrite Ha. cbn [bind].
    rewrite city_at_identity. cbn [bind].
    rewrite (value_at_pos self tour Hwf Hn Hfit identity_tour_length).
    cbn [bind]. eexists. split; [reflexivity|].
    rewrite code_value_identity in *.
    rewrite (seg_sum_right (pos_value self) l (l + N.of_nat (S k))) by lia.
    replace (l + N.of_nat (S k))%N with (l + N.of_nat k + 1)%N by lia.
    change (d_add ?p ?q) with (p + q). rewrite Hav. reflexivity.
Qed.

Lemma spec_window_length_identity (l : N) (k : nat) :
  exists len, spec_window_length self tour l k = Ok len
              /\ len == path_length self tour l (l + N.of_nat k).
Proof.
  induction k as [|k (a & Ha & Hal)].
  - cbn [spec_window_length]. eexists. split; [reflexivity|].
    unfold path_length. rewrite seg_sum_empty by lia. reflexivity.
  - cbn [spec_window_length]. rewrite Ha. cbn [bind].
    replace (l + N.of_nat (S k))%N with (l + N.of_nat k + 1)%N by lia.
    rewrite (weight_at_edge self tour Hwf Hn Hfit identity_tour_length
               identity_tour_in_range).
    cbn [bind]. eexists. split; [reflexivity|].
    unfold path_length in *. rewrite seg_sum_right by lia.
    change (d_add ?p ?q) with (p + q). rewrite Hal. reflexivity.
Qed.

(** On the tour [0, 1, ..., n - 1], with weights and values that are not
    negative: the search returns; the value it returns is at least the
    value of every window whose length is strictly below the budget; and
    it is the value of a window whose length is at most the budget (or of
    the first city alone), the remaining length returned being the budget
    less the length of that window. *)
Theorem identity_tour_search :
  exists r,
    find_city_subsequence (N.to_nat (m_n_cities self)) self tour = Ok r
    /\ (forall (l : N) (k : nat) (v len : Q),
          (l < m_n_cities self)%N -> (k < N.to_nat (m_n_cities self))%nat ->
          spec_window_value self tour l k = Ok v ->
          spec_window_length self tour l k = Ok len ->
          len < m_max_path_length self ->
          v <= retval_p r)
    /\ (exists (l : N) (k : nat) (v len : Q),
          (k < N.to_nat (m_n_cities self))%nat
          /\ spec_window_value self tour l k = Ok v
          /\ spec_window_length self tour l k = Ok len
          /\ v == retval_p r
          /\ retval_l r == m_max_path_length self - len
          /\ (len <= m_max_path_length self \/ (l = 0%N /\ k = O))).
Proof.
  destruct (find_city_subsequence_inv self tour Hwf Hn Hfit identity_tour_length
              identity_tour_in_range Hpos) as (st & Hrun & Hinv & Hcl).
  exists (retval st). split; [exact Hrun|]. split.
  - intros l k v len Hl Hk Hv Hlen Hlt.
    destruct (spec_window_value_identity l k) as (v' & Hv' & Ev).
    destruct (spec_window_length_identity l k) as (len' & Hlen' & El).
    rewrite Hv in Hv'. apply ok_inj in Hv'. subst v'.
    rewrite Hlen in Hlen'. apply ok_inj in Hlen'. subst len'.
    rewrite Ev.
    apply (final_dominates self tour Hn Hfit identity_tour_length Hpos st Hinv Hcl);
      try lia.
    rewrite <- El. exact Hlt.
  - destruct Hinv as (Hcore & _).
    destruct (inv_best _ _ _ Hcore) as (bl & br & _ & Hb2 & Hb3 & Hbv & Hbl & Hfitb).
    destruct (spec_window_value_identity bl (N.to_nat (br - bl))) as (v & Hv & Ev).
    destruct (spec_window_length_identity bl (N.to_nat (br - bl))) as (len & Hlen & El).
    replace (bl + N.of_nat (N.to_nat (br - bl)))%N with br in Ev, El by lia.
    exists bl, (N.to_nat (br - bl)), v, len.
    split; [lia|]. split; [exact Hv|]. split; [exact Hlen|].
    split; [rewrite Ev, Hbv; reflexivity|]. split; [rewrite El; exact Hbl|].
    destruct Hfitb as [Hle|[-> ->]].
    + left. rewrite El. exact Hle.
    + right. split; reflexivity.
Qed.
(** With a budget above the length of the whole path [0, 1, ..., n - 1],
    the search returns the value of all the cities together. *)
Theorem large_budget_collects_all (len : Q) :
  spec_window_length self tour 0 (N.to_nat (m_n_cities self) - 1) = Ok len ->
  len < m_max_path_length self ->
  exists r v,
    find_city_subsequence (N.to_nat (m_n_cities self)) self tour = Ok r
    /\ spec_window_value self tour 0 (N.to_nat (m_n_cities self) - 1) = Ok v
    /\ retval_p r == v.
Proof.
  intros Hlen Hlt. set (n := m_n_cities self) in *.
  destruct (find_city_subsequence_inv self tour Hwf Hn Hfit identity_tour_length
              identity_tour_in_range Hpos) as (st & Hrun & Hinv & Hcl).
  destruct (spec_window_value_identity 0 (N.to_nat n - 1)) as (v & Hv & Ev).
  destruct (spec_window_length_identity 0 (N.to_nat n - 1)) as (len' & Hlen' & El).
  rewrite Hlen in Hlen'. apply ok_inj in Hlen'. subst len'.
  exists (retval st), v. split; [exact Hrun|]. split; [exact Hv|].
  assert (Hge : v <= retval_p (retval st)).
  { rewrite Ev.
    apply (final_dominates self tour Hn Hfit identity_tour_length Hpos st Hinv Hcl);
      try (fold n; lia).
    rewrite <- El. exact Hlt. }
  assert (Hle : retval_p (retval st) <= v).
  { destruct Hinv as (Hcore & _).
    destruct (inv_best _ _ _ Hcore) as (bl & br & _ & Hb2 & Hb3 & Hbv & _).
    rewrite Hbv, Ev, !code_value_identity.
    replace (0 + N.of_nat (N.to_nat n - 1) + 1)%N with (0 + n)%N by lia.
    apply (seg_sum_le_period (pos_value self)).
    - intros p. apply pos_value_nonneg. exact Hpos.
    - intros p. apply (pos_value_periodic self tour Hn Hfit identity_tour_length).
    - lia.
    - fold n in Hb3. lia. }
  lra.
Qed.
End IdentityTour.

(** ** The search under a budget that is not positive *)

Section NoBudget.
Local Open Scope Q_scope.
Variable self : tsp_cs Q.
Variable tour : list Q.
Hypothesis Hwf : well_formed self.
Hypothesis Hn : (2 <= m_n_cities self)%N.
Hypothesis Hfit : (2 * m_n_cities self <= SizeT.modulus)%N.
Hypothesis Hlen : vec_size tour = m_n_cities self.
Hypothesis Htour : tour_in_range (m_n_cities self) tour.

(** When the budget is not positive and below the weight of the first
    edge of the tour, the search returns the value of the first city and
    the budget itself as the remaining length: the left pointer moves
    once, nothing is compared, and no other city is looked at alone. *)
Theorem search_without_budget (fuel : nat) (w : Q) :
  weight_at self tour 0 1 = Ok w ->
  m_max_path_length self <= 0 ->
  m_max_path_length self < w ->
  find_city_subsequence (S (S fuel)) self tour
  = Ok {| retval_p := first_value self tour;
          retval_l := m_max_path_length self;
          retval_it_l := 0; retval_it_r := 0 |}.
Proof.
  intros Hw HL0 HLw.
  assert (Hn1 : (1 <= m_n_cities self)%N) by lia.
  unfold find_city_subsequence. rewrite Hlen, N.eqb_refl. cbn [negb].
  assert (Hfirst : (t0 <- vec_get tour 0 ;; i0 <- of_option (d_to_size t0) ;;
                    vec_get (m_values self) i0) = Ok (first_value self tour)).
  { unfold first_value.
    pose proof Htour as Ht. unfold tour_in_range in Ht. rewrite Forall_forall in Ht.
    destruct (vec_get_ok tour 0) as (t0 & -> & Ht0); [lia|]. cbn [bind].
    destruct (Ht t0 (nth_error_In _ _ Ht0)) as (i0 & -> & Hi0). cbn [bind of_option].
    destruct Hwf as (_ & _ & Hv).
    destruct (vec_get_ok (m_values self) i0) as (v0 & -> & _); [lia|]. reflexivity. }
  apply bind_ok in Hfirst. destruct Hfirst as (t0 & -> & Hfirst). cbn [bind].
  apply bind_ok in Hfirst. destruct Hfirst as (i0 & -> & Hv0). cbn [bind].
  rewrite Hv0. cbn [bind]. cbv zeta.
  set (v0 := first_value self tour).
  set (L := m_max_path_length self) in *.
  set (r0 := {| retval_p := v0; retval_l := L; retval_it_l := 0; retval_it_r := 0 |}).
  assert (H0n : (0 mod m_n_cities self = 0)%N) by (apply N.Div0.mod_0_l).
  assert (H1n : (1 mod m_n_cities self = 1)%N) by (apply N.mod_small; lia).
  assert (Hadd01 : SizeT.add 0 1 = 1%N) by reflexivity.
  destruct Hwf as (_ & _ & Hvals).
  destruct (vec_get_ok (m_values self) 1) as (v1 & Hv1 & _); [lia|].
  destruct (vec_get_ok (m_values self) 0) as (v00 & Hv00 & _); [lia|].
  assert (C1 : d_ltb (d_sub L w) d_zero = true).
  { apply q_ltb. change d_zero with 0. change (d_sub L w) with (L - w). lra. }
  assert (C2 : d_gtb (d_add (d_sub L w) w) d_zero = false).
  { unfold d_gtb. apply q_ltb_false. change d_zero with 0.
    change (d_add (d_sub L w) w) with (L - w + w). lra. }
  set (st0 := {| it_l := 0; it_r := 0; cond_r := true; cond_l := true; cum_p := v0;
                 saved_length := L; retval := r0 |}).
  set (st1 := {| it_l := 0; it_r := 1; cond_r := false; cond_l := true;
                 cum_p := d_add v0 v1; saved_length := d_sub L w; retval := r0 |}).
  set (st2 := {| it_l := 1; it_r := 1; cond_r := false; cond_l := true;
                 cum_p := d_sub (d_add v0 v1) v00;
                 saved_length := d_add (d_sub L w) w; retval := r0 |}).
  assert (S1 : inner_body self tour st0 = Ok st1).
  { unfold inner_body, st0. cbn [it_r it_l cond_r cond_l cum_p saved_length retval].
    rewrite Hadd01, H0n, H1n, Hw. cbn [bind]. rewrite Hv1. cbn [bind]. cbv zeta.
    cbn [it_r it_l cond_r cond_l cum_p saved_length retval].
    rewrite C1. reflexivity. }
  assert (S2 : outer_rest self tour st1 = Ok st2).
  { unfold outer_rest, st1. cbn [it_r it_l cond_r cond_l cum_p saved_length retval].
    rewrite Hadd01, H0n, H1n. cbn [N.eqb]. rewrite Hw. cbn [bind].
    rewrite Hv00. cbn [bind]. cbv zeta.
    cbn [it_r it_l cond_r cond_l cum_p saved_length retval].
    rewrite C2. cbn [it_l].
    destruct (N.eqb_spec 1 (m_n_cities self)) as [E|_]; [lia|]. reflexivity. }
  assert (S3 : outer_rest self tour st2 = Ok (set_cond_l false st2)).
  { unfold outer_rest, st2 at 1 2. cbn [it_r it_l]. rewrite H1n, N.eqb_refl. reflexivity. }
  change (outer_loop (S (S fuel)) (S (S fuel)) self tour st0)
    with (st1' <- (st' <- inner_body self tour st0 ;;
                   inner_loop (S fuel) self tour st') ;;
          st2' <- outer_rest self tour st1' ;;
          outer_loop (S fuel) (S (S fuel)) self tour st2').
  rewrite S1. cbn [bind].
  change (inner_loop (S fuel) self tour st1) with (Ok st1). cbn [bind].
  rewrite S2. cbn [bind].
  change (outer_loop (S fuel) (S (S fuel)) self tour st2)
    with (st1' <- Ok st2 ;;
          st2' <- outer_rest self tour st1' ;;
          outer_loop fuel (S (S fuel)) self tour st2').
  cbn [bind]. rewrite S3. cbn [bind].
  destruct fuel; reflexivity.
Qed.
End NoBudget.

(** ** The default instance *)

Section SmallInstances.
Context {D : Type} {ops : DoubleOps D}.

Lemma default_weights_ok `{!CompareLaws D} : weights_ok (m_weights (@default_tsp_cs D ops)).
Proof.
  split.
  - repeat constructor.
  - intros i j row v Hrow Hv. unfold cell_ok.
    destruct i as [|[|[|i]]]; simpl in Hrow; try (destruct i; discriminate Hrow);
      injection Hrow as <-;
      destruct j as [|[|[|j]]]; simpl in Hv; try (destruct j; discriminate Hv);
      injection Hv as <-; simpl;
      first [apply d_zero_eqb_zero | rewrite d_one_eqb_zero; reflexivity].
Qed.

(** The instance of the default constructor is the one that the other
    constructor builds from the same weights, values and budget under the
    RANDOMKEYS encoding: the data pass [check_weights], and the
    [m_min_value] written by hand is the one computed there. *)
Theorem default_constructor_agrees `{!CompareLaws D} :
  make_tsp_cs (m_weights default_tsp_cs) (m_values default_tsp_cs)
              (m_max_path_length default_tsp_cs) RANDOMKEYS
  = Ok (@default_tsp_cs D ops).
Proof.
  unfold make_tsp_cs.
  rewrite (weights_ok_check _ default_weights_ok). cbn [bind].
  reflexivity.
Qed.

End SmallInstances.

(** ** Witnesses of the theorems on the FULL constraints *)

Lemma full_constraints_computed_witness :
  exists u next_city current_city,
    ranks [1; 0; 0; 1; 1; 0]%float 3 = Ok (u, next_city, current_city)
    /\ length u = N.to_nat 3
    /\ Forall (fun z => 0 <= z <= Z.of_N 3)%Z u
    /\ compute_constraints_impl default_full (repeat 9%float 8) [1; 0; 0; 1; 1; 0]%float
       = Ok (full_constraints [1; 0; 0; 1; 1; 0]%float u 3).
Proof.
  apply (full_constraints_computed default_full (repeat 9%float 8)
           [1; 0; 0; 1; 1; 0]%float).
  - reflexivity.
  - split; intros H; discriminate H.
  - reflexivity.
  - reflexivity.
Defined.

Lemma tour_012 : is_tour 3 [0; 1; 2]%N.
Proof.
  split; [|split; [reflexivity|split; [|reflexivity]]].
  - repeat constructor; simpl; intuition discriminate.
  - intros i [ <- | [ <- | [ <- | [] ] ] ]; reflexivity.
Qed.

Lemma chromosome_012 : encodes_tour [1; 0; 0; 1; 1; 0]%Q 3 [0; 1; 2]%N.
Proof.
  intros k j Hk Hj Hne. cbn [length] in Hk.
  assert (Hj3 : j = 0%N \/ j = 1%N \/ j = 2%N) by lia.
  destruct k as [|[|[|k]]]; [| | |lia];
    destruct Hj3 as [ -> | [ -> | -> ] ];
    try (exfalso; apply Hne; reflexivity); vm_compute; reflexivity.
Qed.

Lemma tour_chromosome_is_feasible_witness :
  exists c',
    compute_constraints_impl default_full_exact (repeat 9%Q 8) [1; 0; 0; 1; 1; 0]%Q
    = Ok c'
    /\ vec_size c' = vec_size (repeat 9%Q 8)
    /\ forall (k : nat) (v : Q), nth_error c' k = Some v ->
         if (k <? 2 * N.to_nat 3)%nat then (v == 0)%Q else (v <= 0)%Q.
Proof.
  apply (tour_chromosome_is_feasible default_full_exact (repeat 9%Q 8)
           [1; 0; 0; 1; 1; 0]%Q [0; 1; 2]%N).
  - reflexivity.
  - split; intros H; discriminate H.
  - reflexivity.
  - reflexivity.
  - exact tour_012.
  - exact chromosome_012.
Defined.

Lemma identity_tour_01 : identity_tour 2 [0; 1]%Q.
Proof.
  split; [reflexivity|].
  intros [|[|p]] t H; simpl in H.
  - injection H as <-. reflexivity.
  - injection H as <-. reflexivity.
  - destruct p; discriminate H.
Qed.

Lemma identity_tour_search_witness :
  exists r,
    find_city_subsequence 2 two_cities_exact [0; 1]%Q = Ok r
    /\ (forall (l : N) (k : nat) (v len : Q),
          (l < 2)%N -> (k < 2)%nat ->
          spec_window_value two_cities_exact [0; 1]%Q l k = Ok v ->
          spec_window_length two_cities_exact [0; 1]%Q l k = Ok len ->
          (len < 1)%Q ->
          (v <= retval_p r)%Q)
    /\ (exists (l : N) (k : nat) (v len : Q),
          (k < 2)%nat
          /\ spec_window_value two_cities_exact [0; 1]%Q l k = Ok v
          /\ spec_window_length two_cities_exact [0; 1]%Q l k = Ok len
          /\ (v == retval_p r)%Q
          /\ (retval_l r == 1 - len)%Q
          /\ ((len <= 1)%Q \/ (l = 0%N /\ k = O))).
Proof.
  apply (identity_tour_search two_cities_exact [0; 1]%Q).
  - exact (two_cities_well_formed 1).
  - intros H. discriminate H.
  - intros H. discriminate H.
  - exact (two_cities_nonnegative 1).
  - exact identity_tour_01.
Defined.

Lemma large_budget_collects_all_witness :
  exists r v,
    find_city_subsequence 2 (two_cities_budget 2) [0; 1]%Q = Ok r
    /\ spec_window_value (two_cities_budget 2) [0; 1]%Q 0 (N.to_nat 2 - 1) = Ok v
    /\ (retval_p r == v)%Q.
Proof.
  apply (large_budget_collects_all (two_cities_budget 2) [0; 1]%Q
           (two_cities_well_formed 2) ltac:(intros H; discriminate H)
           ltac:(intros H; discriminate H) (two_cities_nonnegative 2)
           identity_tour_01 1%Q).
  - vm_compute. reflexivity.
  - reflexivity.
Defined.

Lemma search_without_budget_witness :
  find_city_subsequence 2 (two_cities_budget 0) [0; 1]%Q
  = Ok {| retval_p := first_value (two_cities_budget 0) [0; 1]%Q;
          retval_l := 0%Q; retval_it_l := 0; retval_it_r := 0 |}.
Proof.
  apply (search_without_budget (two_cities_budget 0) [0; 1]%Q
           (two_cities_well_formed 0) ltac:(intros H; discriminate H)
           ltac:(intros H; discriminate H) eq_refl two_cities_tour 0%nat 1%Q).
  - reflexivity.
  - intros H. discriminate H.
  - reflexivity.
Defined.

Lemma default_constructor_agrees_witness :
  make_tsp_cs unit_weights [1; 1; 1]%float 1%float RANDOMKEYS = Ok default_tsp_cs.
Proof. exact (@default_constructor_agrees float binary64 binary64_compare). Defined.


Lemma full_constraints_room_witness :
  (exists c',
     compute_constraints_impl default_full (repeat 9%float 10) [1; 0; 0; 1; 1; 0]%float
     = Ok c'
     /\ vec_size c' = vec_size (repeat 9%float 10)
     /\ skipn (Z.to_nat (fst (compute_dimensions (m_n_cities default_full) FULL))) c'
        = skipn (Z.to_nat (fst (compute_dimensions (m_n_cities default_full) FULL)))
            (repeat 9%float 10))
  /\ compute_constraints_impl default_full (repeat 9%float 7) [1; 0; 0; 1; 1; 0]%float
     = Undefined.
Proof.
  split.
  - apply (full_constraints_room default_full (repeat 9%float 10)
             [1; 0; 0; 1; 1; 0]%float).
    + reflexivity.
    + split; intros H; discriminate H.
    + reflexivity.
    + intros H; discriminate H.
  - apply (full_constraints_room default_full (repeat 9%float 7)
             [1; 0; 0; 1; 1; 0]%float).
    + reflexivity.
    + split; intros H; discriminate H.
    + reflexivity.
    + reflexivity.
Defined.
